(** * Verification of the coding and reliability core of [utils.py]

    The development embeds, function by function, the parts of
    [src/utils.py] that turn a remote model's free-form reply into a
    validated coding result ([auto_code_content], [auto_code_video]), the
    retry decorator that wraps them ([retry_with_backoff]) and the two
    agreement statistics ([calculate_percentage_agreement],
    [calculate_krippendorff_alpha]); and, around them, the client
    ([get_siliconflow_client], the request loop of
    [SiliconFlowClient.CompletionsObject.create]) and the sampling of
    video frames ([extract_video_frames]).

    Conventions of the embedding.
    - A Python [str] is a [string] whose characters are the code points
      0..255; [len] is [String.length].  Text constants of the source that
      contain other characters are written as they appear in the source
      file and are only compared for equality or concatenated.
    - A [dict] is a [gmap]; Python's dict equality ignores insertion
      order, and so does [gmap] equality.  No iteration of the source
      depends on the order of a dict in a way that a result can observe.
    - [int / int] and the other quotients of the source are exact
      rationals ([Q]); Python rounds each of them to the nearest double.
    - A raised exception is the [Raise] result of the monad [M]; the
      world threaded by [M] holds the session's API key, the outcomes of
      the calls to the remote service, and the trace of calls and log
      records. *)

From Stdlib Require Import Ascii ZArith QArith Qround Lia Lqa.
From Stdlib Require String.
From stdpp Require Import base option list gmap strings.

Local Open Scope Z_scope.

(** ** Python's [str] methods *)

Module PyStr.

Definition code (c : ascii) : N := N_of_ascii c.

(** The double quote, written by its code so that no literal has to
    contain one. *)
Definition dquote : ascii := "034"%char.

(** [c.isspace()]: the code points below 256 that [str.strip] removes
    and that [\s] matches in a [str] pattern. *)
Definition isspace (c : ascii) : bool :=
  let n := code c in
  ((9 <=? n) && (n <=? 13) || (28 <=? n) && (n <=? 32)
   || (n =? 133) || (n =? 160))%N.

(** [c.lower()] on one code point below 256. *)
Definition lower_char (c : ascii) : ascii :=
  let n := code c in
  if ((65 <=? n) && (n <=? 90) || (192 <=? n) && (n <=? 214)
      || (216 <=? n) && (n <=? 222))%N
  then ascii_of_N (n + 32) else c.

Fixpoint lower (s : string) : string :=
  match s with
  | EmptyString => EmptyString
  | String c r => String (lower_char c) (lower r)
  end.

Definition len (s : string) : nat := String.length s.

Fixpoint chars (s : string) : list ascii :=
  match s with
  | EmptyString => []
  | String c r => c :: chars r
  end.

(** [set(s)] *)
Definition charset (s : string) : gset ascii := list_to_set (chars s).

(** [needle in hay] for two strings. *)
Fixpoint contains (needle hay : string) : bool :=
  String.prefix needle hay
  || match hay with
     | EmptyString => false
     | String _ r => contains needle r
     end.

(** [c in s] for a one-character [c]. *)
Fixpoint has_char (c : ascii) (s : string) : bool :=
  match s with
  | EmptyString => false
  | String d r => bool_decide (d = c) || has_char c r
  end.

Fixpoint lstrip (s : string) : string :=
  match s with
  | EmptyString => EmptyString
  | String c r => if isspace c then lstrip r else s
  end.

Fixpoint rstrip (s : string) : string :=
  match s with
  | EmptyString => EmptyString
  | String c r =>
      match rstrip r with
      | EmptyString => if isspace c then EmptyString else String c EmptyString
      | r' => String c r'
      end
  end.

(** [s.strip()] *)
Definition strip (s : string) : string := rstrip (lstrip s).

(** [s.split(sep)] for a one-character separator: never empty. *)
Fixpoint split (sep : ascii) (s : string) : list string :=
  match s with
  | EmptyString => [EmptyString]
  | String c r =>
      if bool_decide (c = sep) then EmptyString :: split sep r
      else match split sep r with
           | h :: t => String c h :: t
           | [] => [String c EmptyString]
           end
  end.

(** [s.split(sep, 1)]: at most two parts. *)
Fixpoint split_once (sep : ascii) (s : string) : list string :=
  match s with
  | EmptyString => [EmptyString]
  | String c r =>
      if bool_decide (c = sep) then [EmptyString; r]
      else match split_once sep r with
           | h :: t => String c h :: t
           | [] => [String c EmptyString]
           end
  end.

(** [s.find(c)]: the first index of [c], or [-1]. *)
Fixpoint find (c : ascii) (s : string) : Z :=
  match s with
  | EmptyString => -1
  | String d r =>
      if bool_decide (d = c) then 0
      else let i := find c r in if i <? 0 then -1 else i + 1
  end.

(** [s.rfind(c)]: the last index of [c], or [-1]. *)
Fixpoint rfind (c : ascii) (s : string) : Z :=
  match s with
  | EmptyString => -1
  | String d r =>
      let i := rfind c r in
      if 0 <=? i then i + 1
      else if bool_decide (d = c) then 0 else -1
  end.

(** [s[i:j]] for [0 <= i]. *)
Definition slice (i j : Z) (s : string) : string :=
  String.substring (Z.to_nat i) (Z.to_nat (j - i)) s.

(** [sep.join(l)] *)
Fixpoint join (sep : string) (l : list string) : string :=
  match l with
  | [] => EmptyString
  | [x] => x
  | x :: r => x +:+ sep +:+ join sep r
  end.

(** [s.replace(old, new)] for a non-empty [old]: occurrences are taken
    from the left and do not overlap; [skip] counts the characters of
    the occurrence just replaced that are still to be dropped. *)
Fixpoint replace_from (old new : string) (skip : nat) (s : string) : string :=
  match s with
  | EmptyString => EmptyString
  | String c r =>
      match skip with
      | S k => replace_from old new k r
      | O =>
          if String.prefix old s
          then new +:+ replace_from old new (String.length old - 1) r
          else String c (replace_from old new 0 r)
      end
  end.

Definition replace (old new s : string) : string := replace_from old new 0 s.

(** [str(n)] for an integer. *)
Definition digit (n : Z) : ascii := ascii_of_N (48 + Z.to_N n).

Fixpoint str_nat_go (fuel : nat) (n : Z) (acc : string) : string :=
  match fuel with
  | O => acc
  | S f =>
      let acc' := String (digit (n mod 10)) acc in
      if n <? 10 then acc' else str_nat_go f (n / 10) acc'
  end.

Definition str_Z (n : Z) : string :=
  let digits m := str_nat_go (S (Z.to_nat (Z.log2 m))) m EmptyString in
  if n <? 0 then String "-" (digits (- n)) else digits n.

(** [f"{n:02d}"] for [0 <= n]. *)
Definition str_Z_02 (n : Z) : string :=
  if n <? 10 then String "0" (str_Z n) else str_Z n.

End PyStr.


(** ** JSON values and the decoder behind [json.loads] *)

(** What [json.loads] can return: [None], [bool], [int], [float], [str],
    [list] and [dict].  A [float] keeps the literal it was read from; the
    code under study only passes numbers through. *)
#[warnings="-register-all"]
Inductive JValue : Type :=
  | JNull
  | JBool (b : bool)
  | JInt (n : Z)
  | JFloat (literal : string)
  | JStr (s : string)
  | JArr (items : list JValue)
  | JObj (members : gmap string JValue).

Module Json.
Import PyStr.

(** The decoder's whitespace: space, tab, line feed, carriage return. *)
Definition is_ws (c : ascii) : bool :=
  let n := code c in ((n =? 32) || (n =? 9) || (n =? 10) || (n =? 13))%N.

Fixpoint skip_ws (s : string) : string :=
  match s with
  | String c r => if is_ws c then skip_ws r else s
  | EmptyString => EmptyString
  end.

Definition is_digit (c : ascii) : bool :=
  let n := code c in ((48 <=? n) && (n <=? 57))%N.

Definition hex_val (c : ascii) : option N :=
  let n := code c in
  if ((48 <=? n) && (n <=? 57))%N then Some (n - 48)%N
  else if ((65 <=? n) && (n <=? 70))%N then Some (n - 55)%N
  else if ((97 <=? n) && (n <=? 102))%N then Some (n - 87)%N
  else None.

(** The one-character escapes of a JSON string. *)
Definition unescape (c : ascii) : option ascii :=
  if bool_decide (c = dquote) then Some dquote
  else match c with
       | "\"%char => Some "\"%char
       | "/"%char => Some "/"%char
       | "b"%char => Some "008"%char
       | "f"%char => Some "012"%char
       | "n"%char => Some "010"%char
       | "r"%char => Some "013"%char
       | "t"%char => Some "009"%char
       | _ => None
       end.

(** [scanstring] in strict mode, from just after the opening quote: the
    decoded text and what follows the closing quote.  A [\uXXXX] escape
    is decoded when its code point is below 256, the range of the
    embedding's characters. *)
Fixpoint scanstring (s : string) : option (string * string) :=
  match s with
  | EmptyString => None
  | String c r =>
      if bool_decide (c = dquote) then Some (EmptyString, r)
      else if bool_decide (c = "\"%char) then
        match r with
        | String "u" (String h1 (String h2 (String h3 (String h4 r')))) =>
            match hex_val h1, hex_val h2, hex_val h3, hex_val h4 with
            | Some a, Some b, Some c', Some d =>
                let n := (((a * 16 + b) * 16 + c') * 16 + d)%N in
                if (n <? 256)%N then
                  match scanstring r' with
                  | Some (t, rest) => Some (String (ascii_of_N n) t, rest)
                  | None => None
                  end
                else None
            | _, _, _, _ => None
            end
        | String e r' =>
            match unescape e, scanstring r' with
            | Some ch, Some (t, rest) => Some (String ch t, rest)
            | _, _ => None
            end
        | EmptyString => None
        end
      else if (code c <? 32)%N then None
      else match scanstring r with
           | Some (t, rest) => Some (String c t, rest)
           | None => None
           end
  end.

Fixpoint span_digits (s : string) : string * string :=
  match s with
  | String c r =>
      if is_digit c then let '(d, rest) := span_digits r in (String c d, rest)
      else (EmptyString, s)
  | EmptyString => (EmptyString, EmptyString)
  end.

Fixpoint digits_value (acc : Z) (s : string) : Z :=
  match s with
  | String c r => digits_value (acc * 10 + Z.of_N (code c - 48)) r
  | EmptyString => acc
  end.

(** The integer part [0|[1-9]\d*] of a number. *)
Definition scan_int (s : string) : option (string * string) :=
  match s with
  | String c r =>
      if bool_decide (c = "0"%char) then Some (String c EmptyString, r)
      else if is_digit c then
        let '(d, rest) := span_digits r in Some (String c d, rest)
      else None
  | EmptyString => None
  end.

(** The optional fraction [\.\d+]. *)
Definition scan_frac (s : string) : string * string :=
  match s with
  | String "." r =>
      match span_digits r with
      | (EmptyString, _) => (EmptyString, s)
      | (d, rest) => (String "." d, rest)
      end
  | _ => (EmptyString, s)
  end.

(** The optional exponent [[eE][-+]?\d+]. *)
Definition scan_exp (s : string) : string * string :=
  match s with
  | String e r =>
      if bool_decide (e = "e"%char) || bool_decide (e = "E"%char) then
        let '(sign, r1) :=
          match r with
          | String g r' =>
              if bool_decide (g = "-"%char) || bool_decide (g = "+"%char)
              then (String g EmptyString, r') else (EmptyString, r)
          | EmptyString => (EmptyString, r)
          end in
        match span_digits r1 with
        | (EmptyString, _) => (EmptyString, s)
        | (d, rest) => (String e (sign +:+ d), rest)
        end
      else (EmptyString, s)
  | EmptyString => (EmptyString, s)
  end.

(** [NUMBER_RE] at the head of [s]: an [int] without fraction and
    exponent, a [float] otherwise. *)
Definition scan_number (s : string) : option (JValue * string) :=
  let '(neg, s1) :=
    match s with
    | String "-" r => (true, r)
    | _ => (false, s)
    end in
  match scan_int s1 with
  | None => None
  | Some (int_part, s2) =>
      let '(frac, s3) := scan_frac s2 in
      let '(exp, s4) := scan_exp s3 in
      match frac, exp with
      | EmptyString, EmptyString =>
          let v := digits_value 0 int_part in
          Some (JInt (if neg then - v else v), s4)
      | _, _ =>
          Some (JFloat ((if neg then "-" else "") +:+ int_part +:+ frac +:+ exp), s4)
      end
  end.

(** [s[n:]] *)
Fixpoint drop (n : nat) (s : string) : string :=
  match n, s with
  | O, _ => s
  | S n', String _ r => drop n' r
  | S _, EmptyString => EmptyString
  end.

(** The literals tried when no string, object, array or number starts
    at the head of [s]. *)
Definition scan_constant (s : string) : option (JValue * string) :=
  if String.prefix "null" s then Some (JNull, drop 4 s)
  else if String.prefix "true" s then Some (JBool true, drop 4 s)
  else if String.prefix "false" s then Some (JBool false, drop 5 s)
  else None.

Definition scan_nonfinite (s : string) : option (JValue * string) :=
  if String.prefix "NaN" s then Some (JFloat "NaN", drop 3 s)
  else if String.prefix "Infinity" s then Some (JFloat "Infinity", drop 8 s)
  else if String.prefix "-Infinity" s then Some (JFloat "-Infinity", drop 9 s)
  else None.

(** [scan_once], [JSONObject] and [JSONArray].  Every call consumes at
    least one character before the next one, so the fuel given by
    [loads] is never the reason for a [None]. *)
Fixpoint scan_once (fuel : nat) (s : string) : option (JValue * string) :=
  match fuel with
  | O => None
  | S f =>
      match s with
      | EmptyString => None
      | String c r =>
          if bool_decide (c = dquote) then
            match scanstring r with
            | Some (t, rest) => Some (JStr t, rest)
            | None => None
            end
          else if bool_decide (c = "{"%char) then
            match skip_ws r with
            | String "}" rest => Some (JObj ∅, rest)
            | String q rest =>
                if bool_decide (q = dquote) then object_members f ∅ rest else None
            | EmptyString => None
            end
          else if bool_decide (c = "["%char) then
            match skip_ws r with
            | String "]" rest => Some (JArr [], rest)
            | r1 => array_items f [] r1
            end
          else
            match scan_constant s with
            | Some res => Some res
            | None =>
                match scan_number s with
                | Some res => Some res
                | None => scan_nonfinite s
                end
            end
      end
  end
with object_members (fuel : nat) (acc : gmap string JValue) (s : string)
    : option (JValue * string) :=
  match fuel with
  | O => None
  | S f =>
      match scanstring s with
      | None => None
      | Some (key, r) =>
          match skip_ws r with
          | String ":" r1 =>
              match scan_once f (skip_ws r1) with
              | None => None
              | Some (v, r2) =>
                  let acc' := <[key := v]> acc in
                  match skip_ws r2 with
                  | String "}" rest => Some (JObj acc', rest)
                  | String "," r3 =>
                      match skip_ws r3 with
                      | String q r4 =>
                          if bool_decide (q = dquote)
                          then object_members f acc' r4 else None
                      | EmptyString => None
                      end
                  | _ => None
                  end
              end
          | _ => None
          end
      end
  end
with array_items (fuel : nat) (acc : list JValue) (s : string)
    : option (JValue * string) :=
  match fuel with
  | O => None
  | S f =>
      match scan_once f s with
      | None => None
      | Some (v, r) =>
          match skip_ws r with
          | String "]" rest => Some (JArr (acc ++ [v]), rest)
          | String "," r1 => array_items f (acc ++ [v]) (skip_ws r1)
          | _ => None
          end
      end
  end.

(** [json.loads(s)]: [None] stands for [JSONDecodeError]. *)
Definition loads (s : string) : option JValue :=
  match scan_once (2 * String.length s + 2) (skip_ws s) with
  | Some (v, rest) =>
      match skip_ws rest with
      | EmptyString => Some v
      | _ => None
      end
  | None => None
  end.

End Json.

(** ** The fenced-block pattern of [re.search] *)

Module Re.
Import PyStr.

Definition fence : string := "```".

(** The lazy [[\s\S]*?] followed by ["}"], [\s*] and the closing fence:
    the shortest body after which the rest of the pattern matches. *)
Fixpoint lazy_body (s : string) : option string :=
  match s with
  | EmptyString => None
  | String c r =>
      if bool_decide (c = "}"%char) && String.prefix fence (lstrip r)
      then Some EmptyString
      else String c <$> lazy_body r
  end.

(** [\s*({[\s\S]*?})\s*```] at the head of [s]: group 1. *)
Definition match_block (s : string) : option string :=
  match lstrip s with
  | String "{" body => (λ b, String "{" (b +:+ "}")) <$> lazy_body body
  | _ => None
  end.

(** The pattern at the head of [s]; the greedy [(?:json)?] is tried
    with the tag first and without it on failure. *)
Definition match_here (s : string) : option string :=
  if String.prefix fence s then
    let r := Json.drop 3 s in
    if String.prefix "json" r then
      match match_block (Json.drop 4 r) with
      | Some g => Some g
      | None => match_block r
      end
    else match_block r
  else None.

(** [re.search(r'```(?:json)?\s*({[\s\S]*?})\s*```', s)]: group 1 of
    the leftmost match, [None] when the pattern matches nowhere. *)
Fixpoint search_fenced (s : string) : option string :=
  match match_here s with
  | Some g => Some g
  | None =>
      match s with
      | EmptyString => None
      | String _ r => search_fenced r
      end
  end.

End Re.

(** ** Exceptions, the remote service and the world *)

Inductive exn : Type :=
  | JSONDecodeError
  | TypeError
  | AttributeError
  | KeyError
  | ValueError
  | ZeroDivisionError
  | OverflowError
  | ServiceError (msg : string).

(** The outcome of a computation that can raise. *)
Inductive Result (A : Type) : Type :=
  | Ok (a : A)
  | Raise (e : exn).
Arguments Ok {A} a.
Arguments Raise {A} e.

(** The response object built by [SiliconFlowClient]: [choices] is empty,
    or holds one choice whose [message] is [None] or carries [content]. *)
Inductive Response : Type :=
  | RespContent (content : string)
  | RespNoMessage
  | RespNoChoices (repr : string).

(** What one call of [client.chat.completions.create] does: it returns a
    response or raises. *)
Inductive Outcome : Type :=
  | Returns (r : Response)
  | Fails (e : exn).

(** The arguments of a call of [client.chat.completions.create]. *)
Inductive Request : Type :=
  | ChatText (model system user : string) (temperature : Q) (max_tokens : Z)
  | ChatVision (model image_url text : string) (temperature : Q) (max_tokens : Z).

Inductive Level : Type := INFO | WARNING | ERROR.

(** A value interpolated into a log message. *)
Inductive LogArg : Type :=
  | AStr (s : string)
  | AInt (n : Z)
  | AExn (e : exn)
  | AVal (v : JValue).

(** What a run leaves behind, in order: log records (the f-string of the
    source and the values it interpolates), calls of the remote service,
    [time.sleep] and, for a decorated function, each invocation. *)
Inductive Event : Type :=
  | Log (level : Level) (message : string) (args : list LogArg)
  | Chat (req : Request)
  | Sleep (seconds : Z)
  | Invoke (func_name : string).

Record World : Type := mkWorld {
  api_key : string;            (* st.session_state.get('siliconflow_api_key', '') *)
  service : nat → Outcome;     (* the outcome of the n-th remote call *)
  calls : nat;                 (* remote calls made so far *)
  trace : list Event           (* events so far, the latest last *)
}.

Definition M (A : Type) : Type := World → Result A * World.

#[global] Instance Result_ret : MRet Result := λ A a, Ok a.
#[global] Instance Result_bind : MBind Result := λ A B f r,
  match r with
  | Ok a => f a
  | Raise e => Raise e
  end.

#[global] Instance M_ret : MRet M := λ A a w, (Ok a, w).
#[global] Instance M_bind : MBind M := λ A B f m w,
  match m w with
  | (Ok a, w') => f a w'
  | (Raise e, w') => (Raise e, w')
  end.

#[global] Instance M_fmap : FMap M := λ A B f m w,
  match m w with
  | (Ok a, w') => (Ok (f a), w')
  | (Raise e, w') => (Raise e, w')
  end.

Definition raise {A} (e : exn) : M A := λ w, (Raise e, w).

Definition lift {A} (r : Result A) : M A := λ w, (r, w).

(** [try: body  except Exception as e: handler(e)] *)
Definition try_except {A} (body : M A) (handler : exn → M A) : M A := λ w,
  match body w with
  | (Ok a, w') => (Ok a, w')
  | (Raise e, w') => handler e w'
  end.

(** The world after the events [evs]. *)
Definition push (evs : list Event) (w : World) : World :=
  mkWorld (api_key w) (service w) (calls w) (trace w ++ evs).

Definition emit (ev : Event) : M unit := λ w, (Ok (), push [ev] w).

Definition logging (lv : Level) (message : string) (args : list LogArg) : M unit :=
  emit (Log lv message args).

(** [time.sleep(seconds)] *)
Definition sleep (seconds : Z) : M unit := emit (Sleep seconds).

(** [client.chat.completions.create(...)]: the request is recorded and
    the next outcome of the service is consumed. *)
Definition called (req : Request) (w : World) : World :=
  mkWorld (api_key w) (service w) (S (calls w)) (trace w ++ [Chat req]).

Definition chat_completions_create (req : Request) : M Response := λ w,
  let w' := called req w in
  match service w (calls w) with
  | Returns r => (Ok r, w')
  | Fails e => (Raise e, w')
  end.

(** ** [retry_with_backoff] *)

(** The three log records of the decorator. *)
Definition attempt_failed (func_name : string) (retries max_retries : Z) (e : exn) : Event :=
  Log WARNING "函数 {func.__name__} 调用失败 (尝试 {retries}/{max_retries}): {str(e)}"
    [AStr func_name; AInt retries; AInt max_retries; AExn e].

Definition waiting (sleep_time : Z) : Event :=
  Log INFO "等待 {sleep_time} 秒后重试..." [AInt sleep_time].

Definition gave_up (func_name : string) (max_retries : Z) : Event :=
  Log ERROR "函数 {func.__name__} 在 {max_retries} 次尝试后仍然失败"
    [AStr func_name; AInt max_retries].

Section Retry.
Context {A : Type}.
Variables (max_retries initial_backoff backoff_factor : Z).
Variable func_name : string.
Variable func : M A.

(** [raise last_exception]; raising [None] is a [TypeError]. *)
Definition raise_last (last_exception : option exn) : M A :=
  match last_exception with
  | Some e => raise e
  | None => raise TypeError
  end.

(** The [while retries < max_retries] loop of [wrapper]; [fuel] bounds
    the iterations left and [backoff] is never reassigned. *)
Fixpoint retry_loop (fuel : nat) (backoff retries : Z)
    (last_exception : option exn) : M A :=
  if retries <? max_retries then
    match fuel with
    | O => raise_last last_exception
    | S fuel' =>
        emit (Invoke func_name);;
        try_except func (λ e,
          let retries := retries + 1 in
          emit (attempt_failed func_name retries max_retries e);;
          (if retries <? max_retries then
             let sleep_time := backoff * backoff_factor ^ (retries - 1) in
             emit (waiting sleep_time);;
             sleep sleep_time
           else
             emit (gave_up func_name max_retries));;
          retry_loop fuel' backoff retries (Some e))
    end
  else raise_last last_exception.

(** The [wrapper] that the decorator returns for [func]. *)
Definition retry_with_backoff : M A :=
  retry_loop (Z.to_nat max_retries) initial_backoff 0 None.

End Retry.

(** ** The coding scheme and the prompt *)

(** One element of a list-valued ['options']: a plain string, or a dict
    that may carry a ['label'] and a ['value']. *)
Inductive OptionItem : Type :=
  | OptText (s : string)
  | OptDict (label value : option string).

(** The ['options'] entry of a variable dict: absent, a comma-separated
    string, or a list. *)
Inductive OptionsField : Type :=
  | OptionsAbsent
  | OptionsStr (s : string)
  | OptionsList (items : list OptionItem).

(** A variable dict, with the defaults that [var.get] supplies for the
    keys that are absent: [''] for name, type, labels and guide, [5] for
    the scale. *)
Record CodingVar : Type := mkVar {
  var_name : string;
  var_type : string;
  var_options : OptionsField;
  likert_scale : Z;
  likert_labels : string;
  guide : string
}.

Import PyStr.

Definition nl : string := String "010" EmptyString.
Definition dq : string := String dquote EmptyString.

(** [var_type == "分类变量" or var_type == "select"] *)
Definition is_categorical (t : string) : bool :=
  bool_decide (t = "分类变量") || bool_decide (t = "select").

Definition is_dict (o : OptionItem) : bool :=
  match o with OptDict _ _ => true | OptText _ => false end.

(** [[opt.get('label', '') for opt in options if 'label' in opt]] *)
Definition option_labels (items : list OptionItem) : list string :=
  omap (λ o, match o with OptDict (Some l) _ => Some l | _ => None end) items.

Definition option_values (items : list OptionItem) : list string :=
  omap (λ o, match o with OptDict _ (Some v) => Some v | _ => None end) items.

(** [", ".join(var['options'])] on a list that is not made of dicts only:
    a dict among the items is a [TypeError]. *)
Fixpoint plain_options (items : list OptionItem) : Result (list string) :=
  match items with
  | [] => Ok []
  | OptText s :: r => l ← plain_options r; Ok (s :: l)
  | OptDict _ _ :: _ => Raise TypeError
  end.

(** [[opt.strip() for opt in s.split(',') if opt.strip()]] *)
Definition split_options (s : string) : list string :=
  omap (λ opt, let o := strip opt in
               if bool_decide (o = EmptyString) then None else Some o)
       (split "," s).

(** The "处理选项" block for one categorical variable: the text appended
    to [variables_text] and the updated [options_map]. *)
Definition register_options (v : CodingVar) (options_map : gmap string (list string))
    : Result (string * gmap string (list string)) :=
  match var_options v with
  | OptionsStr s =>
      let options := split_options s in
      let options_map := <[var_name v := options]> options_map in
      Ok (match options with
          | [] => EmptyString
          | _ => " [选项: " +:+ join ", " options +:+ "]"
          end, options_map)
  | OptionsList items =>
      if forallb is_dict items then
        let labels := option_labels items in
        let values := option_values items in
        match labels with
        | [] => Ok (EmptyString, options_map)
        | _ =>
            Ok (" [选项: " +:+ join ", " labels +:+ "]",
                <[var_name v +:+ "_labels" := labels]>
                  (<[var_name v +:+ "_values" := values]>
                     (<[var_name v := labels]> options_map)))
        end
      else
        options ← plain_options items;
        Ok (" [选项: " +:+ join ", " options +:+ "]",
            <[var_name v := options]> options_map)
  | OptionsAbsent => Ok (EmptyString, options_map)
  end.

(** The "李克特量表" block. *)
Definition likert_text (v : CodingVar) : string :=
  let range := " [量表: 1-" +:+ str_Z (likert_scale v) +:+ "]" in
  match likert_labels v with
  | EmptyString => range
  | labels =>
      match split_options labels with
      | [] => range
      | ls => " [量表: " +:+ join ", " ls +:+ "]"
      end
  end.

(** One iteration of [for var in variables] while the prompt is built. *)
Definition describe_variable (acc : string * gmap string (list string)) (v : CodingVar)
    : Result (string * gmap string (list string)) :=
  let '(variables_text, options_map) := acc in
  let variables_text :=
    variables_text +:+ var_name v +:+ " (" +:+ var_type v +:+ ")" in
  '(text, options_map) ←
    (if is_categorical (var_type v) then register_options v options_map
     else if bool_decide (var_type v = "李克特量表")
          then Ok (likert_text v, options_map)
          else Ok (EmptyString, options_map));
  let variables_text := variables_text +:+ text in
  let variables_text :=
    match guide v with
    | EmptyString => variables_text
    | g => variables_text +:+ nl +:+ "编码指南: " +:+ g
    end in
  Ok (variables_text +:+ nl +:+ nl, options_map).

Fixpoint describe_variables (acc : string * gmap string (list string))
    (variables : list CodingVar) : Result (string * gmap string (list string)) :=
  match variables with
  | [] => Ok acc
  | v :: r => acc' ← describe_variable acc v; describe_variables acc' r
  end.

Definition json_format_example : string :=
  "{" +:+ nl +:+
  "    " +:+ dq +:+ "变量名1" +:+ dq +:+ ": " +:+ dq +:+ "编码值1" +:+ dq +:+ "," +:+ nl +:+
  "    " +:+ dq +:+ "变量名2" +:+ dq +:+ ": " +:+ dq +:+ "编码值2" +:+ dq +:+ "," +:+ nl +:+
  "    ..." +:+ nl +:+
  "}".

(** The default prompt of [auto_code_content]. *)
Definition content_prompt (content variables_text : string) : string :=
  "请根据以下内容，为指定的变量进行编码。" +:+ nl +:+ nl +:+
  "内容:" +:+ nl +:+ content +:+ nl +:+ nl +:+
  "需要编码的变量:" +:+ nl +:+ variables_text +:+ nl +:+ nl +:+
  "请以JSON格式返回编码结果，格式为：" +:+ nl +:+
  json_format_example +:+ nl +:+ nl +:+
  "重要说明：" +:+ nl +:+
  "1. 对于分类变量，你必须且只能从提供的选项中选择一个，不要创建新的选项。" +:+ nl +:+
  "2. 对于李克特量表，请返回1到5之间的数值。" +:+ nl +:+
  "3. 请严格按照每个变量的编码指南进行编码。" +:+ nl +:+
  "4. 请确保编码结果符合变量的要求和内容特点。" +:+ nl.

(** The default prompt of [auto_code_video]. *)
Definition video_prompt (combined_description variables_text : string) : string :=
  "请根据以下视频描述，为指定的变量进行编码。" +:+ nl +:+ nl +:+
  "视频描述:" +:+ nl +:+ combined_description +:+ nl +:+ nl +:+
  "需要编码的变量:" +:+ nl +:+ variables_text +:+ nl +:+ nl +:+
  "请以JSON格式返回编码结果，格式为：" +:+ nl +:+
  json_format_example +:+ nl +:+ nl +:+
  "重要说明：" +:+ nl +:+
  "1. 对于分类变量，你必须且只能从提供的选项中选择一个，不要创建新的选项。" +:+ nl +:+
  "2. 对于李克特量表，请返回1到5之间的数值。" +:+ nl +:+
  "3. 请确保编码结果符合变量的要求和视频内容。" +:+ nl.

(** [if custom_prompt: ... else: ...]; [None] and [''] are both falsy. *)
Definition user_prompt (default : string → string → string)
    (custom_prompt : option string) (content variables_text : string) : string :=
  match custom_prompt with
  | None | Some EmptyString => default content variables_text
  | Some p =>
      replace "{variables}" variables_text (replace "{content}" content p)
  end.

Definition content_system : string :=
  "你是一位内容分析和编码专家，精通各种内容编码规则和方法。请严格按照变量定义和编码指南进行编码，对于分类变量，只能从提供的选项中选择一个值。".

Definition video_system : string :=
  "你是一位内容分析专家，擅长根据视频内容为变量赋值。请根据视频帧描述，为每个变量提供合适的编码值。对于分类变量，你必须且只能从提供的选项中选择一个，不要创建新的选项。".

Definition frame_question : string :=
  "请详细描述这个视频帧中的内容，包括场景、人物、活动和可能的主题。".

(** ** Validation of a candidate mapping against the coding scheme *)

(** [var_name in coding]: key membership for a dict, element equality
    for a list, substring for a string, a [TypeError] otherwise. *)
Definition py_in (key : string) (coding : JValue) : Result bool :=
  match coding with
  | JObj m => Ok (bool_decide (is_Some (m !! key)))
  | JArr l => Ok (existsb (λ x, match x with
                                | JStr s => bool_decide (s = key)
                                | _ => false
                                end) l)
  | JStr s => Ok (contains key s)
  | _ => Raise TypeError
  end.

(** [coding[var_name]] for a string key. *)
Definition py_getitem (coding : JValue) (key : string) : Result JValue :=
  match coding with
  | JObj m => match m !! key with
              | Some v => Ok v
              | None => Raise KeyError
              end
  | _ => Raise TypeError
  end.

(** [value in valid_options] for a list of strings. *)
Definition value_in (value : JValue) (valid_options : list string) : bool :=
  match value with
  | JStr s => bool_decide (s ∈ valid_options)
  | _ => false
  end.

Definition Qltb (a b : Q) : bool := negb (Qle_bool b a).

(** [len(set(option.lower()) & set(value.lower())) / max(len(option), len(value))] *)
Definition fuzzy_score (opt value : string) : Result Q :=
  let common := size (charset (lower opt) ∩ charset (lower value)) in
  let longest := Nat.max (len opt) (len value) in
  match longest with
  | O => Raise ZeroDivisionError
  | _ => Ok (inject_Z (Z.of_nat common) / inject_Z (Z.of_nat longest))%Q
  end.

(** The body of [for option in valid_options] up to the update of
    [best_match] and [best_score]. *)
Definition fuzzy_step (value : JValue) (best : option string * Q) (opt : string)
    : Result (option string * Q) :=
  match value with
  | JStr v =>
      if contains (lower opt) (lower v) || contains (lower v) (lower opt)
      then
        score ← fuzzy_score opt v;
        Ok (if Qltb (snd best) score then (Some opt, score) else best)
      else Ok best
  | _ => Raise AttributeError
  end.

(** [best_match and best_score > 0.5] *)
Definition accepted (best : option string * Q) : option string :=
  match fst best with
  | Some (String c r) => if Qltb (1 # 2) (snd best) then Some (String c r) else None
  | _ => None
  end.

(** [valid_options[0] if valid_options else ""] *)
Definition first_or_empty (valid_options : list string) : JValue :=
  match valid_options with
  | o :: _ => JStr o
  | [] => JStr EmptyString
  end.

Definition default_warning : string :=
  "变量 {var_name} 的值 '{value}' 不在有效选项中，使用默认值".

(** The [if best_match and best_score > 0.5: ... else: ...] statement. *)
Definition assign_match (name : string) (value : JValue) (valid_options : list string)
    (best : option string * Q) (valid_coding : gmap string JValue)
    : M (gmap string JValue) :=
  match accepted best with
  | Some best_match => mret (<[name := JStr best_match]> valid_coding)
  | None =>
      logging WARNING default_warning [AStr name; AVal value];;
      mret (<[name := first_or_empty valid_options]> valid_coding)
  end.

Fixpoint fuzzy_loop (value : JValue) (options : list string) (best : option string * Q)
    : Result (option string * Q) :=
  match options with
  | [] => Ok best
  | opt :: rest => best' ← fuzzy_step value best opt; fuzzy_loop value rest best'
  end.

(** The fuzzy repair as the first, third and fourth stage of
    [auto_code_content] and [auto_code_video] write it: the loop, then the
    assignment. *)
Definition fuzzy_repair (name : string) (value : JValue) (valid_options : list string)
    (valid_coding : gmap string JValue) : M (gmap string JValue) :=
  best ← lift (fuzzy_loop value valid_options (None, 0%Q));
  assign_match name value valid_options best valid_coding.

(** The fuzzy repair as the fenced-block stage writes it: the assignment
    is indented into the loop and runs once per option. *)
Fixpoint fuzzy_repair_fenced_loop (name : string) (value : JValue)
    (valid_options options : list string) (best : option string * Q)
    (valid_coding : gmap string JValue) : M (gmap string JValue) :=
  match options with
  | [] => mret valid_coding
  | opt :: rest =>
      best' ← lift (fuzzy_step value best opt);
      valid_coding' ← assign_match name value valid_options best' valid_coding;
      fuzzy_repair_fenced_loop name value valid_options rest best' valid_coding'
  end.

Definition fuzzy_repair_fenced (name : string) (value : JValue)
    (valid_options : list string) (valid_coding : gmap string JValue)
    : M (gmap string JValue) :=
  fuzzy_repair_fenced_loop name value valid_options valid_options (None, 0%Q) valid_coding.

(** One iteration of [for var in variables] in the validation block;
    [fenced] selects the variant of the second stage. *)
Definition validate_variable (fenced : bool) (options_map : gmap string (list string))
    (coding : JValue) (valid_coding : gmap string JValue) (v : CodingVar)
    : M (gmap string JValue) :=
  present ← lift (py_in (var_name v) coding);
  if present : bool then
    value ← lift (py_getitem coding (var_name v));
    match (if is_categorical (var_type v) then options_map !! var_name v else None) with
    | Some valid_options =>
        if value_in value valid_options
        then mret (<[var_name v := value]> valid_coding)
        else if fenced
             then fuzzy_repair_fenced (var_name v) value valid_options valid_coding
             else fuzzy_repair (var_name v) value valid_options valid_coding
    | None => mret (<[var_name v := value]> valid_coding)
    end
  else mret valid_coding.

Fixpoint validate_loop (fenced : bool) (options_map : gmap string (list string))
    (coding : JValue) (variables : list CodingVar) (valid_coding : gmap string JValue)
    : M (gmap string JValue) :=
  match variables with
  | [] => mret valid_coding
  | v :: rest =>
      valid_coding' ← validate_variable fenced options_map coding valid_coding v;
      validate_loop fenced options_map coding rest valid_coding'
  end.

(** The block "验证编码结果并确保分类变量的值在选项中". *)
Definition validate (fenced : bool) (variables : list CodingVar)
    (options_map : gmap string (list string)) (coding : JValue)
    : M (gmap string JValue) :=
  validate_loop fenced options_map coding variables ∅.

(** ** Line-by-line parsing *)

(** One iteration of [for line in coding_result.strip().split('\n')]. *)
Definition parse_line (coding_results : gmap string string) (line : string)
    : Result (gmap string string) :=
  if has_char "=" line then
    match split_once "=" line with
    | [name; value] => Ok (<[strip name := strip value]> coding_results)
    | _ => Raise ValueError
    end
  else Ok coding_results.

Fixpoint parse_lines_from (coding_results : gmap string string) (lines : list string)
    : Result (gmap string string) :=
  match lines with
  | [] => Ok coding_results
  | line :: rest => m ← parse_line coding_results line; parse_lines_from m rest
  end.

Definition parse_lines (coding_result : string) : Result (gmap string string) :=
  parse_lines_from ∅ (split "010" (strip coding_result)).

(** A dict of strings as a JSON object. *)
Definition as_object (coding_results : gmap string string) : JValue :=
  JObj (JStr <$> coding_results).

(** ** The remote client *)

(** The body of [get_siliconflow_client]: whether a client was built. *)
Definition get_siliconflow_client_body : M bool := λ w,
  match api_key w with
  | EmptyString => (logging WARNING "硅基流动API密钥未设置" [];; mret false) w
  | key =>
      match strip key with
      | EmptyString => (logging WARNING "硅基流动API密钥为空字符串" [];; mret false) w
      | _ =>
          (logging INFO "创建硅基流动客户端" [];;
           logging INFO "硅基流动客户端创建成功" [];;
           mret true) w
      end
  end.

(** [get_siliconflow_client] as the module exports it, decorated. *)
Definition get_siliconflow_client : M bool :=
  retry_with_backoff 3 2 2 "get_siliconflow_client" get_siliconflow_client_body.

(** ** [auto_code_content] *)

Section Coding.

(** [json.loads] on a [str]: the decoded value, or [None] for
    [JSONDecodeError].  The functions below are written for any such
    decoder; [Json.loads] is the one the examples run. *)
Variable json_loads : string → option JValue.

Definition loads_or_raise (s : string) : M JValue :=
  match json_loads s with
  | Some j => mret j
  | None => raise JSONDecodeError
  end.

(** The handler of the inner [except Exception]: the lines are parsed
    again and the function leaves through its final
    [return coding_results], without validation.  The dict
    [coding_results] is still empty when the handler starts: only the
    line stage fills it, and that stage does not raise
    ([extract_stage4]). *)
Definition unvalidated_lines (coding_result : string) (e : exn)
    : M (option (gmap string JValue)) :=
  logging ERROR "解析编码结果失败: {str(e)}" [AExn e];;
  coding_results ← lift (parse_lines coding_result);
  mret (Some (JStr <$> coding_results)).

(** [start_idx != -1 and end_idx != -1 and end_idx > start_idx] *)
Definition braces_found (start_idx end_idx : Z) : bool :=
  negb (start_idx =? -1) && negb (end_idx =? -1) && (start_idx <? end_idx).

(** What follows [except json.JSONDecodeError:]: the fenced block, the
    outermost braces, the lines. *)
Definition extract_fallback (variables : list CodingVar)
    (options_map : gmap string (list string)) (coding_result : string)
    : M (option (gmap string JValue)) :=
  try_except
    (match Re.search_fenced coding_result with
     | Some block =>
         coding_json ← loads_or_raise block;
         Some <$> validate true variables options_map coding_json
     | None =>
         let start_idx := find "{" coding_result in
         let end_idx := rfind "}" coding_result in
         if braces_found start_idx end_idx then
           coding_json ← loads_or_raise (slice start_idx (end_idx + 1) coding_result);
           Some <$> validate false variables options_map coding_json
         else
           coding_results ← lift (parse_lines coding_result);
           Some <$> validate false variables options_map (as_object coding_results)
     end)
    (unvalidated_lines coding_result).

(** The part of [auto_code_content] under "解析编码结果". *)
Definition extract (variables : list CodingVar)
    (options_map : gmap string (list string)) (coding_result : string)
    : M (option (gmap string JValue)) :=
  match json_loads coding_result with
  | Some coding_json => Some <$> validate false variables options_map coding_json
  | None => extract_fallback variables options_map coding_result
  end.

(** The text taken from the response; a [message] that is [None] has no
    [content] and is itself handed to [json.loads], a [TypeError]. *)
Definition response_text (response : Response) : M string :=
  match response with
  | RespContent content => mret content
  | RespNoMessage => raise TypeError
  | RespNoChoices repr => mret repr
  end.

(** The function under [def auto_code_content]: [None] or the coding
    dict. *)
Definition auto_code_content (content : string) (variables : list CodingVar)
    (custom_prompt : option string) : M (option (gmap string JValue)) :=
  try_except
    (client ← get_siliconflow_client;
     if negb client then
       logging ERROR "未设置硅基流动API密钥，无法进行自动编码" [];;
       mret None
     else
       '(variables_text, options_map) ←
         lift (describe_variables (EmptyString, ∅) variables);
       let prompt := user_prompt content_prompt custom_prompt content variables_text in
       response ← chat_completions_create
         (ChatText "deepseek-ai/DeepSeek-V2.5" content_system prompt (1 # 5) 1000);
       coding_result ← response_text response;
       extract variables options_map coding_result)
    (λ e, logging ERROR "自动编码失败: {str(e)}" [AExn e];; mret None).

(** [auto_code_content] as the module exports it, decorated. *)
Definition auto_code_content_decorated (content : string)
    (variables : list CodingVar) (custom_prompt : option string)
    : M (option (gmap string JValue)) :=
  retry_with_backoff 2 5 2 "auto_code_content"
    (auto_code_content content variables custom_prompt).

(** ** [auto_code_video] *)

(** A frame as OpenCV holds it: one that encodes to JPEG, given by the
    base64 text of the encoding, or one on which encoding raises. *)
Inductive Frame : Type :=
  | Image (jpeg_base64 : string)
  | Unencodable (e : exn).

Definition convert_image_to_base64 (image : Frame) : M string :=
  match image with
  | Image b => mret b
  | Unencodable e =>
      logging ERROR "图像转base64失败: {str(e)}" [AExn e];; mret EmptyString
  end.

(** [str(timedelta(seconds=n))] *)
Definition timedelta_str (n : Z) : Result string :=
  let days := n / 86400 in
  let seconds := n mod 86400 in
  if 999999999 <? Z.abs days then Raise OverflowError
  else
    let clock := str_Z (seconds / 3600) +:+ ":" +:+ str_Z_02 (seconds / 60 mod 60)
                 +:+ ":" +:+ str_Z_02 (seconds mod 60) in
    Ok (if days =? 0 then clock
        else str_Z days +:+ " day" +:+ (if Z.abs days =? 1 then "" else "s")
             +:+ ", " +:+ clock).

(** One iteration of [for i, (frame, timestamp) in enumerate(selected_frames)]. *)
Definition describe_frame (vision_model : string) (frame_descriptions : list string)
    (ft : Frame * Z) : M (list string) :=
  let '(frame, timestamp) := ft in
  frame_base64 ← convert_image_to_base64 frame;
  try_except
    (response ← chat_completions_create
       (ChatVision vision_model ("data:image/jpeg;base64," +:+ frame_base64)
          frame_question (1 # 5) 500);
     match response with
     | RespContent description =>
         time_str ← lift (timedelta_str timestamp);
         mret (frame_descriptions ++
               ["时间点: " +:+ time_str +:+ " (第" +:+ str_Z timestamp +:+ "秒)"
                +:+ nl +:+ "描述: " +:+ description])
     | RespNoMessage => raise AttributeError
     | RespNoChoices _ => mret frame_descriptions
     end)
    (λ e, logging ERROR "分析视频帧失败: {str(e)}" [AExn e];;
          mret frame_descriptions).

Fixpoint describe_frames (vision_model : string) (frame_descriptions : list string)
    (selected_frames : list (Frame * Z)) : M (list string) :=
  match selected_frames with
  | [] => mret frame_descriptions
  | ft :: rest =>
      ds ← describe_frame vision_model frame_descriptions ft;
      describe_frames vision_model ds rest
  end.

(** "从响应文本中提取JSON": the decoded value, or [None] when the
    function returns [None] from the handler. *)
Definition extract_json (coding_result : string) : M (option JValue) :=
  match json_loads coding_result with
  | Some coding_json => mret (Some coding_json)
  | None =>
      try_except
        (match Re.search_fenced coding_result with
         | Some block => Some <$> loads_or_raise block
         | None =>
             let start_idx := find "{" coding_result in
             let end_idx := rfind "}" coding_result in
             if braces_found start_idx end_idx
             then Some <$> loads_or_raise (slice start_idx (end_idx + 1) coding_result)
             else raise ValueError
         end)
        (λ e, logging ERROR "从响应提取JSON失败: {str(e)}" [AExn e];; mret None)
  end.

(** The statements of [auto_code_video] that follow the frame loop:
    the prompt, the call of the text model, extraction and validation. *)
Definition code_description (combined_description : string)
    (variables : list CodingVar) (custom_prompt : option string)
    (text_model : string) : M (option (gmap string JValue)) :=
  '(variables_text, options_map) ←
    lift (describe_variables (EmptyString, ∅) variables);
  let prompt := user_prompt video_prompt custom_prompt
                  combined_description variables_text in
  try_except
    (response ← chat_completions_create
       (ChatText text_model video_system prompt (3 # 10) 1000);
     match response with
     | RespContent coding_result =>
         extracted ← extract_json coding_result;
         match extracted with
         | Some coding_json =>
             Some <$> validate false variables options_map coding_json
         | None => mret None
         end
     | RespNoMessage => raise AttributeError
     | RespNoChoices _ =>
         logging ERROR "无法获取编码结果" [];; mret None
     end)
    (λ e, logging ERROR "生成编码建议失败: {str(e)}" [AExn e];; mret None).

Definition video_failed (e : exn) : M (option (gmap string JValue)) :=
  logging ERROR "自动编码视频失败: {str(e)}" [AExn e];; mret None.

(** The function under [def auto_code_video], from the point where
    [frames_with_timestamps] is known (the caller's list, or the one
    [extract_video_frames] returned); the progress widget of the page is
    absent from the session. *)
Definition auto_code_video (frames_with_timestamps : list (Frame * Z))
    (variables : list CodingVar) (custom_prompt : option string)
    (vision_model text_model : string) : M (option (gmap string JValue)) :=
  try_except
    (client ← get_siliconflow_client;
     if negb client then
       logging ERROR "未设置硅基流动API密钥，无法进行自动编码" [];;
       mret None
     else
       match frames_with_timestamps with
       | [] => logging ERROR "视频帧提取失败" [];; mret None
       | _ =>
           let max_frames := Nat.min (length frames_with_timestamps) 4 in
           let selected_frames := take max_frames frames_with_timestamps in
           frame_descriptions ← describe_frames vision_model [] selected_frames;
           let combined_description := join (nl +:+ nl) frame_descriptions in
           code_description combined_description variables custom_prompt text_model
       end)
    video_failed.

End Coding.

(** ** The agreement statistics *)

Section Agreement.

(** The values that coders assign: any type with a decidable equality
    that can key a dict. *)
Context `{Countable V}.

Definition Qnat (n : nat) : Q := inject_Z (Z.of_nat n).

(** [for var in observations[i].keys(): if var in observations[j]: ...]
    on the counters [(total_agreements, total_comparisons)]. *)
Definition compare_two (oi oj : gmap string V) (counters : nat * nat) : nat * nat :=
  foldl (λ '(total_agreements, total_comparisons) '(var, x),
           match oj !! var with
           | Some y =>
               (if decide (x = y) then S total_agreements else total_agreements,
                S total_comparisons)
           | None => (total_agreements, total_comparisons)
           end)
        counters (map_to_list oi).

(** [for j in range(i+1, len(observations))] *)
Definition compare_later (oi : gmap string V) (later : list (gmap string V))
    (counters : nat * nat) : nat * nat :=
  foldl (λ acc oj, compare_two oi oj acc) counters later.

(** [for i in range(len(observations))] *)
Fixpoint compare_all (observations : list (gmap string V)) (counters : nat * nat)
    : nat * nat :=
  match observations with
  | [] => counters
  | oi :: later => compare_all later (compare_later oi later counters)
  end.

Definition calculate_percentage_agreement (observations : list (gmap string V)) : Q :=
  if (length observations <? 2)%nat then 0%Q
  else
    let '(total_agreements, total_comparisons) := compare_all observations (O, O) in
    if (total_comparisons =? 0)%nat then 0%Q
    else (Qnat total_agreements / Qnat total_comparisons)%Q.

(** [[obs.get(var) for obs in observations if var in obs]] *)
Definition values_of (var : string) (observations : list (gmap string V)) : list V :=
  omap (λ obs : gmap string V, obs !! var) observations.

(** [for j in range(i+1, len(values))] on
    [(observed_disagreement, total_pairs)]. *)
Definition differ_later (x : V) (later : list V) (counters : nat * nat) : nat * nat :=
  foldl (λ '(observed_disagreement, total_pairs) y,
           (if decide (x = y) then observed_disagreement else S observed_disagreement,
            S total_pairs))
        counters later.

Fixpoint differ_all (values : list V) (counters : nat * nat) : nat * nat :=
  match values with
  | [] => counters
  | x :: later => differ_all later (differ_later x later counters)
  end.

(** The first [for var in variables] loop. *)
Definition observed_counts (variables : list string)
    (observations : list (gmap string V)) : nat * nat :=
  foldl (λ counters var,
           let values := values_of var observations in
           if (length values <? 2)%nat then counters
           else differ_all values counters)
        (O, O) variables.

(** "计算每个类别的概率": [(value_counts, total_values)]. *)
Definition count_values (var : string) (observations : list (gmap string V))
    : gmap V nat * nat :=
  foldl (λ '(value_counts, total_values) (obs : gmap string V),
           match obs !! var with
           | Some value =>
               (<[value := S (default O (value_counts !! value))]> value_counts,
                S total_values)
           | None => (value_counts, total_values)
           end)
        (∅, O) observations.

(** "计算期望不一致" for one variable. *)
Definition var_expected_disagreement (value_counts : gmap V nat) (total_values : nat) : Q :=
  foldl (λ acc1 '(val1, c1),
           foldl (λ acc2 '(val2, c2),
                    if decide (val1 = val2) then acc2
                    else (acc2 + (Qnat c1 / Qnat total_values)
                                 * (Qnat c2 / Qnat total_values))%Q)
                 acc1 (map_to_list value_counts))
        0%Q (map_to_list value_counts).

(** The second [for var in variables] loop: the sum before it is
    divided. *)
Definition expected_sum (categories : gmap string (list V))
    (observations : list (gmap string V)) : Q :=
  foldl (λ expected_disagreement '(var, cat_values),
           match cat_values with
           | [] => expected_disagreement
           | _ =>
               let '(value_counts, total_values) := count_values var observations in
               if (total_values <? 2)%nat then expected_disagreement
               else (expected_disagreement
                     + var_expected_disagreement value_counts total_values)%Q
           end)
        0%Q (map_to_list categories).

(** The value of [expected_disagreement] after
    [expected_disagreement /= len(variables)]. *)
Definition expected_disagreement (categories : gmap string (list V))
    (observations : list (gmap string V)) : Q :=
  (expected_sum categories observations / Qnat (size categories))%Q.

Definition calculate_krippendorff_alpha (observations : list (gmap string V))
    (categories : gmap string (list V)) : Q :=
  if (length observations <? 2)%nat then 0%Q
  else
    let variables := (map_to_list categories).*1 in
    let '(observed, total_pairs) := observed_counts variables observations in
    if (total_pairs =? 0)%nat then 0%Q
    else
      let observed_disagreement := (Qnat observed / Qnat total_pairs)%Q in
      let expected := expected_disagreement categories observations in
      if Qeq_bool expected 0 then 1%Q
      else (1 - observed_disagreement / expected)%Q.

End Agreement.

(** ** Reference formulations

    The definitions of this part follow the wording of the specification
    of the properties, not the code. *)

Section AgreementReference.
Context `{Countable V}.

(** Every unordered pair of the elements of a list, once. *)
Fixpoint unordered_pairs {X : Type} (l : list X) : list (X * X) :=
  match l with
  | [] => []
  | x :: later => (pair x <$> later) ++ unordered_pairs later
  end.

(** The variables present in both observations. *)
Definition shared_vars (oi oj : gmap string V) : gset string := dom oi ∩ dom oj.

(** The shared variables on which the two observations are equal. *)
Definition agreeing_vars (oi oj : gmap string V) : gset string :=
  filter (λ var, oi !! var = oj !! var) (shared_vars oi oj).

Definition comparisons_of (observations : list (gmap string V)) : nat :=
  sum_list ((λ p, size (shared_vars p.1 p.2)) <$> unordered_pairs observations).

Definition agreements_of (observations : list (gmap string V)) : nat :=
  sum_list ((λ p, size (agreeing_vars p.1 p.2)) <$> unordered_pairs observations).

(** All values that two coders give to a variable they share are
    identical. *)
Definition pairwise_identical (observations : list (gmap string V)) : Prop :=
  ∀ oi oj var x y,
    (oi, oj) ∈ unordered_pairs observations →
    oi !! var = Some x → oj !! var = Some y → x = y.

End AgreementReference.

Section AlphaReference.
Context `{Countable V}.

Definition Qsum (l : list Q) : Q := foldr Qplus 0%Q l.

(** How often [v] occurs among the observed values. *)
Definition occurrences (v : V) (values : list V) : nat :=
  length (filter (λ x, x = v) values).

(** [P(v)]: the observed frequency share of [v]. *)
Definition probability (v : V) (values : list V) : Q :=
  (Qnat (occurrences v values) / Qnat (length values))%Q.

(** The sum of [P(v1) * P(v2)] over the ordered pairs of distinct
    observed values. *)
Definition marginal_disagreement (values : list V) : Q :=
  Qsum ((λ v1,
           Qsum ((λ v2, if decide (v1 = v2) then 0%Q
                        else (probability v1 values * probability v2 values)%Q)
                 <$> remove_dups values))
        <$> remove_dups values).

(** The loop of the code that fills [value_counts], on the values
    alone. *)
Definition tally (values : list V) (value_counts : gmap V nat) : gmap V nat :=
  foldl (λ m v, <[v := S (default O (m !! v))]> m) value_counts values.

(** What the pair of dict entries [(val1, c1)], [(val2, c2)] adds to the
    code's sum for a variable with [n] values. *)
Definition pair_term (n : nat) (e1 e2 : V * nat) : Q :=
  if decide (e1.1 = e2.1) then 0%Q
  else ((Qnat e1.2 / Qnat n) * (Qnat e2.2 / Qnat n))%Q.

(** A variable with at least 2 observed values. *)
Definition well_observed (observations : list (gmap string V)) (var : string) : Prop :=
  (2 ≤ length (values_of var observations))%nat.

#[global] Instance well_observed_dec observations var :
  Decision (well_observed observations var).
Proof. unfold well_observed. apply _. Defined.

(** The expected disagreement as section 4.5 of the specification words
    it: the average of the
    per-variable values over the variables with at least 2 observed
    values. *)
Definition claimed_expected_disagreement (categories : gmap string (list V))
    (observations : list (gmap string V)) : Q :=
  let contributing :=
    filter (well_observed observations) (map_to_list categories).*1 in
  (Qsum ((λ var, marginal_disagreement (values_of var observations)) <$> contributing)
   / Qnat (length contributing))%Q.

(** What one variable adds to the sum that the code divides: nothing
    when its category list is empty or it has fewer than 2 observed
    values. *)
Definition contribution (observations : list (gmap string V))
    (entry : string * list V) : Q :=
  match entry.2 with
  | [] => 0%Q
  | _ => if decide (well_observed observations entry.1)
         then marginal_disagreement (values_of entry.1 observations)
         else 0%Q
  end.

(** All the values observed for a variable of [categories] are
    identical. *)
Definition unanimous (categories : gmap string (list V))
    (observations : list (gmap string V)) : Prop :=
  ∀ var x y, var ∈ dom categories →
    x ∈ values_of var observations → y ∈ values_of var observations → x = y.

(** Python's [a / b]: [None] stands for [ZeroDivisionError]. *)
Definition checked_div (a b : Q) : option Q :=
  if Qeq_bool b 0 then None else Some (a / b)%Q.

(** The coefficient as the specification words it: 0 with fewer than 2
    observations, 1 when pairs exist and the expected disagreement is 0,
    and [1 - observed_disagreement / expected_disagreement] otherwise. *)
Definition alpha_as_claimed (observations : list (gmap string V))
    (categories : gmap string (list V)) : option Q :=
  if (length observations <? 2)%nat then Some 0%Q
  else
    let '(observed, total_pairs) :=
      observed_counts (map_to_list categories).*1 observations in
    let expected := expected_disagreement categories observations in
    if (0 <? total_pairs)%nat && Qeq_bool expected 0 then Some 1%Q
    else
      observed_disagreement ← checked_div (Qnat observed) (Qnat total_pairs);
      ratio ← checked_div observed_disagreement expected;
      Some (1 - ratio)%Q.

End AlphaReference.

Section RepairReference.

(** An option is eligible when, in lower case, it contains the value or
    the value contains it. *)
Definition eligible (opt value : string) : bool :=
  contains (lower opt) (lower value) || contains (lower value) (lower opt).

(** The size of the intersection of the two lower-case character sets
    over the larger of the two lengths. *)
Definition similarity (opt value : string) : Q :=
  (inject_Z (Z.of_nat (size (charset (lower opt) ∩ charset (lower value))))
   / inject_Z (Z.of_nat (Nat.max (len opt) (len value))))%Q.

(** The eligible option with the highest score, the first one among
    those that reach it. *)
Fixpoint best_eligible (value : string) (options : list string) : option string :=
  match options with
  | [] => None
  | o :: rest =>
      if eligible o value then
        match best_eligible value rest with
        | Some o' =>
            if Qltb (similarity o value) (similarity o' value) then Some o' else Some o
        | None => Some o
        end
      else best_eligible value rest
  end.

(** [o] is an eligible option of maximal score, and the options before
    it score strictly less. *)
Definition first_best (value : string) (options : list string) (o : string) : Prop :=
  ∃ i : nat,
    options !! i = Some o ∧ eligible o value = true
    ∧ (∀ (j : nat) o', options !! j = Some o' → eligible o' value = true →
         (similarity o' value <= similarity o value)%Q)
    ∧ (∀ (j : nat) o', (j < i)%nat → options !! j = Some o' → eligible o' value = true →
         (similarity o' value < similarity o value)%Q).

(** The repaired option: the winner when its score exceeds 0.5, the
    first declared option otherwise. *)
Definition chosen_option (value : string) (options : list string) : string :=
  match best_eligible value options with
  | Some o => if Qltb (1 # 2) (similarity o value) then o else hd EmptyString options
  | None => hd EmptyString options
  end.

End RepairReference.

Section CodingReference.

(** The session holds an API key that is not blank. *)
Definition usable_key (w : World) : Prop := strip (api_key w) ≠ EmptyString.

(** What a successful [get_siliconflow_client] leaves in the trace. *)
Definition client_events : list Event :=
  [Invoke "get_siliconflow_client";
   Log INFO "创建硅基流动客户端" [];
   Log INFO "硅基流动客户端创建成功" []].

(** The request that [auto_code_content] sends. *)
Definition content_request (content : string) (custom_prompt : option string)
    (variables_text : string) : Request :=
  ChatText "deepseek-ai/DeepSeek-V2.5" content_system
    (user_prompt content_prompt custom_prompt content variables_text) (1 # 5) 1000.

(** The request that [auto_code_video] sends to the text model. *)
Definition video_request (text_model combined_description : string)
    (custom_prompt : option string) (variables_text : string) : Request :=
  ChatText text_model video_system
    (user_prompt video_prompt custom_prompt combined_description variables_text)
    (3 # 10) 1000.

(** A JSON value that is neither a string nor a container. *)
Definition is_atom (j : JValue) : bool :=
  match j with
  | JNull | JBool _ | JInt _ | JFloat _ => true
  | _ => false
  end.

End CodingReference.

Section VideoReference.

Definition encoding_events (frame : Frame) : list Event :=
  match frame with
  | Image _ => []
  | Unencodable e => [Log ERROR "图像转base64失败: {str(e)}" [AExn e]]
  end.

Definition frame_base64 (frame : Frame) : string :=
  match frame with
  | Image b => b
  | Unencodable _ => EmptyString
  end.

(** The request that [auto_code_video] sends to the vision model. *)
Definition vision_request (vision_model : string) (frame : Frame) : Request :=
  ChatVision vision_model ("data:image/jpeg;base64," +:+ frame_base64 frame)
    frame_question (1 # 5) 500.

(** The world after a frame whose vision call raised [e]: the call and
    the record of its failure. *)
Definition failed_frame (vision_model : string) (frame : Frame) (e : exn)
    (w : World) : World :=
  push [Log ERROR "分析视频帧失败: {str(e)}" [AExn e]]
    (called (vision_request vision_model frame) (push (encoding_events frame) w)).

(** The world after a run of frames whose vision calls all raise. *)
Fixpoint after_failed_frames (vision_model : string) (frames : list (Frame * Z))
    (w : World) : World :=
  match frames with
  | [] => w
  | (frame, _) :: rest =>
      match service w (calls w) with
      | Fails e =>
          after_failed_frames vision_model rest (failed_frame vision_model frame e w)
      | Returns _ => w
      end
  end.

End VideoReference.

(** ** Concrete inputs *)

Section Scenarios.

(** The reply of Scenario D and the block inside its fence. *)
Definition scenario_D_block : string :=
  "{" +:+ dq +:+ "topic" +:+ dq +:+ ":" +:+ dq +:+ "tech" +:+ dq +:+ "}".

Definition scenario_D : string :=
  "Here is the result:" +:+ nl +:+ "```json" +:+ nl +:+ scenario_D_block +:+ nl
  +:+ "```" +:+ nl +:+ "Thanks".

(** The object that the block of Scenario D denotes. *)
Definition topic_tech : gmap string JValue := {[ "topic" := JStr "tech" ]}.

(** The variable and the content of Scenario A. *)
Definition sentiment : CodingVar :=
  mkVar "sentiment" "select"
    (OptionsList [OptText "positive"; OptText "neutral"; OptText "negative"])
    5 EmptyString EmptyString.

Definition scenario_A_content : string := "The product launch exceeded expectations".

(** The reply of Scenario A: the JSON string, quotes included. *)
Definition bare_positive : string := dq +:+ "positive" +:+ dq.

(** A free-text variable. *)
Definition topic : CodingVar :=
  mkVar "topic" "文本" OptionsAbsent 5 EmptyString EmptyString.

(** A categorical variable whose options string holds separators
    only. *)
Definition stance : CodingVar :=
  mkVar "stance" "select" (OptionsStr ", ,") 5 EmptyString EmptyString.

(** A reply with braces that are not JSON, followed by a key=value
    line. *)
Definition braces_then_line : string := "{oops}" +:+ nl +:+ "sentiment=great".

(** A direct and a fenced reply for [stance]. *)
Definition stance_object : string :=
  "{" +:+ dq +:+ "stance" +:+ dq +:+ ": " +:+ dq +:+ "agree" +:+ dq +:+ "}".

Definition stance_fenced : string :=
  "```json" +:+ nl +:+ stance_object +:+ nl +:+ "```".

(** A session with a key whose service gives the same reply to every
    call. *)
Definition replying (reply : string) : World :=
  mkWorld "sk-test" (λ _, Returns (RespContent reply)) O [].

(** A service that is down. *)
Definition unreachable : World :=
  mkWorld "sk-test" (λ _, Fails (ServiceError "connection refused")) O [].

(** A service whose first call fails and whose later calls reply. *)
Definition flaky (reply : string) : World :=
  mkWorld "sk-test"
    (λ n, match n with
          | O => Fails (ServiceError "timed out")
          | S _ => Returns (RespContent reply)
          end) O [].

(** One call of the text model, as an operation to retry. *)
Definition ask : M Response :=
  chat_completions_create (ChatText "deepseek-ai/DeepSeek-V2.5" "s" "u" (1 # 5) 10).

(** Observations of one variable by coders who agree, and by two who
    do not. *)
Definition agreeing_coders (n : nat) : list (gmap string string) :=
  replicate n {[ "tone" := "A" ]}.

Definition split_coders : list (gmap string string) :=
  [ {[ "tone" := "A" ]}; {[ "tone" := "B" ]} ].

(** Two observations that share no variable. *)
Definition disjoint_coders : list (gmap string string) := [∅; ∅].

Definition tone_only : gmap string (list string) := {[ "tone" := ["A"; "B"] ]}.

(** Categories with a variable that nobody coded. *)
Definition tone_and_unused : gmap string (list string) :=
  <[ "unused" := ["C"] ]> tone_only.

End Scenarios.

(** ** Reference formulations for the further properties *)

Section MoreReference.

(** What the [if best_match and best_score > 0.5: ... else: ...]
    statement stores for the pair [best]. *)
Definition repaired (valid_options : list string) (best : option string * Q) : JValue :=
  match accepted best with
  | Some best_match => JStr best_match
  | None => first_or_empty valid_options
  end.

(** What one iteration of the validation block leaves in [valid_coding],
    or the exception it raises; [fenced] is the copy whose assignment
    sits inside the loop over the options. *)
Definition stored_for (fenced : bool) (options_map : gmap string (list string))
    (coding : JValue) (valid_coding : gmap string JValue) (v : CodingVar)
    : Result (gmap string JValue) :=
  match py_in (var_name v) coding with
  | Raise e => Raise e
  | Ok false => Ok valid_coding
  | Ok true =>
      match py_getitem coding (var_name v) with
      | Raise e => Raise e
      | Ok value =>
          match (if is_categorical (var_type v)
                 then options_map !! var_name v else None) with
          | None => Ok (<[var_name v := value]> valid_coding)
          | Some valid_options =>
              if value_in value valid_options
              then Ok (<[var_name v := value]> valid_coding)
              else match valid_options with
                   | [] =>
                       if fenced then Ok valid_coding
                       else Ok (<[var_name v := JStr EmptyString]> valid_coding)
                   | _ =>
                       match fuzzy_loop value valid_options (None, 0%Q) with
                       | Ok best =>
                           Ok (<[var_name v := repaired valid_options best]>
                                 valid_coding)
                       | Raise e => Raise e
                       end
                   end
          end
      end
  end.

Fixpoint stored (fenced : bool) (options_map : gmap string (list string))
    (coding : JValue) (variables : list CodingVar) (valid_coding : gmap string JValue)
    : Result (gmap string JValue) :=
  match variables with
  | [] => Ok valid_coding
  | v :: rest =>
      match stored_for fenced options_map coding valid_coding v with
      | Ok valid_coding' => stored fenced options_map coding rest valid_coding'
      | Raise e => Raise e
      end
  end.

(** The waits, the runs of decorated functions and the requests that a
    sequence of events holds. *)
Definition slept (events : list Event) : list Z :=
  omap (λ ev, match ev with Sleep seconds => Some seconds | _ => None end) events.

Definition invocations (events : list Event) : nat :=
  length (omap (λ ev, match ev with Invoke _ => Some () | _ => None end) events).

(** A computation that calls [client.chat.completions.create] at most
    [n] times, whatever the service answers. *)
Definition makes_at_most {A} (n : nat) (m : M A) : Prop :=
  ∀ w, (calls w ≤ calls (m w).2 ≤ calls w + n)%nat.

(** A computation that does not call the service: it only appends
    events. *)
Definition offline {A} (m : M A) : Prop :=
  ∀ w, ∃ r events, m w = (r, push events w).

End MoreReference.

(** [auto_code_video] as the module exports it, decorated. *)
Definition auto_code_video_decorated (json_loads : string → option JValue)
    (frames_with_timestamps : list (Frame * Z))
    (variables : list CodingVar) (custom_prompt : option string)
    (vision_model text_model : string) : M (option (gmap string JValue)) :=
  retry_with_backoff 2 5 2 "auto_code_video"
    (auto_code_video json_loads frames_with_timestamps variables custom_prompt
       vision_model text_model).

Section CountReference.
Context `{Countable V}.

(** What a pair of values adds to [observed_disagreement]. *)
Definition differing (p : V * V) : nat := if decide (p.1 = p.2) then O else 1%nat.

End CountReference.

Section OptionReference.

(** An option as the prompt lists it: not empty, without a comma and
    without blanks around it. *)
Definition clean_option (o : string) : Prop :=
  o ≠ EmptyString ∧ PyStr.has_char "," o = false ∧ PyStr.strip o = o.


End OptionReference.

(** ** [SiliconFlowClient.CompletionsObject.create]: the requests *)

(** What [urllib.request.urlopen] does with the request, for a call
    without [stream]: the response has a body that is read and decoded
    as UTF-8, or an [HTTPError] is raised whose body can be read, or
    another exception is raised. *)
Inductive HttpOutcome : Type :=
  | HttpBody (body : string)
  | HttpError (code : Z) (reason response_body : string)
  | HttpFails (e : exn).

Record Net : Type := mkNet {
  urlopen : nat → HttpOutcome;   (* the outcome of the n-th request *)
  opened : nat;                  (* requests sent so far *)
  net_trace : list Event         (* log records and sleeps so far *)
}.

Definition sent (net : Net) : Net :=
  mkNet (urlopen net) (S (opened net)) (net_trace net).

Definition noted (events : list Event) (net : Net) : Net :=
  mkNet (urlopen net) (opened net) (net_trace net ++ events).

(** [list(range(n))] *)
Definition range (n : Z) : list Z := Z.of_nat <$> seq 0 (Z.to_nat n).

Section Create.

(** [self._create_response_object(json.loads(body))], which may raise. *)
Variable decode : string → Result Response.

(** [Exception(f"HTTP Error {e.code}: {e.reason} - {response_body}")] *)
Definition http_exception (code : Z) (reason response_body : string) : exn :=
  ServiceError ("HTTP Error " +:+ str_Z code +:+ ": " +:+ reason +:+ " - "
                +:+ response_body).

(** [for retry in range(max_retries)] with its two handlers;
    [Ok None] is the end of the loop without a [return]. *)
Fixpoint request_loop (max_retries : Z) (retries : list Z) (retry_delay : Z)
    (net : Net) : Result (option Response) * Net :=
  match retries with
  | [] => (Ok None, net)
  | retry :: later =>
      let outcome := urlopen net (opened net) in
      let net := sent net in
      let other (e : exn) :=
        if retry <? max_retries - 1 then
          request_loop max_retries later (retry_delay * 2)
            (noted [Log WARNING "API请求失败，将在{retry_delay}秒后重试: {str(e)}"
                      [AInt retry_delay; AExn e];
                    Sleep retry_delay] net)
        else (Raise e, net) in
      match outcome with
      | HttpBody body =>
          match decode body with
          | Ok response => (Ok (Some response), net)
          | Raise e => other e
          end
      | HttpError code reason response_body =>
          let net := noted [Log ERROR "HTTP错误 {e.code}: {response_body}"
                              [AInt code; AStr response_body]] net in
          if retry <? max_retries - 1 then
            request_loop max_retries later (retry_delay * 2)
              (noted [Log WARNING
                        "API请求失败，将在{retry_delay}秒后重试: HTTP Error {e.code}: {e.reason}"
                        [AInt retry_delay; AInt code; AStr reason];
                      Sleep retry_delay] net)
          else (Raise (http_exception code reason response_body), net)
      | HttpFails e => other e
      end
  end.

(** The [try] block of [create] under "重试逻辑", with the handler that
    logs and raises again. *)
Definition create_requests (net : Net) : Result (option Response) * Net :=
  let max_retries := 3 in
  let retry_delay := 1 in
  match request_loop max_retries (range max_retries) retry_delay net with
  | (Raise e, net') =>
      (Raise e, noted [Log ERROR "硅基流动API请求失败: {str(e)}" [AExn e]] net')
  | returned => returned
  end.

(** What one request amounts to: the response object, or the exception
    that leaves the loop if the request is the last one. *)
Definition answer (outcome : HttpOutcome) : Result Response :=
  match outcome with
  | HttpBody body => decode body
  | HttpError code reason response_body =>
      Raise (http_exception code reason response_body)
  | HttpFails e => Raise e
  end.

End Create.

(** ** [extract_video_frames] *)

(** [int(x)] for a float: truncation towards zero. *)
Definition py_int (x : Q) : Z := if Qle_bool 0 x then Qfloor x else Qceiling x.

(** [list(range(start, stop, step))] *)
Definition py_range (start stop step : Z) : Result (list Z) :=
  if step =? 0 then Raise ValueError
  else
    let n := if 0 <? step then (stop - start + step - 1) / step
             else (start - stop - step - 1) / (- step) in
    Ok ((λ k : nat, start + Z.of_nat k * step) <$> seq 0 (Z.to_nat n)).

(** A [VideoFileClip]: its duration in seconds, the frame at a time
    point after [cv2.cvtColor] (or the exception that either raises),
    and what [close] does. *)
Record Clip : Type := mkClip {
  duration : Q;
  get_frame : Z → Result Frame;
  close : Result unit
}.

(** [for t in timestamps] *)
Fixpoint grab_frames (clip : Clip) (frames_with_timestamps : list (Frame * Z))
    (timestamps : list Z) : M (list (Frame * Z)) :=
  match timestamps with
  | [] => mret frames_with_timestamps
  | t :: later =>
      frames ← try_except
        (frame_bgr ← lift (get_frame clip t);
         mret (frames_with_timestamps ++ [(frame_bgr, t)]))
        (λ e, logging ERROR "无法提取时间点 {t}秒 的帧: {str(e)}" [AInt t; AExn e];;
              mret frames_with_timestamps);
      grab_frames clip frames later
  end.

(** [extract_video_frames] for an [int] interval; [video] is what
    [VideoFileClip(video_path)] returns or raises. *)
Definition extract_video_frames (moviepy_available : bool) (video : Result Clip)
    (interval : Z) : M (list (Frame * Z)) :=
  if negb moviepy_available then
    logging ERROR "未安装MoviePy库，无法提取视频帧" [];; mret []
  else
    try_except
      (clip ← lift video;
       timestamps ← lift (py_range 0 (py_int (duration clip)) interval);
       let timestamps := match timestamps with [] => [0] | _ => timestamps end in
       frames_with_timestamps ← grab_frames clip [] timestamps;
       lift (close clip);;
       mret frames_with_timestamps)
      (λ e, logging ERROR "视频帧提取失败: {str(e)}" [AExn e];; mret []).

(** The time points that are sampled from a clip of [seconds] whole
    seconds every [interval] seconds. *)
Definition sample_times (seconds interval : Z) : list Z :=
  if (0 <? interval) && (0 <? seconds)
  then (λ k : nat, Z.of_nat k * interval)
         <$> seq 0 (Z.to_nat ((seconds + interval - 1) / interval))
  else [0].

(** ** Further scenarios *)

Section MoreScenarios.

(** The options registered for [sentiment]. *)
Definition sentiment_options : gmap string (list string) :=
  {[ "sentiment" := ["positive"; "neutral"; "negative"] ]}.

(** A candidate mapping that codes [sentiment] with a capital letter and
    says nothing about [topic], and what the validation makes of it. *)
Definition capital_positive : JValue := JObj {[ "sentiment" := JStr "Positive" ]}.

Definition coded_positive : gmap string JValue := {[ "sentiment" := JStr "positive" ]}.

(** A session without a key. *)
Definition keyless : World :=
  mkWorld EmptyString (λ _, Returns (RespContent "unused")) O [].

(** The two coders of [split_coders] and a third one, in two orders. *)
Definition three_coders : list (gmap string string) :=
  [ {[ "tone" := "A" ]}; {[ "tone" := "B" ]}; {[ "tone" := "A" ]} ].

Definition three_coders_swapped : list (gmap string string) :=
  [ {[ "tone" := "B" ]}; {[ "tone" := "A" ]}; {[ "tone" := "A" ]} ].

(** A decoder that takes any non-empty body for the content of the
    reply. *)
Definition plain_decode (body : string) : Result Response :=
  match body with
  | EmptyString => Raise JSONDecodeError
  | _ => Ok (RespContent body)
  end.

(** A server that is unavailable once and then answers. *)
Definition recovering : Net :=
  mkNet (λ n, match n with
              | O => HttpError 503 "Service Unavailable" "busy"
              | S _ => HttpBody "ok"
              end) O [].

(** A clip of 95.5 seconds whose frame at second 30 cannot be read. *)
Definition short_clip : Clip :=
  mkClip (191 # 2)
    (λ t, if t =? 30 then Raise ValueError else Ok (Image "QUJD"))
    (Ok ()).


End MoreScenarios.

(** * Properties *)

(** ** Running the monad *)

Lemma push_push (l1 l2 : list Event) (w : World) :
  push l2 (push l1 w) = push (l1 ++ l2) w.
Proof. unfold push; simpl. by rewrite <- app_assoc. Qed.

Lemma push_nil (w : World) : push [] w = w.
Proof. destruct w; unfold push; simpl. by rewrite app_nil_r. Qed.

Lemma bind_ok {A B} (m : M A) (f : A → M B) (w w' : World) (a : A) :
  m w = (Ok a, w') → (m ≫= f) w = f a w'.
Proof. intros Hm. unfold mbind, M_bind. by rewrite Hm. Qed.

Lemma bind_raise {A B} (m : M A) (f : A → M B) (w w' : World) (e : exn) :
  m w = (Raise e, w') → (m ≫= f) w = (Raise e, w').
Proof. intros Hm. unfold mbind, M_bind. by rewrite Hm. Qed.

Lemma try_ok {A} (m : M A) (h : exn → M A) (w w' : World) (a : A) :
  m w = (Ok a, w') → try_except m h w = (Ok a, w').
Proof. intros Hm. unfold try_except. by rewrite Hm. Qed.

Lemma try_raise {A} (m : M A) (h : exn → M A) (w w' : World) (e : exn) :
  m w = (Raise e, w') → try_except m h w = h e w'.
Proof. intros Hm. unfold try_except. by rewrite Hm. Qed.

Lemma fmap_ok {A B} (g : A → B) (m : M A) (w w' : World) (a : A) :
  m w = (Ok a, w') → (g <$> m) w = (Ok (g a), w').
Proof. intros Hm. unfold fmap, M_fmap. by rewrite Hm. Qed.

Lemma fmap_raise {A B} (g : A → B) (m : M A) (w w' : World) (e : exn) :
  m w = (Raise e, w') → (g <$> m) w = (Raise e, w').
Proof. intros Hm. unfold fmap, M_fmap. by rewrite Hm. Qed.

(** ** The retry decorator *)

Section RetryFacts.
Context {A : Type}.
Variables (initial_backoff backoff_factor : Z) (name : string) (func : M A).

(** One failed attempt that is not the last: the record of the failure,
    the wait, and the next iteration. *)
Lemma retry_loop_failure (max_retries : Z) (fuel : nat) (retries : Z)
    (last : option exn) (w w1 : World) (e : exn) :
  retries + 1 < max_retries →
  func (push [Invoke name] w) = (Raise e, w1) →
  retry_loop max_retries backoff_factor name func (S fuel) initial_backoff retries last w
  = retry_loop max_retries backoff_factor name func fuel initial_backoff (retries + 1) (Some e)
      (push [attempt_failed name (retries + 1) max_retries e;
             waiting (initial_backoff * backoff_factor ^ retries);
             Sleep (initial_backoff * backoff_factor ^ retries)] w1).
Proof.
  intros Hlt Hf. simpl.
  assert ((retries <? max_retries) = true) as -> by lia.
  unfold mbind at 1, M_bind at 1. unfold emit at 1.
  rewrite (try_raise _ _ _ _ _ Hf).
  unfold mbind, M_bind, emit, sleep; simpl.
  assert ((retries + 1 <? max_retries) = true) as -> by lia.
  simpl. rewrite !push_push. simpl.
  by replace (retries + 1 - 1) with retries by lia.
Qed.

(** The last failed attempt. *)
Lemma retry_loop_last_failure (max_retries : Z) (fuel : nat) (retries : Z)
    (last : option exn) (w w1 : World) (e : exn) :
  retries + 1 = max_retries →
  func (push [Invoke name] w) = (Raise e, w1) →
  retry_loop max_retries backoff_factor name func (S fuel) initial_backoff retries last w
  = (Raise e, push [attempt_failed name max_retries max_retries e;
                    gave_up name max_retries] w1).
Proof.
  intros Heq Hf. simpl.
  assert ((retries <? max_retries) = true) as -> by lia.
  unfold mbind at 1, M_bind at 1. unfold emit at 1.
  rewrite (try_raise _ _ _ _ _ Hf).
  unfold mbind, M_bind, emit; simpl.
  assert ((retries + 1 <? max_retries) = false) as -> by lia.
  simpl. rewrite !push_push. simpl.
  rewrite Heq.
  destruct fuel; simpl; assert ((max_retries <? max_retries) = false) as -> by lia;
    reflexivity.
Qed.

(** A successful attempt ends the loop. *)
Lemma retry_loop_success (max_retries : Z) (fuel : nat) (retries : Z)
    (last : option exn) (w w1 : World) (a : A) :
  retries < max_retries →
  func (push [Invoke name] w) = (Ok a, w1) →
  retry_loop max_retries backoff_factor name func (S fuel) initial_backoff retries last w
  = (Ok a, w1).
Proof.
  intros Hlt Hf. simpl.
  assert ((retries <? max_retries) = true) as -> by lia.
  unfold mbind at 1, M_bind at 1. unfold emit at 1.
  by rewrite (try_ok _ _ _ _ _ Hf).
Qed.

End RetryFacts.

(** C5. With [max_retries = 3] an operation that fails whenever it is
    run is run exactly three times: the second run starts after a sleep
    of [initial_backoff * backoff_factor ^ 0] seconds, the third after
    [initial_backoff * backoff_factor ^ 1], no sleep follows the third,
    and the failure of the third run is raised.  An operation whose first
    run fails and whose second run succeeds is run exactly twice, one
    sleep of [initial_backoff * backoff_factor ^ 0] in between, and the
    value of the second run is returned. *)
Theorem retry_with_backoff_attempts {A : Type} (func : M A)
    (initial_backoff backoff_factor : Z) (name : string) (w : World) :
  ((∀ w0, ∃ e w', func w0 = (Raise e, w')) →
   ∃ e1 w1 e2 w2 e3 w3,
     func (push [Invoke name] w) = (Raise e1, w1)
     ∧ func (push [attempt_failed name 1 3 e1;
                   waiting (initial_backoff * backoff_factor ^ 0);
                   Sleep (initial_backoff * backoff_factor ^ 0);
                   Invoke name] w1) = (Raise e2, w2)
     ∧ func (push [attempt_failed name 2 3 e2;
                   waiting (initial_backoff * backoff_factor ^ 1);
                   Sleep (initial_backoff * backoff_factor ^ 1);
                   Invoke name] w2) = (Raise e3, w3)
     ∧ retry_with_backoff 3 initial_backoff backoff_factor name func w
       = (Raise e3, push [attempt_failed name 3 3 e3; gave_up name 3] w3))
  ∧ (∀ max_retries e1 w1 a w2,
       2 ≤ max_retries →
       func (push [Invoke name] w) = (Raise e1, w1) →
       func (push [attempt_failed name 1 max_retries e1;
                   waiting (initial_backoff * backoff_factor ^ 0);
                   Sleep (initial_backoff * backoff_factor ^ 0);
                   Invoke name] w1) = (Ok a, w2) →
       retry_with_backoff max_retries initial_backoff backoff_factor name func w
       = (Ok a, w2)).
Proof.
  split.
  - intros Hfail.
    destruct (Hfail (push [Invoke name] w)) as (e1 & w1 & H1).
    destruct (Hfail (push [attempt_failed name 1 3 e1;
                           waiting (initial_backoff * backoff_factor ^ 0);
                           Sleep (initial_backoff * backoff_factor ^ 0);
                           Invoke name] w1)) as (e2 & w2 & H2).
    destruct (Hfail (push [attempt_failed name 2 3 e2;
                           waiting (initial_backoff * backoff_factor ^ 1);
                           Sleep (initial_backoff * backoff_factor ^ 1);
                           Invoke name] w2)) as (e3 & w3 & H3).
    exists e1, w1, e2, w2, e3, w3. repeat split; try assumption.
    unfold retry_with_backoff. change (Z.to_nat 3) with 3%nat.
    rewrite (retry_loop_failure _ _ _ _ 3 2 0 None w w1 e1) by (lia || done).
    rewrite (retry_loop_failure _ _ _ _ 3 1 (0 + 1) _ _ w2 e2)
      by (lia || by rewrite push_push).
    by rewrite (retry_loop_last_failure _ _ _ _ 3 0 (0 + 1 + 1) _ _ w3 e3)
      by (lia || by rewrite push_push).
  - intros max_retries e1 w1 a w2 Hmax H1 H2.
    unfold retry_with_backoff.
    destruct (Z.to_nat max_retries) as [|[|fuel]] eqn:Hfuel; try lia.
    rewrite (retry_loop_failure _ _ _ _ max_retries _ 0 None w w1 e1) by (lia || done).
    by rewrite (retry_loop_success _ _ _ _ max_retries _ (0 + 1) _ _ w2 a)
      by (lia || by rewrite push_push).
Qed.

(** ** Percentage agreement *)

Section AgreementFacts.
Context `{Countable V}.
Implicit Types (oi oj : gmap string V) (observations : list (gmap string V)).

Lemma compare_two_filter oj (l : list (string * V)) (a c : nat) :
  foldl (λ '(total_agreements, total_comparisons) '(var, x),
           match oj !! var with
           | Some y =>
               (if decide (x = y) then S total_agreements else total_agreements,
                S total_comparisons)
           | None => (total_agreements, total_comparisons)
           end)
        (a, c) l
  = (a + length (filter (λ kv, oj !! kv.1 = Some kv.2) l),
     c + length (filter (λ kv, is_Some (oj !! kv.1)) l))%nat.
Proof.
  revert a c. induction l as [|[var x] l IH]; intros a c; simpl.
  { f_equal; lia. }
  rewrite !filter_cons; simpl.
  destruct (oj !! var) as [y|] eqn:Hy; rewrite IH;
    repeat case_decide; simplify_eq; simpl;
    try (f_equal; lia); exfalso; eauto.
Qed.

(** The keys that a filter keeps are as many as the set they form. *)
Lemma filtered_keys_size oi (P : string * V → Prop) `{!∀ kv, Decision (P kv)}
    (X : gset string) :
  (∀ var, var ∈ X ↔ ∃ x, oi !! var = Some x ∧ P (var, x)) →
  length (filter P (map_to_list oi)) = size X.
Proof.
  intros HX. unfold size, set_size; simpl.
  rewrite <- (length_fmap fst (filter P (map_to_list oi))).
  apply Permutation_length, NoDup_Permutation.
  - eapply sublist_NoDup; [apply (NoDup_fst_map_to_list oi)|].
    apply fmap_sublist, sublist_filter.
  - apply NoDup_elements.
  - intros var. rewrite elem_of_elements, HX, list_elem_of_fmap. split.
    + intros ([k x] & -> & Hin). apply list_elem_of_filter in Hin as [HP Hin].
      apply elem_of_map_to_list in Hin. eauto.
    + intros (x & Hx & HP). exists (var, x). split; [done|].
      apply list_elem_of_filter. split; [done|]. by apply elem_of_map_to_list.
Qed.

Lemma compare_two_spec oi oj (a c : nat) :
  compare_two oi oj (a, c)
  = (a + size (agreeing_vars oi oj), c + size (shared_vars oi oj))%nat.
Proof.
  unfold compare_two. rewrite compare_two_filter. f_equal; f_equal.
  - apply filtered_keys_size. intros var. unfold agreeing_vars, shared_vars.
    rewrite elem_of_filter, elem_of_intersection, !elem_of_dom. split.
    + intros (Heq & [x Hx] & _). exists x. split; [done|]. simpl. congruence.
    + intros (x & Hx & Hy). simpl in Hy. rewrite Hx, Hy. eauto.
  - apply filtered_keys_size. intros var. unfold shared_vars.
    rewrite elem_of_intersection, !elem_of_dom. split.
    + intros ([x Hx] & Hy). eauto.
    + intros (x & Hx & Hy). eauto.
Qed.

Lemma compare_later_spec oi (later : list (gmap string V)) (a c : nat) :
  compare_later oi later (a, c)
  = (a + sum_list ((λ p, size (agreeing_vars p.1 p.2)) <$> (pair oi <$> later)),
     c + sum_list ((λ p, size (shared_vars p.1 p.2)) <$> (pair oi <$> later)))%nat.
Proof.
  unfold compare_later. revert a c.
  induction later as [|oj later IH]; intros a c; simpl.
  { f_equal; lia. }
  rewrite compare_two_spec, IH. f_equal; symmetry; apply Nat.add_assoc.
Qed.

Lemma compare_all_spec observations (a c : nat) :
  compare_all observations (a, c)
  = (a + agreements_of observations, c + comparisons_of observations)%nat.
Proof.
  unfold agreements_of, comparisons_of. revert a c.
  induction observations as [|oi later IH]; intros a c; simpl.
  { f_equal; lia. }
  rewrite compare_later_spec, IH, !fmap_app, !sum_list_with_app.
  f_equal; symmetry; apply Nat.add_assoc.
Qed.

Lemma agreeing_subseteq_shared oi oj : agreeing_vars oi oj ⊆ shared_vars oi oj.
Proof. unfold agreeing_vars. intros var. rewrite elem_of_filter. tauto. Qed.

Lemma agreements_le_comparisons observations :
  (agreements_of observations ≤ comparisons_of observations)%nat.
Proof.
  unfold agreements_of, comparisons_of.
  induction (unordered_pairs observations) as [|[oi oj] l IH]; [done|].
  rewrite !fmap_cons. apply Nat.add_le_mono; [|apply IH].
  apply subseteq_size, agreeing_subseteq_shared.
Qed.

Lemma identical_agreeing oi oj :
  (∀ var x y, oi !! var = Some x → oj !! var = Some y → x = y) →
  agreeing_vars oi oj = shared_vars oi oj.
Proof.
  intros Hid. apply set_eq. intros var. unfold agreeing_vars, shared_vars.
  rewrite elem_of_filter, elem_of_intersection, !elem_of_dom.
  split; [tauto|]. intros [[x Hx] [y Hy]]. split; [|eauto].
  rewrite Hx, Hy. f_equal. eauto.
Qed.

Lemma identical_agreements observations :
  pairwise_identical observations →
  agreements_of observations = comparisons_of observations.
Proof.
  unfold pairwise_identical, agreements_of, comparisons_of.
  induction (unordered_pairs observations) as [|[oi oj] l IH]; intros Hid; [done|].
  rewrite !fmap_cons. change (size (agreeing_vars oi oj)
    + sum_list ((λ p, size (agreeing_vars p.1 p.2)) <$> l)
    = size (shared_vars oi oj) + sum_list ((λ p, size (shared_vars p.1 p.2)) <$> l))%nat.
  rewrite identical_agreeing, IH; [done| |].
  - intros; eapply Hid; eauto. by right.
  - intros; eapply Hid; eauto. by left.
Qed.

Lemma unordered_pairs_short {X} (l : list X) :
  (length l < 2)%nat → unordered_pairs l = [].
Proof. destruct l as [|? [|? ?]]; simpl; intros; (done || lia). Qed.

Lemma Qnat_ratio_bounds (a c : nat) :
  (a ≤ c)%nat → (0 < c)%nat → (0 <= Qnat a / Qnat c <= 1)%Q.
Proof.
  intros Hac Hc. unfold Qnat.
  assert (0 < inject_Z (Z.of_nat c))%Q as Hpos.
  { change 0%Q with (inject_Z 0). rewrite <- Zlt_Qlt. lia. }
  split.
  - apply Qle_shift_div_l; [done|]. rewrite Qmult_0_l.
    change 0%Q with (inject_Z 0). rewrite <- Zle_Qle. lia.
  - apply Qle_shift_div_r; [done|]. rewrite Qmult_1_l.
    rewrite <- Zle_Qle. lia.
Qed.

Lemma Qnat_ratio_same (c : nat) : (0 < c)%nat → (Qnat c / Qnat c == 1)%Q.
Proof.
  intros Hc. unfold Qnat. apply Qmult_inv_r.
  intros Heq. unfold Qeq in Heq; simpl in Heq. lia.
Qed.

Lemma calculate_percentage_agreement_value observations :
  calculate_percentage_agreement observations
  = if (comparisons_of observations =? 0)%nat then 0%Q
    else (Qnat (agreements_of observations) / Qnat (comparisons_of observations))%Q.
Proof.
  unfold calculate_percentage_agreement.
  destruct (length observations <? 2)%nat eqn:Hlen.
  - apply Nat.ltb_lt in Hlen. unfold comparisons_of.
    by rewrite unordered_pairs_short.
  - by rewrite compare_all_spec.
Qed.

(** C6. [calculate_percentage_agreement] counts one comparison for
    every unordered pair of observations and every variable present in
    both, and one agreement when the two values are equal; it returns
    agreements divided by comparisons, and 0 when there is no
    comparison, which is the case with fewer than 2 observations; the
    result lies in [0,1]; it is 1 when there is a comparison and the
    values that coders share are pairwise identical. *)
Theorem percentage_agreement_spec observations :
  compare_all observations (O, O)
    = (agreements_of observations, comparisons_of observations)
  ∧ calculate_percentage_agreement observations
    = (if (comparisons_of observations =? 0)%nat then 0%Q
       else (Qnat (agreements_of observations) / Qnat (comparisons_of observations))%Q)
  ∧ (0 <= calculate_percentage_agreement observations <= 1)%Q
  ∧ (comparisons_of observations = O →
     calculate_percentage_agreement observations = 0%Q)
  ∧ ((length observations < 2)%nat →
     comparisons_of observations = O
     ∧ calculate_percentage_agreement observations = 0%Q)
  ∧ ((0 < comparisons_of observations)%nat →
     pairwise_identical observations →
     (calculate_percentage_agreement observations == 1)%Q).
Proof.
  pose proof (calculate_percentage_agreement_value observations) as Hval.
  pose proof (agreements_le_comparisons observations) as Hle.
  split; [by rewrite compare_all_spec|]. split; [done|].
  rewrite Hval. repeat split.
  - destruct (comparisons_of observations =? 0)%nat eqn:Hc; [done|].
    apply Nat.eqb_neq in Hc. apply Qnat_ratio_bounds; lia.
  - destruct (comparisons_of observations =? 0)%nat eqn:Hc; [done|].
    apply Nat.eqb_neq in Hc. apply Qnat_ratio_bounds; lia.
  - by intros ->.
  - unfold comparisons_of. by rewrite unordered_pairs_short.
  - unfold comparisons_of. by rewrite unordered_pairs_short.
  - intros Hpos Hid. rewrite (identical_agreements _ Hid).
    destruct (comparisons_of observations =? 0)%nat eqn:Hc.
    + apply Nat.eqb_eq in Hc. lia.
    + by apply Qnat_ratio_same.
Qed.

End AgreementFacts.

(** ** The alpha coefficient *)

Section AlphaFacts.
Context `{Countable V}.
Implicit Types (observations : list (gmap string V))
  (categories : gmap string (list V)) (values : list V).

(** *** Sums of rationals *)

Lemma Qsum_perm (l k : list Q) : l ≡ₚ k → (Qsum l == Qsum k)%Q.
Proof.
  unfold Qsum. induction 1 as [|x l k _ IH|x y l|l k m _ IH1 _ IH2]; simpl.
  - reflexivity.
  - by rewrite IH.
  - ring.
  - by rewrite IH1.
Qed.

Lemma Qsum_ext {X} (f g : X → Q) (l : list X) :
  (∀ x, x ∈ l → (f x == g x)%Q) → (Qsum (f <$> l) == Qsum (g <$> l))%Q.
Proof.
  unfold Qsum. induction l as [|x l IH]; intros Hfg; [reflexivity|].
  rewrite !fmap_cons. cbn [foldr].
  rewrite (Hfg x) by left. rewrite IH; [reflexivity|].
  intros y Hy. apply Hfg. by right.
Qed.

Lemma Qsum_zero {X} (f : X → Q) (l : list X) :
  (∀ x, x ∈ l → (f x == 0)%Q) → (Qsum (f <$> l) == 0)%Q.
Proof.
  unfold Qsum. induction l as [|x l IH]; intros Hf; [reflexivity|].
  rewrite !fmap_cons. cbn [foldr].
  rewrite (Hf x) by left. rewrite IH; [ring|].
  intros y Hy. apply Hf. by right.
Qed.

(** A loop that adds a term per element, or skips the element, computes
    the sum of the terms. *)
Lemma foldl_Qsum {X} (step : Q → X → Q) (term : X → Q) (l : list X) (acc : Q) :
  (∀ a b x, (a == b)%Q → (step a x == b + term x)%Q) →
  (foldl step acc l == acc + Qsum (term <$> l))%Q.
Proof.
  intros Hstep. unfold Qsum. revert acc.
  induction l as [|x l IH]; intros acc.
  - simpl. ring.
  - rewrite fmap_cons. cbn [foldl foldr]. rewrite IH. rewrite (Hstep acc acc x) by reflexivity. ring.
Qed.

Lemma foldl_Qsum_proper {X} (step : Q → X → Q) (term : X → Q) (l : list X) (a b : Q) :
  (∀ a b x, (a == b)%Q → (step a x == b + term x)%Q) →
  (a == b)%Q → (foldl step a l == b + Qsum (term <$> l))%Q.
Proof. intros Hstep Hab. rewrite foldl_Qsum by done. by rewrite Hab. Qed.

(** *** The dict of value counts *)

Lemma count_values_tally_from var observations (m : gmap V nat) (n : nat) :
  foldl (λ '(value_counts, total_values) (obs : gmap string V),
           match obs !! var with
           | Some value =>
               (<[value := S (default O (value_counts !! value))]> value_counts,
                S total_values)
           | None => (value_counts, total_values)
           end)
        (m, n) observations
  = (tally (values_of var observations) m,
     (n + length (values_of var observations))%nat).
Proof.
  revert m n. induction observations as [|obs l IH]; intros m n; simpl.
  { f_equal. lia. }
  unfold values_of; simpl. destruct (obs !! var) as [v|]; simpl.
  - rewrite IH. unfold values_of. f_equal. lia.
  - by rewrite IH.
Qed.

Lemma count_values_tally var observations :
  count_values var observations
  = (tally (values_of var observations) ∅, length (values_of var observations)).
Proof. unfold count_values. by rewrite count_values_tally_from. Qed.

Lemma occurrences_cons (v x : V) values :
  occurrences v (x :: values)
  = ((if decide (x = v) then 1 else 0) + occurrences v values)%nat.
Proof. unfold occurrences. rewrite filter_cons. by destruct (decide (x = v)). Qed.

Lemma occurrences_pos (v : V) values : (0 < occurrences v values)%nat ↔ v ∈ values.
Proof.
  induction values as [|x l IH].
  - unfold occurrences; simpl. split; [lia|]. by intros ?%not_elem_of_nil.
  - rewrite occurrences_cons, elem_of_cons. destruct (decide (x = v)) as [->|Hne].
    + split; [by left|lia].
    + rewrite <- IH. simpl. split; [by right|]. by intros [?|?].
Qed.

Lemma tally_lookup values (m : gmap V nat) (v : V) :
  tally values m !! v
  = match m !! v with
    | Some k => Some (k + occurrences v values)%nat
    | None => match occurrences v values with
              | O => None
              | n => Some n
              end
    end.
Proof.
  revert m. induction values as [|x l IH]; intros m.
  - unfold tally, occurrences; simpl. destruct (m !! v); [f_equal; lia|done].
  - change (tally (x :: l) m) with (tally l (<[x := S (default O (m !! x))]> m)).
    rewrite IH, occurrences_cons. destruct (decide (x = v)) as [->|Hne].
    + rewrite lookup_insert_eq. destruct (m !! v); simpl; f_equal; lia.
    + by rewrite lookup_insert_ne.
Qed.

Lemma tally_entries values :
  map_to_list (tally values ∅) ≡ₚ (λ v, (v, occurrences v values)) <$> remove_dups values.
Proof.
  apply NoDup_Permutation.
  - apply NoDup_map_to_list.
  - apply NoDup_fmap_2; [|apply NoDup_remove_dups]. by intros ?? [= ->].
  - intros [v n]. rewrite elem_of_map_to_list, tally_lookup, lookup_empty.
    rewrite list_elem_of_fmap. split.
    + intros Hn. exists v. rewrite elem_of_remove_dups, <- occurrences_pos.
      destruct (occurrences v values); simplify_eq. split; [done|lia].
    + intros (v' & [= -> ->] & Hin).
      rewrite elem_of_remove_dups, <- occurrences_pos in Hin.
      destruct (occurrences v' values); [lia|done].
Qed.

(** *** The expected disagreement of one variable *)

Lemma var_expected_disagreement_sum (value_counts : gmap V nat) (n : nat) :
  (var_expected_disagreement value_counts n
   == Qsum ((λ e1, Qsum (pair_term n e1 <$> map_to_list value_counts))
            <$> map_to_list value_counts))%Q.
Proof.
  unfold var_expected_disagreement.
  rewrite (foldl_Qsum _ (λ e1, Qsum (pair_term n e1 <$> map_to_list value_counts))).
  { ring. }
  intros a b [val1 c1] Hab.
  apply foldl_Qsum_proper; [|done].
  intros a' b' [val2 c2] Hab'. unfold pair_term; simpl.
  destruct (decide (val1 = val2)); rewrite Hab'; ring.
Qed.

Lemma var_expected_disagreement_marginal var observations :
  (var_expected_disagreement (count_values var observations).1
                             (count_values var observations).2
   == marginal_disagreement (values_of var observations))%Q.
Proof.
  rewrite count_values_tally; simpl.
  set (values := values_of var observations).
  rewrite var_expected_disagreement_sum. unfold marginal_disagreement.
  set (entry := λ v : V, (v, occurrences v values)).
  assert (∀ e1, (Qsum (pair_term (length values) e1 <$> map_to_list (tally values ∅))
                 == Qsum (pair_term (length values) e1 <$> (entry <$> remove_dups values)))%Q)
    as Hinner.
  { intros e1. apply Qsum_perm. by rewrite tally_entries. }
  rewrite (Qsum_ext _ _ _ (λ e1 _, Hinner e1)).
  rewrite (Qsum_perm _ ((λ e1, Qsum (pair_term (length values) e1
                                      <$> (entry <$> remove_dups values)))
                        <$> (entry <$> remove_dups values)))
    by (by rewrite tally_entries).
  rewrite <- list_fmap_compose. apply Qsum_ext. intros v1 _. simpl.
  rewrite <- list_fmap_compose. apply Qsum_ext. intros v2 _.
  unfold pair_term, entry, probability; simpl.
  destruct (decide (v1 = v2)); reflexivity.
Qed.

(** *** The sum over the variables *)

Lemma expected_sum_contributions categories observations :
  (expected_sum categories observations
   == Qsum (contribution observations <$> map_to_list categories))%Q.
Proof.
  unfold expected_sum.
  rewrite (foldl_Qsum _ (contribution observations)); [ring|].
  intros a b [var cat_values] Hab. unfold contribution; simpl.
  destruct cat_values as [|c cs]; [rewrite Hab; ring|].
  pose proof (var_expected_disagreement_marginal var observations) as Hm.
  rewrite (count_values_tally var observations) in Hm |- *. simpl in Hm.
  unfold well_observed.
  destruct (length (values_of var observations) <? 2)%nat eqn:Hlen.
  - apply Nat.ltb_lt in Hlen. rewrite decide_False by lia. rewrite Hab; ring.
  - apply Nat.ltb_ge in Hlen. rewrite decide_True by lia. by rewrite Hm, Hab.
Qed.

(** C3, amended.  For each variable the code's expected disagreement is
    the sum of [P(v1) * P(v2)] over the ordered pairs of distinct
    observed values, [P] being the observed frequency share; the
    overall expected disagreement is the sum of these values over the
    variables with a non-empty category list and at least 2 observed
    values, divided by the number of all the variables of
    [categories]. *)
Theorem expected_disagreement_spec categories observations :
  (∀ var,
     (var_expected_disagreement (count_values var observations).1
                                (count_values var observations).2
      == marginal_disagreement (values_of var observations))%Q)
  ∧ (expected_disagreement categories observations
     == Qsum (contribution observations <$> map_to_list categories)
        / Qnat (size categories))%Q.
Proof.
  split.
  - intros var. apply var_expected_disagreement_marginal.
  - unfold expected_disagreement. by rewrite expected_sum_contributions.
Qed.

(** *** The cases of the coefficient *)

Lemma marginal_disagreement_unanimous values :
  (∀ x y, x ∈ values → y ∈ values → x = y) →
  (marginal_disagreement values == 0)%Q.
Proof.
  intros Hsame. unfold marginal_disagreement.
  apply Qsum_zero. intros v1 Hv1. apply Qsum_zero. intros v2 Hv2.
  rewrite elem_of_remove_dups in Hv1, Hv2.
  by rewrite decide_True by eauto.
Qed.

Lemma expected_disagreement_unanimous categories observations :
  unanimous categories observations →
  (expected_disagreement categories observations == 0)%Q.
Proof.
  intros Hun. unfold expected_disagreement.
  rewrite expected_sum_contributions.
  rewrite Qsum_zero; [unfold Qdiv; ring|].
  intros [var cat_values] Hin. unfold contribution; simpl.
  destruct cat_values; [reflexivity|]. case_decide; [|reflexivity].
  apply marginal_disagreement_unanimous. intros x y. apply Hun.
  apply elem_of_dom. apply elem_of_map_to_list in Hin. eauto.
Qed.

(** C7, amended.  [calculate_krippendorff_alpha] returns 0 when fewer
    than 2 observations are supplied and when no variable yields a pair
    of values to compare; when pairs exist it returns exactly 1 if the
    expected disagreement is 0, which is the case when all the values
    observed for every variable are identical, and
    [1 - observed_disagreement / expected_disagreement] otherwise. *)
Theorem krippendorff_alpha_cases observations categories :
  let counts := observed_counts (map_to_list categories).*1 observations in
  let expected := expected_disagreement categories observations in
  ((length observations < 2)%nat →
   calculate_krippendorff_alpha observations categories = 0%Q)
  ∧ (counts.2 = O → calculate_krippendorff_alpha observations categories = 0%Q)
  ∧ ((2 ≤ length observations)%nat → counts.2 ≠ O → (expected == 0)%Q →
     calculate_krippendorff_alpha observations categories = 1%Q)
  ∧ ((2 ≤ length observations)%nat → counts.2 ≠ O →
     unanimous categories observations →
     calculate_krippendorff_alpha observations categories = 1%Q)
  ∧ ((2 ≤ length observations)%nat → counts.2 ≠ O → ¬ (expected == 0)%Q →
     calculate_krippendorff_alpha observations categories
     = (1 - (Qnat counts.1 / Qnat counts.2) / expected)%Q).
Proof.
  intros counts expected. unfold calculate_krippendorff_alpha.
  subst expected. fold counts. destruct counts as [observed total_pairs]; simpl.
  assert (∀ b : bool, (2 ≤ length observations)%nat →
            (length observations <? 2)%nat = false) as Hlong.
  { intros _ ?. apply Nat.ltb_ge. lia. }
  repeat split.
  - intros Hlen. by rewrite (proj2 (Nat.ltb_lt _ _) Hlen).
  - intros ->. by destruct (length observations <? 2)%nat.
  - intros Hlen Hpairs Hzero. rewrite (Hlong true Hlen).
    rewrite (proj2 (Nat.eqb_neq _ _) Hpairs).
    by rewrite (proj2 (Qeq_bool_iff _ _) Hzero).
  - intros Hlen Hpairs Hun. rewrite (Hlong true Hlen).
    rewrite (proj2 (Nat.eqb_neq _ _) Hpairs).
    by rewrite (proj2 (Qeq_bool_iff _ _)
                  (expected_disagreement_unanimous _ _ Hun)).
  - intros Hlen Hpairs Hnz. rewrite (Hlong true Hlen).
    rewrite (proj2 (Nat.eqb_neq _ _) Hpairs).
    destruct (Qeq_bool _ 0) eqn:Hq; [|done].
    by apply Qeq_bool_iff in Hq.
Qed.

End AlphaFacts.

(** ** The fuzzy repair *)

Section RepairFacts.

Lemma Qltb_lt (a b : Q) : Qltb a b = true ↔ (a < b)%Q.
Proof.
  unfold Qltb. rewrite negb_true_iff. split.
  - intros Hle. apply Qnot_le_lt. intros Hba.
    apply Qle_bool_iff in Hba. congruence.
  - intros Hlt. destruct (Qle_bool b a) eqn:Hle; [|done].
    apply Qle_bool_iff in Hle. by apply Qlt_not_le in Hlt.
Qed.

Lemma Qltb_ge (a b : Q) : Qltb a b = false ↔ (b <= a)%Q.
Proof.
  unfold Qltb. rewrite negb_false_iff. apply Qle_bool_iff.
Qed.

Lemma len_zero (s : string) : len s = O → s = EmptyString.
Proof. by destruct s. Qed.

(** In the repair branch the score never divides by zero: an eligible
    option as empty as the value would be the value itself. *)
Lemma fuzzy_score_similarity (opt value : string) :
  opt ≠ value →
  fuzzy_score opt value = Ok (similarity opt value).
Proof.
  intros Hne. unfold fuzzy_score, similarity.
  destruct (Nat.max (len opt) (len value)) eqn:Hmax; [|done].
  exfalso. apply Hne.
  rewrite (len_zero opt), (len_zero value) by lia. done.
Qed.

Lemma fuzzy_step_spec (value opt : string) (best : option string * Q) :
  opt ≠ value →
  fuzzy_step (JStr value) best opt
  = Ok (if eligible opt value
        then if Qltb best.2 (similarity opt value)
             then (Some opt, similarity opt value) else best
        else best).
Proof.
  intros Hne. unfold fuzzy_step, eligible.
  destruct (contains (lower opt) (lower value) || contains (lower value) (lower opt));
    [|done].
  by rewrite fuzzy_score_similarity.
Qed.

(** The loop keeps its starting pair unless an eligible option scores
    strictly more, and then it holds the first best eligible option. *)
Lemma fuzzy_loop_spec (value : string) (options : list string)
    (best : option string * Q) :
  value ∉ options →
  fuzzy_loop (JStr value) options best
  = Ok (match best_eligible value options with
        | Some o => if Qltb best.2 (similarity o value)
                    then (Some o, similarity o value) else best
        | None => best
        end).
Proof.
  revert best. induction options as [|o rest IH]; intros best Hnot; [done|].
  apply not_elem_of_cons in Hnot as [Hne Hrest].
  cbn [fuzzy_loop best_eligible].
  rewrite fuzzy_step_spec by done. cbn [mbind Result_bind].
  rewrite IH by done.
  destruct (eligible o value); [|done].
  destruct (best_eligible value rest) as [o'|].
  - destruct (Qltb best.2 (similarity o value)) eqn:H1;
      destruct (Qltb (similarity o value) (similarity o' value)) eqn:H2;
      cbn [snd]; rewrite ?H1, ?H2; try done.
    + assert (Qltb best.2 (similarity o' value) = true) as ->; [|done].
      apply Qltb_lt in H1, H2. apply Qltb_lt. by eapply Qlt_trans.
    + assert (Qltb best.2 (similarity o' value) = false) as ->; [|done].
      apply Qltb_ge in H1, H2. apply Qltb_ge.
      eapply Qle_trans; [exact H2|exact H1].
  - by destruct (Qltb best.2 (similarity o value)).
Qed.

Lemma similarity_empty (value : string) : (similarity EmptyString value == 0)%Q.
Proof.
  unfold similarity. simpl.
  assert (charset EmptyString ∩ charset (lower value) = ∅) as ->
    by (unfold charset; simpl; apply (left_absorb_L _ _)).
  rewrite size_empty. unfold Qdiv. simpl. ring.
Qed.

Lemma accepted_spec (value : string) (options : list string) :
  accepted (match best_eligible value options with
            | Some o => if Qltb 0%Q (similarity o value)
                        then (Some o, similarity o value) else (None, 0%Q)
            | None => (None, 0%Q)
            end)
  = match best_eligible value options with
    | Some o => if Qltb (1 # 2) (similarity o value) then Some o else None
    | None => None
    end.
Proof.
  destruct (best_eligible value options) as [o|]; [|done].
  destruct (Qltb (1 # 2) (similarity o value)) eqn:Hhalf.
  - apply Qltb_lt in Hhalf.
    assert (Qltb 0%Q (similarity o value) = true) as ->.
    { apply Qltb_lt. eapply Qlt_trans; [|exact Hhalf]. done. }
    unfold accepted; simpl. destruct o as [|c r].
    + rewrite similarity_empty in Hhalf. by compute in Hhalf.
    + by rewrite (proj2 (Qltb_lt _ _) Hhalf).
  - destruct (Qltb 0%Q (similarity o value)); unfold accepted; simpl; [|done].
    destruct o; [done|]. by rewrite Hhalf.
Qed.

Lemma first_or_empty_hd (options : list string) :
  first_or_empty options = JStr (hd EmptyString options).
Proof. by destruct options. Qed.

Lemma best_eligible_none (value : string) (options : list string) :
  best_eligible value options = None →
  ∀ o, o ∈ options → eligible o value = false.
Proof.
  induction options as [|o rest IH]; intros Hnone o' Hin.
  { by apply not_elem_of_nil in Hin. }
  simpl in Hnone. destruct (eligible o value) eqn:He.
  - by destruct (best_eligible value rest) as [o''|];
      [destruct (Qltb _ _)|].
  - apply elem_of_cons in Hin as [->|Hin]; [done|]. by apply IH.
Qed.

Lemma best_eligible_first_best (value : string) (options : list string) (o : string) :
  best_eligible value options = Some o → first_best value options o.
Proof.
  revert o. induction options as [|o0 rest IH]; intros o Hbest; [done|].
  simpl in Hbest. destruct (eligible o0 value) eqn:He0.
  - destruct (best_eligible value rest) as [o'|] eqn:Hrest.
    + destruct (Qltb (similarity o0 value) (similarity o' value)) eqn:Hlt;
        simplify_eq.
      * destruct (IH o eq_refl) as (i & Hi & He & Hmax & Hfirst).
        apply Qltb_lt in Hlt.
        exists (S i). split; [done|]. split; [done|]. split.
        -- intros [|j] o'' Hj He''; simplify_eq/=; [by apply Qlt_le_weak|].
           by eapply Hmax.
        -- intros [|j] o'' Hji Hj He''; simplify_eq/=; [done|].
           eapply Hfirst; [|done..]. lia.
      * destruct (IH o' eq_refl) as (i & Hi & He & Hmax & Hfirst).
        apply Qltb_ge in Hlt.
        exists O. split; [done|]. split; [done|]. split.
        -- intros [|j] o'' Hj He''; simplify_eq/=; [apply Qle_refl|].
           eapply Qle_trans; [|exact Hlt]. by eapply Hmax.
        -- intros j o'' Hj. lia.
    + simplify_eq. exists O. split; [done|]. split; [done|]. split.
      * intros [|j] o'' Hj He''; simplify_eq/=; [apply Qle_refl|].
        apply list_elem_of_lookup_2 in Hj.
        by rewrite (best_eligible_none _ _ Hrest _ Hj) in He''.
      * intros j o'' Hj. lia.
  - destruct (IH o Hbest) as (i & Hi & He & Hmax & Hfirst).
    exists (S i). split; [done|]. split; [done|]. split.
    + intros [|j] o'' Hj He''; simplify_eq/=; [congruence|]. by eapply Hmax.
    + intros [|j] o'' Hji Hj He''; simplify_eq/=; [congruence|].
      eapply Hfirst; [|done..]. lia.
Qed.

(** The repair stores [chosen_option] and touches only the trace. *)
Lemma fuzzy_repair_chosen (name value : string) (options : list string)
    (valid_coding : gmap string JValue) (w : World) :
  value ∉ options →
  ∃ events,
    fuzzy_repair name (JStr value) options valid_coding w
    = (Ok (<[name := JStr (chosen_option value options)]> valid_coding),
       push events w).
Proof.
  intros Hnot. unfold fuzzy_repair, lift.
  erewrite bind_ok; [|by rewrite fuzzy_loop_spec by done].
  unfold assign_match. cbn [snd]. rewrite accepted_spec. unfold chosen_option.
  destruct (best_eligible value options) as [o|].
  - destruct (Qltb (1 # 2) (similarity o value)).
    + exists []. by rewrite push_nil.
    + exists [Log WARNING default_warning [AStr name; AVal (JStr value)]].
      by rewrite first_or_empty_hd.
  - exists [Log WARNING default_warning [AStr name; AVal (JStr value)]].
    by rewrite first_or_empty_hd.
Qed.

(** C8.  For a value that is none of the options the repair stores the
    option that [chosen_option] computes from the value and the option
    list alone, whatever the variable, the mapping built so far and the
    world: the first eligible option of maximal score when that score
    exceeds 0.5, the first declared option otherwise.  Only the trace
    changes, by the warning that goes with the default. *)
Theorem fuzzy_repair_deterministic (name value : string) (options : list string)
    (valid_coding : gmap string JValue) (w : World) :
  value ∉ options →
  (∃ events,
     fuzzy_repair name (JStr value) options valid_coding w
     = (Ok (<[name := JStr (chosen_option value options)]> valid_coding),
        push events w))
  ∧ match best_eligible value options with
    | Some o =>
        first_best value options o
        ∧ chosen_option value options
          = (if Qltb (1 # 2) (similarity o value) then o else hd EmptyString options)
    | None =>
        (∀ o, o ∈ options → eligible o value = false)
        ∧ chosen_option value options = hd EmptyString options
    end.
Proof.
  intros Hnot. split; [by apply fuzzy_repair_chosen|].
  unfold chosen_option.
  destruct (best_eligible value options) as [o|] eqn:Hbest.
  - split; [by apply best_eligible_first_best|done].
  - split; [by apply best_eligible_none|done].
Qed.

End RepairFacts.

(** ** Strings *)

Section StringFacts.

Lemma has_char_lstrip (c : ascii) (s : string) :
  has_char c (lstrip s) = true → has_char c s = true.
Proof.
  induction s as [|d r IH]; [done|]. simpl.
  destruct (isspace d); [|done]. intros Hr. rewrite (IH Hr). apply orb_true_r.
Qed.

Lemma has_char_drop (c : ascii) (n : nat) (s : string) :
  has_char c (Json.drop n s) = true → has_char c s = true.
Proof.
  revert s. induction n as [|n IH]; intros [|d r]; simpl; try done.
  intros Hr. rewrite (IH _ Hr). apply orb_true_r.
Qed.

Lemma match_block_brace (s g : string) :
  Re.match_block s = Some g → has_char "{" s = true.
Proof.
  unfold Re.match_block. intros Hm. apply has_char_lstrip.
  destruct (lstrip s) as [|c body]; [done|].
  destruct (decide (c = "{"%char)) as [->|Hne]; [done|].
  exfalso. revert Hm.
  destruct c as [[] [] [] [] [] [] [] []]; try done.
Qed.

Lemma match_here_brace (s g : string) :
  Re.match_here s = Some g → has_char "{" s = true.
Proof.
  unfold Re.match_here. destruct (String.prefix Re.fence s); [|done].
  destruct (String.prefix "json" (Json.drop 3 s)).
  - destruct (Re.match_block (Json.drop 4 (Json.drop 3 s))) eqn:Hb.
    + intros _. apply match_block_brace in Hb.
      by apply has_char_drop in Hb; apply has_char_drop in Hb.
    + intros Hb'%match_block_brace. by apply has_char_drop in Hb'.
  - intros Hb'%match_block_brace. by apply has_char_drop in Hb'.
Qed.

(** The fenced-block pattern needs an opening brace. *)
Lemma search_fenced_brace (s g : string) :
  Re.search_fenced s = Some g → has_char "{" s = true.
Proof.
  induction s as [|c r IH]; simpl.
  - destruct (Re.match_here EmptyString) eqn:Hm; [|done].
    intros _. by apply match_here_brace in Hm.
  - destruct (Re.match_here (String c r)) eqn:Hm.
    + intros _. by apply match_here_brace in Hm.
    + intros Hr. rewrite (IH Hr). apply orb_true_r.
Qed.

Lemma find_absent (c : ascii) (s : string) : has_char c s = false → find c s = -1.
Proof.
  induction s as [|d r IH]; [done|]. simpl.
  destruct (bool_decide (d = c)); [done|]. simpl. intros Hr. by rewrite (IH Hr).
Qed.

Lemma split_once_absent (sep : ascii) (s : string) :
  has_char sep s = false → split_once sep s = [s].
Proof.
  induction s as [|d r IH]; [done|]. simpl.
  destruct (bool_decide (d = sep)); [done|]. simpl. intros Hr. by rewrite (IH Hr).
Qed.

(** [split('=', 1)] cuts at the first separator. *)
Lemma split_once_first (sep : ascii) (k v : string) :
  has_char sep k = false →
  split_once sep (k +:+ String sep v) = [k; v].
Proof.
  induction k as [|d r IH]; simpl.
  - intros _. by rewrite bool_decide_eq_true_2.
  - destruct (bool_decide (d = sep)); [done|]. simpl. intros Hr. by rewrite (IH Hr).
Qed.

Lemma has_char_app (c : ascii) (k v : string) :
  has_char c (k +:+ v) = has_char c k || has_char c v.
Proof.
  induction k as [|d r IH]; [done|]. simpl. rewrite IH. by rewrite orb_assoc.
Qed.

(** A string that holds the separator is some [k ++ sep ++ v] with no
    separator in [k]. *)
Lemma has_char_split (sep : ascii) (s : string) :
  has_char sep s = true →
  ∃ k v, s = k +:+ String sep v ∧ has_char sep k = false.
Proof.
  induction s as [|d r IH]; [done|]. simpl.
  destruct (bool_decide (d = sep)) eqn:Hd.
  - apply bool_decide_eq_true in Hd as ->. intros _. by exists EmptyString, r.
  - simpl. intros Hr. destruct (IH Hr) as (k & v & -> & Hk).
    exists (String d k), v. split; [done|]. simpl. by rewrite Hd.
Qed.

Lemma parse_line_skip (m : gmap string string) (line : string) :
  has_char "=" line = false → parse_line m line = Ok m.
Proof. unfold parse_line. by intros ->. Qed.

Lemma parse_line_entry (m : gmap string string) (k v : string) :
  has_char "=" k = false →
  parse_line m (k +:+ String "=" v) = Ok (<[strip k := strip v]> m).
Proof.
  intros Hk. unfold parse_line.
  rewrite has_char_app; simpl. rewrite orb_true_r.
  by rewrite split_once_first.
Qed.

Lemma parse_line_total (m : gmap string string) (line : string) :
  ∃ m', parse_line m line = Ok m'.
Proof.
  destruct (has_char "=" line) eqn:Hc.
  - destruct (has_char_split _ _ Hc) as (k & v & -> & Hk).
    eexists. by apply parse_line_entry.
  - eexists. by apply parse_line_skip.
Qed.

Lemma parse_lines_total (coding_result : string) :
  ∃ m, parse_lines coding_result = Ok m.
Proof.
  unfold parse_lines. generalize (∅ : gmap string string) as m.
  induction (split "010" (strip coding_result)) as [|line rest IH]; intros m.
  - by exists m.
  - simpl. destruct (parse_line_total m line) as [m' ->]. simpl. apply IH.
Qed.

End StringFacts.

(** ** Validation *)

Section ValidationFacts.

Lemma get_siliconflow_client_ok (w : World) :
  usable_key w → get_siliconflow_client w = (Ok true, push client_events w).
Proof.
  unfold usable_key. intros Hkey.
  unfold get_siliconflow_client, retry_with_backoff.
  change (Z.to_nat 3) with 3%nat.
  rewrite (retry_loop_success _ _ _ _ 3 _ 0 None w
             (push client_events w) true); [done|lia|].
  unfold get_siliconflow_client_body; simpl.
  destruct (api_key w) as [|c r] eqn:Hk; [done|].
  destruct (strip (String c r)) eqn:Hs; [done|].
  unfold mbind, M_bind, logging, emit, mret, M_ret; simpl.
  by rewrite !push_push.
Qed.

(** A string reply that holds no variable name: nothing is coded. *)
Lemma validate_loop_absent (fenced : bool) (options_map : gmap string (list string))
    (t : string) (variables : list CodingVar) (valid_coding : gmap string JValue)
    (w : World) :
  (∀ v, v ∈ variables → contains (var_name v) t = false) →
  validate_loop fenced options_map (JStr t) variables valid_coding w
  = (Ok valid_coding, w).
Proof.
  induction variables as [|v rest IH]; intros Habs; [done|].
  cbn [validate_loop]. unfold validate_variable at 1.
  unfold mbind, M_bind, lift; simpl.
  rewrite (Habs v) by left. simpl.
  apply IH. intros v' Hv'. apply Habs. by right.
Qed.

(** A number, a boolean or [null]: the first membership test raises. *)
Lemma validate_loop_atom (fenced : bool) (options_map : gmap string (list string))
    (j : JValue) (v : CodingVar) (rest : list CodingVar)
    (valid_coding : gmap string JValue) (w : World) :
  is_atom j = true →
  validate_loop fenced options_map j (v :: rest) valid_coding w
  = (Raise TypeError, w).
Proof.
  intros Hj. cbn [validate_loop]. unfold validate_variable at 1.
  unfold mbind, M_bind, lift; simpl.
  by destruct j.
Qed.

(** The fenced variant of the repair never raises on a string either. *)
Lemma fuzzy_repair_fenced_loop_ok (name value : string)
    (valid_options options : list string) (best : option string * Q)
    (valid_coding : gmap string JValue) (w : World) :
  value ∉ options →
  ∃ d w', fuzzy_repair_fenced_loop name (JStr value) valid_options options best
            valid_coding w = (Ok d, w').
Proof.
  revert best valid_coding w.
  induction options as [|o rest IH]; intros best valid_coding w Hnot.
  { by exists valid_coding, w. }
  apply not_elem_of_cons in Hnot as [Hne Hrest].
  cbn [fuzzy_repair_fenced_loop]. unfold lift.
  erewrite bind_ok; [|by rewrite fuzzy_step_spec by done].
  set (best' := if eligible o value then _ else _).
  assert (∃ d w', assign_match name (JStr value) valid_options best' valid_coding w
                  = (Ok d, w')) as (d & w' & Hassign).
  { unfold assign_match. destruct (accepted best'); by eexists _, _. }
  erewrite bind_ok; [|exact Hassign]. by apply IH.
Qed.

(** On a dict of strings, as the line parser builds it, the validation
    never raises. *)
Lemma validate_loop_strings (fenced : bool) (options_map : gmap string (list string))
    (m : gmap string string) (variables : list CodingVar)
    (valid_coding : gmap string JValue) (w : World) :
  ∃ d w', validate_loop fenced options_map (as_object m) variables valid_coding w
          = (Ok d, w').
Proof.
  revert valid_coding w.
  induction variables as [|v rest IH]; intros valid_coding w.
  { by exists valid_coding, w. }
  cbn [validate_loop].
  assert (∃ d w', validate_variable fenced options_map (as_object m) valid_coding v w
                  = (Ok d, w')) as (d & w' & Hv).
  { unfold validate_variable, as_object, lift.
    unfold mbind at 1, M_bind at 1. cbn [py_in].
    destruct (bool_decide (is_Some ((JStr <$> m) !! var_name v))) eqn:Hin;
      [|by eexists _, _].
    apply bool_decide_eq_true in Hin as [value Hvalue].
    unfold mbind at 1, M_bind at 1. cbn [py_getitem]. rewrite Hvalue.
    apply lookup_fmap_Some in Hvalue as (s & <- & _).
    destruct (if is_categorical (var_type v) then options_map !! var_name v else None)
      as [valid_options|]; [|by eexists _, _].
    destruct (value_in (JStr s) valid_options) eqn:Hmem; [by eexists _, _|].
    apply bool_decide_eq_false in Hmem.
    destruct fenced.
    - by apply fuzzy_repair_fenced_loop_ok.
    - destruct (fuzzy_repair_chosen (var_name v) s valid_options
                  valid_coding w Hmem) as [events Hrep].
      by eexists _, _. }
  unfold mbind, M_bind. rewrite Hv. apply IH.
Qed.

End ValidationFacts.

(** ** Extraction, [auto_code_content] and [auto_code_video] *)

Section CodingFacts.
Variable json_loads : string → option JValue.

(** With a key, a coding scheme that can be described and a reply, the
    function is the extraction of that reply under the outer handler. *)
Lemma auto_code_content_run (content : string) (variables : list CodingVar)
    (custom_prompt : option string) (w : World) (variables_text : string)
    (options_map : gmap string (list string)) (reply : string) :
  usable_key w →
  describe_variables (EmptyString, ∅) variables = Ok (variables_text, options_map) →
  service w (calls w) = Returns (RespContent reply) →
  auto_code_content json_loads content variables custom_prompt w
  = try_except (extract json_loads variables options_map reply)
      (λ e, logging ERROR "自动编码失败: {str(e)}" [AExn e];; mret None)
      (called (content_request content custom_prompt variables_text)
         (push client_events w)).
Proof.
  intros Hkey Hvars Hreply. unfold auto_code_content, try_except.
  erewrite bind_ok; [|by apply get_siliconflow_client_ok]. cbn [negb].
  unfold lift at 1. erewrite bind_ok; [|by rewrite Hvars]. cbv beta iota.
  erewrite bind_ok; [|unfold chat_completions_create; simpl; by rewrite Hreply].
  by erewrite bind_ok.
Qed.

(** *** The stages of the extraction *)

Lemma extract_stage1 (variables : list CodingVar)
    (options_map : gmap string (list string)) (reply : string) (j : JValue) :
  json_loads reply = Some j →
  extract json_loads variables options_map reply
  = (Some <$> validate false variables options_map j).
Proof. unfold extract. by intros ->. Qed.

Lemma extract_stage2 (variables : list CodingVar)
    (options_map : gmap string (list string)) (reply block : string) (j : JValue) :
  json_loads reply = None →
  Re.search_fenced reply = Some block →
  json_loads block = Some j →
  extract json_loads variables options_map reply
  = try_except (Some <$> validate true variables options_map j)
      (unvalidated_lines reply).
Proof.
  intros Hreply Hblock Hj. unfold extract, extract_fallback.
  rewrite Hreply, Hblock. unfold loads_or_raise. by rewrite Hj.
Qed.

Lemma extract_stage4 (variables : list CodingVar)
    (options_map : gmap string (list string)) (reply : string) (w : World) :
  json_loads reply = None →
  has_char "{" reply = false →
  ∃ m, parse_lines reply = Ok m
       ∧ extract json_loads variables options_map reply w
         = (Some <$> validate false variables options_map (as_object m)) w.
Proof.
  intros Hreply Hbrace.
  destruct (parse_lines_total reply) as [m Hm]. exists m. split; [done|].
  unfold extract, extract_fallback. rewrite Hreply.
  destruct (Re.search_fenced reply) as [g|] eqn:Hg.
  { apply search_fenced_brace in Hg. congruence. }
  rewrite (find_absent _ _ Hbrace). cbv zeta.
  change (braces_found (-1) (rfind "}" reply)) with false. cbv iota.
  rewrite Hm.
  destruct (validate_loop_strings false options_map m variables ∅ w)
    as (d & w' & Hd).
  unfold validate.
  erewrite try_ok;
    [|erewrite bind_ok; [|reflexivity]; by erewrite fmap_ok].
  by erewrite fmap_ok.
Qed.

(** C9.  The stages fire in order.  A reply that [json.loads] decodes
    is handled by the first stage alone: the outcome is the validation
    of the decoded value, whatever else the reply contains.  A reply
    that is not JSON and whose fenced block decodes yields the
    validation of exactly the value decoded from that block (under the
    handler of the fallback).  A reply that is not JSON and has no
    opening brace is handled line by line and never fails: the lines of
    the stripped reply are folded, a line without ['='] is ignored, a
    line with ['='] is cut at the first one and contributes the
    stripped key and value.  In Scenario D the whole reply is not JSON,
    the pattern captures the block, and the block decodes to the
    object that maps topic to tech. *)
Theorem extract_stage_order (variables : list CodingVar)
    (options_map : gmap string (list string)) (reply : string) (w : World) :
  (∀ j, json_loads reply = Some j →
     extract json_loads variables options_map reply w
     = (Some <$> validate false variables options_map j) w)
  ∧ (∀ block j,
       json_loads reply = None →
       Re.search_fenced reply = Some block →
       json_loads block = Some j →
       extract json_loads variables options_map reply w
       = try_except (Some <$> validate true variables options_map j)
           (unvalidated_lines reply) w)
  ∧ (json_loads reply = None →
     has_char "{" reply = false →
     ∃ m, parse_lines reply = Ok m
          ∧ extract json_loads variables options_map reply w
            = (Some <$> validate false variables options_map (as_object m)) w)
  ∧ parse_lines reply = parse_lines_from ∅ (split "010" (strip reply))
  ∧ (∀ (m : gmap string string) line,
       has_char "=" line = false → parse_line m line = Ok m)
  ∧ (∀ (m : gmap string string) k v,
       has_char "=" k = false →
       parse_line m (k +:+ String "=" v) = Ok (<[strip k := strip v]> m))
  ∧ (Json.loads scenario_D = None
     ∧ Re.search_fenced scenario_D = Some scenario_D_block
     ∧ Json.loads scenario_D_block = Some (JObj {[ "topic" := JStr "tech" ]})).
Proof.
  split; [intros j Hj; by rewrite (extract_stage1 _ _ _ _ Hj)|].
  split; [intros block j H1 H2 H3; by rewrite (extract_stage2 _ _ _ _ _ H1 H2 H3)|].
  split; [by apply extract_stage4|].
  split; [done|].
  split; [by apply parse_line_skip|].
  split; [by apply parse_line_entry|].
  by vm_compute.
Qed.

(** *** Replies that are JSON but not an object *)

(** A string reply that holds a variable name: indexing the string with
    the name raises. *)
Lemma validate_loop_contained (fenced : bool) (options_map : gmap string (list string))
    (t : string) (variables : list CodingVar) (valid_coding : gmap string JValue)
    (w : World) :
  (∃ v, v ∈ variables ∧ contains (var_name v) t = true) →
  validate_loop fenced options_map (JStr t) variables valid_coding w
  = (Raise TypeError, w).
Proof.
  induction variables as [|v rest IH]; intros (v' & Hin & Hc).
  { by apply not_elem_of_nil in Hin. }
  cbn [validate_loop]. unfold validate_variable at 1.
  unfold mbind, M_bind, lift; simpl.
  destruct (contains (var_name v) t) eqn:Hv; [done|]. simpl.
  apply IH. apply elem_of_cons in Hin as [->|Hin]; [congruence|eauto].
Qed.

Lemma auto_code_content_stage1 (content : string) (variables : list CodingVar)
    (custom_prompt : option string) (w : World) (variables_text : string)
    (options_map : gmap string (list string)) (reply : string) (j : JValue)
    (r : Result (gmap string JValue)) (w' : World) :
  usable_key w →
  describe_variables (EmptyString, ∅) variables = Ok (variables_text, options_map) →
  service w (calls w) = Returns (RespContent reply) →
  json_loads reply = Some j →
  validate_loop false options_map j variables ∅
    (called (content_request content custom_prompt variables_text)
       (push client_events w)) = (r, w') →
  (auto_code_content json_loads content variables custom_prompt w).1
  = match r with
    | Ok d => Ok (Some d)
    | Raise _ => Ok None
    end.
Proof.
  intros Hkey Hvars Hreply Hj Hval.
  rewrite (auto_code_content_run _ _ _ _ _ _ _ Hkey Hvars Hreply).
  rewrite (extract_stage1 _ _ _ _ Hj). unfold try_except, validate.
  destruct r as [d|e].
  - by erewrite fmap_ok.
  - by erewrite fmap_raise.
Qed.

(** C2, amended.  The first stage decodes the whole reply and does not
    require an object: the validation loop runs on whatever was
    decoded.  For a bare JSON string that holds no variable's name the
    operation returns the empty mapping, not a failure; when the string
    holds a variable's name, or the reply is a number, a boolean or
    null and there is a variable, the loop raises and the operation
    returns [None]. *)
Theorem bare_scalar_reply (content : string) (variables : list CodingVar)
    (custom_prompt : option string) (w : World) (variables_text : string)
    (options_map : gmap string (list string)) (reply : string) :
  usable_key w →
  describe_variables (EmptyString, ∅) variables = Ok (variables_text, options_map) →
  service w (calls w) = Returns (RespContent reply) →
  (∀ t, json_loads reply = Some (JStr t) →
     (∀ v, v ∈ variables → contains (var_name v) t = false) →
     (auto_code_content json_loads content variables custom_prompt w).1
     = Ok (Some ∅))
  ∧ (∀ t, json_loads reply = Some (JStr t) →
       (∃ v, v ∈ variables ∧ contains (var_name v) t = true) →
       (auto_code_content json_loads content variables custom_prompt w).1
       = Ok None)
  ∧ (∀ j, json_loads reply = Some j → is_atom j = true → variables ≠ [] →
       (auto_code_content json_loads content variables custom_prompt w).1
       = Ok None).
Proof.
  intros Hkey Hvars Hreply. repeat split.
  - intros t Hj Habs.
    by rewrite (auto_code_content_stage1 _ _ _ _ _ _ _ _ _ _ Hkey Hvars Hreply Hj
                  (validate_loop_absent _ _ _ _ _ _ Habs)).
  - intros t Hj Hcont.
    by rewrite (auto_code_content_stage1 _ _ _ _ _ _ _ _ _ _ Hkey Hvars Hreply Hj
                  (validate_loop_contained _ _ _ _ _ _ Hcont)).
  - intros j Hj Hatom Hne. destruct variables as [|v rest]; [done|].
    by rewrite (auto_code_content_stage1 _ _ _ _ _ _ _ _ _ _ Hkey Hvars Hreply Hj
                  (validate_loop_atom _ _ _ _ _ _ _ Hatom)).
Qed.

(** *** Frames whose description fails *)

Lemma convert_image_to_base64_run (frame : Frame) (w : World) :
  convert_image_to_base64 frame w
  = (Ok (frame_base64 frame), push (encoding_events frame) w).
Proof.
  destruct frame as [b|e]; simpl.
  - unfold mret, M_ret. by rewrite push_nil.
  - done.
Qed.

(** A frame whose vision call raises is logged and adds nothing to the
    descriptions. *)
Lemma describe_frame_failure (vision_model : string) (descriptions : list string)
    (frame : Frame) (timestamp : Z) (w : World) (e : exn) :
  service w (calls w) = Fails e →
  describe_frame vision_model descriptions (frame, timestamp) w
  = (Ok descriptions, failed_frame vision_model frame e w).
Proof.
  intros Hfail. unfold describe_frame.
  erewrite bind_ok; [|apply convert_image_to_base64_run].
  erewrite try_raise.
  2:{ erewrite bind_raise; [done|].
      unfold chat_completions_create. cbn [service calls push].
      by rewrite Hfail. }
  done.
Qed.

Lemma failed_frame_service (vision_model : string) (frame : Frame) (e : exn) (w : World) :
  service (failed_frame vision_model frame e w) = service w
  ∧ calls (failed_frame vision_model frame e w) = S (calls w)
  ∧ api_key (failed_frame vision_model frame e w) = api_key w.
Proof. done. Qed.

Lemma describe_frames_all_fail (vision_model : string) (descriptions : list string)
    (frames : list (Frame * Z)) (w : World) :
  (∀ i, (i < length frames)%nat → ∃ e, service w (calls w + i)%nat = Fails e) →
  describe_frames vision_model descriptions frames w
  = (Ok descriptions, after_failed_frames vision_model frames w)
  ∧ service (after_failed_frames vision_model frames w) = service w
  ∧ calls (after_failed_frames vision_model frames w) = (calls w + length frames)%nat.
Proof.
  revert w. induction frames as [|[frame timestamp] rest IH]; intros w Hfail.
  { simpl. by rewrite Nat.add_0_r. }
  destruct (Hfail O) as [e He]; [simpl; lia|]. rewrite Nat.add_0_r in He.
  cbn [describe_frames after_failed_frames length]. rewrite He.
  erewrite bind_ok; [|by apply describe_frame_failure].
  destruct (IH (failed_frame vision_model frame e w)) as (Hrun & Hservice & Hcalls).
  { intros i Hi. destruct (Hfail (S i)) as [e' He']; [simpl; lia|].
    exists e'. cbn [service calls failed_frame push called].
    by rewrite <- He', Nat.add_succ_r. }
  rewrite Hrun, Hservice, Hcalls. cbn [calls failed_frame push called].
  repeat split. lia.
Qed.

(** C4, amended.  A frame whose vision call raises is logged and left
    out of the descriptions.  When the calls of all the selected frames
    raise, no description is left and the operation still goes on: it
    is the rest of the function run on the empty description, so the
    text model is called with a prompt built from the empty string and
    its reply decides the result. *)
Theorem video_frames_all_fail (frames : list (Frame * Z))
    (variables : list CodingVar) (custom_prompt : option string)
    (vision_model text_model : string) (w : World) :
  let selected := take (Nat.min (length frames) 4) frames in
  let w1 := after_failed_frames vision_model selected (push client_events w) in
  usable_key w →
  frames ≠ [] →
  (∀ i, (i < length selected)%nat → ∃ e, service w (calls w + i)%nat = Fails e) →
  (∀ descriptions frame timestamp w0 e,
     service w0 (calls w0) = Fails e →
     describe_frame vision_model descriptions (frame, timestamp) w0
     = (Ok descriptions, failed_frame vision_model frame e w0))
  ∧ describe_frames vision_model [] selected (push client_events w) = (Ok [], w1)
  ∧ auto_code_video json_loads frames variables custom_prompt vision_model text_model w
    = try_except
        (code_description json_loads EmptyString variables custom_prompt text_model)
        video_failed w1
  ∧ (∀ variables_text options_map reply j d w2,
       describe_variables (EmptyString, ∅) variables = Ok (variables_text, options_map) →
       service w (calls w + length selected)%nat = Returns (RespContent reply) →
       json_loads reply = Some j →
       validate false variables options_map j
         (called (video_request text_model EmptyString custom_prompt variables_text) w1)
       = (Ok d, w2) →
       auto_code_video json_loads frames variables custom_prompt vision_model text_model w
       = (Ok (Some d), w2)).
Proof.
  intros selected w1 Hkey Hframes Hfail.
  destruct (describe_frames_all_fail vision_model [] selected (push client_events w))
    as (Hrun & Hservice & Hcalls); [done|]. fold w1 in Hrun, Hservice, Hcalls.
  assert (auto_code_video json_loads frames variables custom_prompt vision_model
            text_model w
          = try_except
              (code_description json_loads EmptyString variables custom_prompt text_model)
              video_failed w1) as Hvideo.
  { unfold auto_code_video, try_except.
    erewrite bind_ok; [|by apply get_siliconflow_client_ok]. cbn [negb].
    destruct frames as [|ft rest]; [done|].
    fold selected. erewrite bind_ok; [|exact Hrun]. done. }
  split; [intros; by apply describe_frame_failure|].
  split; [done|]. split; [done|].
  intros variables_text options_map reply j d w2 Hvars Hreply Hj Hval.
  rewrite Hvideo. unfold try_except at 1, code_description.
  unfold lift. erewrite bind_ok; [|by rewrite Hvars]. cbv beta iota.
  erewrite try_ok; [done|].
  erewrite bind_ok.
  2:{ unfold chat_completions_create. rewrite Hservice, Hcalls.
      cbn [service calls push]. by rewrite Hreply. }
  cbv beta iota. unfold extract_json. rewrite Hj.
  erewrite bind_ok; [|reflexivity]. cbv beta iota.
  by erewrite fmap_ok.
Qed.

End CodingFacts.

(** ** The properties at concrete inputs *)

Section Instances.

(** *** [retry_with_backoff] *)

(** An operation that always raises, retried with [max_retries = 3],
    [initial_backoff = 1] and [backoff_factor = 2]: three runs, sleeps
    of 1 and 2 seconds; and a call that fails once, retried: two runs,
    one sleep of 1 second. *)
Lemma retry_with_backoff_attempts_witness :
  retry_with_backoff 3 1 2 "op" (raise (ServiceError "down") : M unit) unreachable
  = (Raise (ServiceError "down"),
     push [Invoke "op"; attempt_failed "op" 1 3 (ServiceError "down");
           waiting 1; Sleep 1;
           Invoke "op"; attempt_failed "op" 2 3 (ServiceError "down");
           waiting 2; Sleep 2;
           Invoke "op"; attempt_failed "op" 3 3 (ServiceError "down");
           gave_up "op" 3] unreachable)
  ∧ retry_with_backoff 3 1 2 "ask" ask (flaky "ok")
    = (Ok (RespContent "ok"),
       called (ChatText "deepseek-ai/DeepSeek-V2.5" "s" "u" (1 # 5) 10)
         (push [attempt_failed "ask" 1 3 (ServiceError "timed out");
                waiting 1; Sleep 1; Invoke "ask"]
            (called (ChatText "deepseek-ai/DeepSeek-V2.5" "s" "u" (1 # 5) 10)
               (push [Invoke "ask"] (flaky "ok"))))).
Proof.
  split.
  - destruct (proj1 (retry_with_backoff_attempts
                       (raise (ServiceError "down") : M unit) 1 2 "op" unreachable))
      as (e1 & w1 & e2 & w2 & e3 & w3 & H1 & H2 & H3 & Hrun).
    { intros w0. by exists (ServiceError "down"), w0. }
    rewrite Hrun. unfold raise in H1, H2, H3.
    injection H1 as <- <-. injection H2 as <- <-. injection H3 as <- <-.
    reflexivity.
  - apply (proj2 (retry_with_backoff_attempts ask 1 2 "ask" (flaky "ok")) 3
             (ServiceError "timed out")
             (called (ChatText "deepseek-ai/DeepSeek-V2.5" "s" "u" (1 # 5) 10)
                (push [Invoke "ask"] (flaky "ok")))).
    + lia.
    + reflexivity.
    + reflexivity.
Defined.

(** *** Percentage agreement *)


(** Two coders who give the same value: one comparison, one agreement,
    the result is 1. *)
Lemma percentage_agreement_spec_witness :
  comparisons_of (agreeing_coders 2) = 1%nat
  ∧ (calculate_percentage_agreement (agreeing_coders 2) == 1)%Q
  ∧ calculate_percentage_agreement disjoint_coders = 0%Q
  ∧ calculate_percentage_agreement (agreeing_coders 1) = 0%Q.
Proof.
  split; [reflexivity|]. split; [|split].
  - destruct (percentage_agreement_spec (agreeing_coders 2))
      as (_ & _ & _ & _ & _ & Hone).
    apply Hone.
    + vm_compute. lia.
    + intros oi oj var x y Hin Hx Hy.
      apply list_elem_of_singleton in Hin. injection Hin as -> ->.
      apply lookup_singleton_Some in Hx as [_ <-].
      by apply lookup_singleton_Some in Hy as [_ <-].
  - destruct (percentage_agreement_spec disjoint_coders)
      as (_ & _ & _ & Hzero & _ & _).
    apply Hzero. reflexivity.
  - destruct (percentage_agreement_spec (agreeing_coders 1))
      as (_ & _ & _ & _ & Hshort & _).
    apply Hshort. simpl. lia.
Defined.

(** *** The alpha coefficient *)


(** C3, counterexample.  One variable coded A by one coder and B by
    the other, and one variable that nobody coded: the per-variable
    value is 1/2; the code divides it by the 2 variables of
    [categories] and gets 1/4, the average over the variables with at
    least 2 observed values is 1/2. *)
Lemma expected_disagreement_counterexample :
  (expected_disagreement tone_and_unused split_coders == 1 # 4)%Q
  ∧ (claimed_expected_disagreement tone_and_unused split_coders == 1 # 2)%Q
  ∧ ¬ (expected_disagreement tone_and_unused split_coders
       == claimed_expected_disagreement tone_and_unused split_coders)%Q.
Proof.
  split; [by vm_compute|]. split; [by vm_compute|]. by vm_compute.
Qed.


(** C7, counterexample.  Two observations that share no variable: the
    code returns 0, and the claimed [1 - observed / expected] divides
    by zero. *)
Lemma krippendorff_alpha_counterexample :
  (2 ≤ length disjoint_coders)%nat
  ∧ calculate_krippendorff_alpha disjoint_coders tone_only = 0%Q
  ∧ alpha_as_claimed disjoint_coders tone_only = None
  ∧ Some (calculate_krippendorff_alpha disjoint_coders tone_only)
    ≠ alpha_as_claimed disjoint_coders tone_only.
Proof.
  split; [simpl; lia|]. split; [by vm_compute|]. split; [by vm_compute|].
  by vm_compute.
Qed.


(** Scenario C: five coders give the same value, the coefficient is 1;
    two coders who differ on the one variable get [1 - 1 / (1/2)];
    no shared variable, or a single observation, gives 0. *)
Lemma krippendorff_alpha_cases_witness :
  calculate_krippendorff_alpha (agreeing_coders 5) tone_only = 1%Q
  ∧ (calculate_krippendorff_alpha split_coders tone_only == -1)%Q
  ∧ calculate_krippendorff_alpha disjoint_coders tone_only = 0%Q
  ∧ calculate_krippendorff_alpha (agreeing_coders 1) tone_only = 0%Q.
Proof.
  split; [|split; [|split]].
  - apply (proj1 (proj2 (proj2 (proj2
             (krippendorff_alpha_cases (agreeing_coders 5) tone_only))))).
    + vm_compute. lia.
    + vm_compute. discriminate.
    + intros var x y Hvar Hx Hy.
      apply elem_of_dom in Hvar as [cs Hcs]. unfold tone_only in Hcs.
      apply lookup_singleton_Some in Hcs as [<- _]. clear cs.
      vm_compute in Hx, Hy.
      repeat (apply elem_of_cons in Hx as [->|Hx]);
        repeat (apply elem_of_cons in Hy as [->|Hy]);
        try reflexivity;
        try (by apply not_elem_of_nil in Hx);
        by apply not_elem_of_nil in Hy.
  - rewrite (proj2 (proj2 (proj2 (proj2
               (krippendorff_alpha_cases split_coders tone_only))))).
    + vm_compute. reflexivity.
    + vm_compute. lia.
    + vm_compute. discriminate.
    + vm_compute. discriminate.
  - apply (proj1 (proj2 (krippendorff_alpha_cases disjoint_coders tone_only))).
    vm_compute. reflexivity.
  - apply (proj1 (krippendorff_alpha_cases (agreeing_coders 1) tone_only)).
    vm_compute. lia.
Defined.


(** The value Positive is none of the options; the first option
    contains it in lower case and scores 7/8. *)
Lemma fuzzy_repair_deterministic_witness :
  ("Positive" ∉ (["positive"; "neutral"; "negative"] : list string))
  ∧ chosen_option "Positive" ["positive"; "neutral"; "negative"] = "positive"
  ∧ ∃ events,
      fuzzy_repair "sentiment" (JStr "Positive") ["positive"; "neutral"; "negative"]
        ∅ unreachable
      = (Ok {[ "sentiment" := JStr "positive" ]}, push events unreachable).
Proof.
  assert ("Positive" ∉ (["positive"; "neutral"; "negative"] : list string)) as Hnot.
  { apply (bool_decide_eq_false_1 _). reflexivity. }
  split; [exact Hnot|]. split; [reflexivity|].
  exact (proj1 (fuzzy_repair_deterministic "sentiment" "Positive"
                  ["positive"; "neutral"; "negative"] ∅ unreachable Hnot)).
Defined.

End Instances.

Section CodingInstances.

(** *** Replies that are JSON but not an object *)

(** C2, counterexample.  Scenario A: the model replies with the JSON
    string positive, quotes included.  The first stage decodes it, no
    variable name occurs in it, and the operation returns the empty
    mapping, which is not the failure value. *)
Lemma bare_scalar_counterexample :
  Json.loads bare_positive = Some (JStr "positive")
  ∧ has_char "{" bare_positive = false
  ∧ (auto_code_content Json.loads scenario_A_content [sentiment] None
       (replying bare_positive)).1 = Ok (Some ∅)
  ∧ (auto_code_content Json.loads scenario_A_content [sentiment] None
       (replying bare_positive)).1 ≠ Ok None.
Proof.
  split; [reflexivity|]. split; [reflexivity|].
  split; [vm_compute; reflexivity|]. vm_compute. discriminate.
Qed.

(** The three cases of the amended property: the string positive, a
    string that holds the variable's name, and a number. *)
Lemma bare_scalar_reply_witness :
  (auto_code_content Json.loads scenario_A_content [sentiment] None
     (replying bare_positive)).1 = Ok (Some ∅)
  ∧ (auto_code_content Json.loads scenario_A_content [sentiment] None
       (replying (dq +:+ "sentiment: positive" +:+ dq))).1 = Ok None
  ∧ (auto_code_content Json.loads scenario_A_content [sentiment] None
       (replying "42")).1 = Ok None.
Proof.
  split; [|split].
  - apply (proj1 (bare_scalar_reply Json.loads scenario_A_content [sentiment] None
                    (replying bare_positive)
                    ("sentiment (select) [选项: positive, neutral, negative]"
                     +:+ nl +:+ nl)
                    {[ "sentiment" := ["positive"; "neutral"; "negative"] ]}
                    bare_positive
                    ltac:(vm_compute; discriminate)
                    ltac:(vm_compute; reflexivity)
                    ltac:(reflexivity)) "positive").
    + vm_compute. reflexivity.
    + intros v Hv. apply list_elem_of_singleton in Hv as ->.
      vm_compute. reflexivity.
  - apply (proj1 (proj2
             (bare_scalar_reply Json.loads scenario_A_content [sentiment] None
                (replying (dq +:+ "sentiment: positive" +:+ dq))
                ("sentiment (select) [选项: positive, neutral, negative]"
                 +:+ nl +:+ nl)
                {[ "sentiment" := ["positive"; "neutral"; "negative"] ]}
                (dq +:+ "sentiment: positive" +:+ dq)
                ltac:(vm_compute; discriminate)
                ltac:(vm_compute; reflexivity)
                ltac:(reflexivity))) "sentiment: positive").
    + vm_compute. reflexivity.
    + exists sentiment. split; [by left|]. vm_compute. reflexivity.
  - apply (proj2 (proj2
             (bare_scalar_reply Json.loads scenario_A_content [sentiment] None
                (replying "42")
                ("sentiment (select) [选项: positive, neutral, negative]"
                 +:+ nl +:+ nl)
                {[ "sentiment" := ["positive"; "neutral"; "negative"] ]}
                "42"
                ltac:(vm_compute; discriminate)
                ltac:(vm_compute; reflexivity)
                ltac:(reflexivity))) (JInt 42)).
    + vm_compute. reflexivity.
    + reflexivity.
    + discriminate.
Defined.

(** *** The stages of the extraction *)

(** Scenario D through the fenced stage, a bare object through the
    first stage although a fenced block follows it, and two lines
    through the line stage. *)
Lemma extract_stage_order_witness :
  extract Json.loads [topic] ∅ scenario_D unreachable
  = (Ok (Some {[ "topic" := JStr "tech" ]}), unreachable)
  ∧ extract Json.loads [topic] ∅ scenario_D_block unreachable
    = (Ok (Some {[ "topic" := JStr "tech" ]}), unreachable)
  ∧ extract Json.loads [topic] ∅ ("note" +:+ nl +:+ " topic = a=b ") unreachable
    = (Ok (Some {[ "topic" := JStr "a=b" ]}), unreachable).
Proof.
  split; [|split].
  - rewrite (proj1 (proj2 (extract_stage_order Json.loads [topic] ∅ scenario_D
                             unreachable))
               scenario_D_block (JObj topic_tech)
               ltac:(vm_compute; reflexivity) ltac:(vm_compute; reflexivity)
               ltac:(vm_compute; reflexivity)).
    vm_compute. reflexivity.
  - rewrite (proj1 (extract_stage_order Json.loads [topic] ∅ scenario_D_block
                      unreachable)
               (JObj topic_tech) ltac:(vm_compute; reflexivity)).
    vm_compute. reflexivity.
  - destruct (proj1 (proj2 (proj2
                (extract_stage_order Json.loads [topic] ∅
                   ("note" +:+ nl +:+ " topic = a=b ") unreachable)))
                ltac:(vm_compute; reflexivity) ltac:(vm_compute; reflexivity))
      as (m & Hm & Hrun).
    rewrite Hrun. clear Hrun. vm_compute in Hm. injection Hm as <-.
    vm_compute. reflexivity.
Defined.

(** *** The handler that returns unvalidated lines *)

(** C1, at the failing input.  The reply holds braces that are not
    JSON and the line sentiment=great.  The first stage fails, no fence
    matches, the text between the braces does not decode, and the
    handler returns the parsed lines as they are: the categorical
    variable gets a value that is none of its options. *)
Theorem unvalidated_lines_escape :
  describe_variables (EmptyString, ∅) [sentiment]
  = Ok ("sentiment (select) [选项: positive, neutral, negative]" +:+ nl +:+ nl,
        {[ "sentiment" := ["positive"; "neutral"; "negative"] ]})
  ∧ Json.loads braces_then_line = None
  ∧ Re.search_fenced braces_then_line = None
  ∧ Json.loads (slice (find "{" braces_then_line) (rfind "}" braces_then_line + 1)
                  braces_then_line) = None
  ∧ (auto_code_content Json.loads scenario_A_content [sentiment] None
       (replying braces_then_line)).1
    = Ok (Some {[ "sentiment" := JStr "great" ]})
  ∧ "great" ∉ (["positive"; "neutral"; "negative"] : list string).
Proof.
  repeat split; try (vm_compute; reflexivity).
  apply (bool_decide_eq_false_1 _). reflexivity.
Qed.

(** *** An options string without options *)

(** C10, at the failing input.  The options string of [stance] holds
    separators only: the variable is registered with the empty list.
    A direct JSON reply, a reply with text around the braces and a
    key=value line all give the empty string; the same object inside a
    fence leaves the variable out of the result. *)
Theorem empty_options_fenced_omits :
  describe_variables (EmptyString, ∅) [stance]
  = Ok ("stance (select)" +:+ nl +:+ nl, {[ "stance" := [] ]})
  ∧ (auto_code_content Json.loads scenario_A_content [stance] None
       (replying stance_object)).1
    = Ok (Some {[ "stance" := JStr EmptyString ]})
  ∧ (auto_code_content Json.loads scenario_A_content [stance] None
       (replying ("Result: " +:+ stance_object +:+ " done"))).1
    = Ok (Some {[ "stance" := JStr EmptyString ]})
  ∧ (auto_code_content Json.loads scenario_A_content [stance] None
       (replying "stance = agree")).1
    = Ok (Some {[ "stance" := JStr EmptyString ]})
  ∧ Re.search_fenced stance_fenced = Some stance_object
  ∧ (auto_code_content Json.loads scenario_A_content [stance] None
       (replying stance_fenced)).1
    = Ok (Some ∅).
Proof. repeat split; vm_compute; reflexivity. Qed.

(** *** Video frames that all fail *)

(** C4, counterexample.  One frame whose vision call raises, and a
    text model that replies with the object of Scenario D: the frame is
    logged and left out, the text model is called with a prompt built
    from the empty description, and the operation returns a mapping,
    not the failure value. *)
Lemma video_frames_all_fail_counterexample :
  (auto_code_video Json.loads [(Image "QUJD", 0)] [topic] None
     "Qwen/Qwen2-VL-72B-Instruct" "deepseek-ai/DeepSeek-V2.5"
     (flaky scenario_D_block)).1
  = Ok (Some {[ "topic" := JStr "tech" ]})
  ∧ (auto_code_video Json.loads [(Image "QUJD", 0)] [topic] None
       "Qwen/Qwen2-VL-72B-Instruct" "deepseek-ai/DeepSeek-V2.5"
       (flaky scenario_D_block)).1
    ≠ Ok None
  ∧ trace (auto_code_video Json.loads [(Image "QUJD", 0)] [topic] None
             "Qwen/Qwen2-VL-72B-Instruct" "deepseek-ai/DeepSeek-V2.5"
             (flaky scenario_D_block)).2
    = client_events
      ++ [Chat (vision_request "Qwen/Qwen2-VL-72B-Instruct" (Image "QUJD"));
          Log ERROR "分析视频帧失败: {str(e)}" [AExn (ServiceError "timed out")];
          Chat (video_request "deepseek-ai/DeepSeek-V2.5" EmptyString None
                  ("topic (文本)" +:+ nl +:+ nl))].
Proof.
  split; [vm_compute; reflexivity|].
  split; [vm_compute; discriminate|].
  vm_compute. reflexivity.
Qed.

(** The same session through the amended property. *)
Lemma video_frames_all_fail_witness :
  auto_code_video Json.loads [(Image "QUJD", 0)] [topic] None
    "Qwen/Qwen2-VL-72B-Instruct" "deepseek-ai/DeepSeek-V2.5"
    (flaky scenario_D_block)
  = (Ok (Some {[ "topic" := JStr "tech" ]}),
     called (video_request "deepseek-ai/DeepSeek-V2.5" EmptyString None
               ("topic (文本)" +:+ nl +:+ nl))
       (after_failed_frames "Qwen/Qwen2-VL-72B-Instruct" [(Image "QUJD", 0)]
          (push client_events (flaky scenario_D_block)))).
Proof.
  apply (proj2 (proj2 (proj2
           (video_frames_all_fail Json.loads [(Image "QUJD", 0)] [topic] None
              "Qwen/Qwen2-VL-72B-Instruct" "deepseek-ai/DeepSeek-V2.5"
              (flaky scenario_D_block)
              ltac:(vm_compute; discriminate)
              ltac:(discriminate)
              ltac:(intros [|i] Hi;
                    [exists (ServiceError "timed out"); reflexivity
                    |simpl in Hi; lia]))))
         ("topic (文本)" +:+ nl +:+ nl) ∅ scenario_D_block
         (JObj topic_tech)).
  - vm_compute. reflexivity.
  - vm_compute. reflexivity.
  - vm_compute. reflexivity.
  - vm_compute. reflexivity.
Defined.

End CodingInstances.

(** * Further properties *)

(** ** What validation stores, and for which variables *)

Section ValidationMore.

Lemma assign_match_run (name : string) (value : JValue) (valid_options : list string)
    (best : option string * Q) (valid_coding : gmap string JValue) (w : World) :
  ∃ events,
    assign_match name value valid_options best valid_coding w
    = (Ok (<[name := repaired valid_options best]> valid_coding), push events w).
Proof.
  unfold assign_match, repaired. destruct (accepted best).
  - exists []. by rewrite push_nil.
  - by eexists [_].
Qed.

Lemma fuzzy_repair_run (name : string) (value : JValue) (valid_options : list string)
    (valid_coding : gmap string JValue) (w : World) :
  match fuzzy_loop value valid_options (None, 0%Q) with
  | Ok best =>
      ∃ events,
        fuzzy_repair name value valid_options valid_coding w
        = (Ok (<[name := repaired valid_options best]> valid_coding), push events w)
  | Raise e =>
      fuzzy_repair name value valid_options valid_coding w = (Raise e, w)
  end.
Proof.
  unfold fuzzy_repair, lift.
  destruct (fuzzy_loop value valid_options (None, 0%Q)) as [best|e] eqn:Hloop.
  - destruct (assign_match_run name value valid_options best valid_coding w)
      as [events Hrun].
    exists events. by erewrite bind_ok.
  - by erewrite bind_raise.
Qed.

(** The copy of the repair whose assignment sits inside the loop ends
    with the assignment of the last iteration. *)
Lemma fuzzy_repair_fenced_loop_run (name : string) (value : JValue)
    (valid_options options : list string) (best : option string * Q)
    (valid_coding : gmap string JValue) (w : World) :
  options ≠ [] →
  match fuzzy_loop value options best with
  | Ok final =>
      ∃ events,
        fuzzy_repair_fenced_loop name value valid_options options best valid_coding w
        = (Ok (<[name := repaired valid_options final]> valid_coding), push events w)
  | Raise e =>
      ∃ events,
        fuzzy_repair_fenced_loop name value valid_options options best valid_coding w
        = (Raise e, push events w)
  end.
Proof.
  revert best valid_coding w.
  induction options as [|o rest IH]; intros best valid_coding w Hne; [done|].
  cbn [fuzzy_loop fuzzy_repair_fenced_loop]. unfold lift.
  destruct (fuzzy_step value best o) as [best'|e] eqn:Hstep; cbn [mbind Result_bind].
  - destruct (assign_match_run name value valid_options best' valid_coding w)
      as [events Hassign].
    erewrite bind_ok; [|reflexivity]. erewrite bind_ok; [|exact Hassign].
    destruct rest as [|o' rest'].
    + exists events. reflexivity.
    + specialize (IH best' (<[name := repaired valid_options best']> valid_coding)
                    (push events w) ltac:(done)).
      destruct (fuzzy_loop value (o' :: rest') best') as [final|e].
      * destruct IH as [events' ->]. exists (events ++ events').
        by rewrite insert_insert_eq, push_push.
      * destruct IH as [events' ->]. exists (events ++ events').
        by rewrite push_push.
  - exists []. erewrite bind_raise; [|reflexivity]. by rewrite push_nil.
Qed.

(** One variable, in either copy of the block: what is stored does not
    depend on the world, and the world only gains log records. *)
Lemma validate_variable_run (fenced : bool) (options_map : gmap string (list string))
    (coding : JValue) (valid_coding : gmap string JValue) (v : CodingVar) (w : World) :
  ∃ events,
    validate_variable fenced options_map coding valid_coding v w
    = (stored_for fenced options_map coding valid_coding v, push events w).
Proof.
  unfold validate_variable, stored_for, lift.
  destruct (py_in (var_name v) coding) as [[|]|e] eqn:Hin.
  2:{ exists []. erewrite bind_ok; [|reflexivity]. by rewrite push_nil. }
  2:{ exists []. erewrite bind_raise; [|reflexivity]. by rewrite push_nil. }
  erewrite bind_ok; [|reflexivity]. cbv beta iota.
  destruct (py_getitem coding (var_name v)) as [value|e] eqn:Hget.
  2:{ exists []. erewrite bind_raise; [|reflexivity]. by rewrite push_nil. }
  erewrite bind_ok; [|reflexivity]. cbv beta iota.
  destruct (if is_categorical (var_type v) then options_map !! var_name v else None)
    as [valid_options|].
  2:{ exists []. by rewrite push_nil. }
  destruct (value_in value valid_options).
  { exists []. by rewrite push_nil. }
  destruct fenced.
  - destruct valid_options as [|o rest].
    + exists []. by rewrite push_nil.
    + pose proof (fuzzy_repair_fenced_loop_run (var_name v) value (o :: rest)
                    (o :: rest) (None, 0%Q) valid_coding w ltac:(done)) as Hrun.
      unfold fuzzy_repair_fenced.
      destruct (fuzzy_loop value (o :: rest) (None, 0%Q)); exact Hrun.
  - pose proof (fuzzy_repair_run (var_name v) value valid_options valid_coding w)
      as Hrun.
    destruct valid_options as [|o rest].
    + cbn [fuzzy_loop] in Hrun. exact Hrun.
    + destruct (fuzzy_loop value (o :: rest) (None, 0%Q)); [exact Hrun|].
      exists []. by rewrite push_nil.
Qed.

(** The validation block computes [stored] and only adds log records. *)
Lemma validate_loop_run (fenced : bool) (options_map : gmap string (list string))
    (coding : JValue) (variables : list CodingVar)
    (valid_coding : gmap string JValue) (w : World) :
  ∃ events,
    validate_loop fenced options_map coding variables valid_coding w
    = (stored fenced options_map coding variables valid_coding, push events w).
Proof.
  revert valid_coding w. induction variables as [|v rest IH]; intros valid_coding w.
  { exists []. by rewrite push_nil. }
  cbn [validate_loop stored].
  destruct (validate_variable_run fenced options_map coding valid_coding v w)
    as [events Hv].
  destruct (stored_for fenced options_map coding valid_coding v) as [d|e].
  - erewrite bind_ok; [|exact Hv].
    destruct (IH d (push events w)) as [events' ->].
    exists (events ++ events'). by rewrite push_push.
  - erewrite bind_raise; [|exact Hv]. by exists events.
Qed.

Lemma stored_for_keys (fenced : bool) (options_map : gmap string (list string))
    (coding : JValue) (valid_coding d : gmap string JValue) (v : CodingVar) (k : string) :
  stored_for fenced options_map coding valid_coding v = Ok d →
  (k ≠ var_name v → d !! k = valid_coding !! k)
  ∧ (is_Some (d !! k) →
     is_Some (valid_coding !! k) ∨ (k = var_name v ∧ py_in k coding = Ok true)).
Proof.
  unfold stored_for.
  destruct (py_in (var_name v) coding) as [[|]|e] eqn:Hin; [|by intros [= <-]; auto|done].
  assert (∀ x, (k ≠ var_name v → <[var_name v := x]> valid_coding !! k = valid_coding !! k)
               ∧ (is_Some (<[var_name v := x]> valid_coding !! k) →
                  is_Some (valid_coding !! k) ∨ (k = var_name v ∧ py_in k coding = Ok true)))
    as Hinsert.
  { intros x. split; [intros Hne; by rewrite lookup_insert_ne|].
    destruct (decide (k = var_name v)) as [->|Hne]; [by right|].
    rewrite lookup_insert_ne by done. by left. }
  destruct (py_getitem coding (var_name v)) as [value|e]; [|done].
  destruct (if is_categorical (var_type v) then options_map !! var_name v else None)
    as [valid_options|]; [|intros [= <-]; apply Hinsert].
  destruct (value_in value valid_options); [intros [= <-]; apply Hinsert|].
  destruct valid_options as [|o rest].
  - destruct fenced; intros [= <-]; [auto|apply Hinsert].
  - destruct (fuzzy_loop value (o :: rest) (None, 0%Q)); [|done].
    intros [= <-]. apply Hinsert.
Qed.

Lemma stored_keys (fenced : bool) (options_map : gmap string (list string))
    (coding : JValue) (variables : list CodingVar) (valid_coding d : gmap string JValue)
    (k : string) :
  stored fenced options_map coding variables valid_coding = Ok d →
  (k ∉ var_name <$> variables → d !! k = valid_coding !! k)
  ∧ (is_Some (d !! k) →
     is_Some (valid_coding !! k)
     ∨ (k ∈ var_name <$> variables ∧ py_in k coding = Ok true)).
Proof.
  revert valid_coding. induction variables as [|v rest IH]; intros valid_coding.
  { intros [= <-]. auto. }
  cbn [stored].
  destruct (stored_for fenced options_map coding valid_coding v) as [d'|e] eqn:Hv;
    [|done].
  intros Hrest. destruct (IH _ Hrest) as [Hother Hsome].
  destruct (stored_for_keys _ _ _ _ _ _ k Hv) as [Hother' Hsome'].
  rewrite fmap_cons. split.
  - intros Hnot. apply not_elem_of_cons in Hnot as [Hne Hnot].
    by rewrite Hother, Hother'.
  - intros Hd. destruct (Hsome Hd) as [Hd'|[Hin Hpy]].
    + destruct (Hsome' Hd') as [?|[-> Hpy]]; [by left|].
      right. split; [by left|done].
    + right. split; [by right|done].
Qed.

Lemma stored_app (fenced : bool) (options_map : gmap string (list string))
    (coding : JValue) (l1 l2 : list CodingVar) (valid_coding : gmap string JValue) :
  stored fenced options_map coding (l1 ++ l2) valid_coding
  = match stored fenced options_map coding l1 valid_coding with
    | Ok d => stored fenced options_map coding l2 d
    | Raise e => Raise e
    end.
Proof.
  revert valid_coding. induction l1 as [|v l1 IH]; intros valid_coding; [done|].
  cbn [app stored].
  by destruct (stored_for fenced options_map coding valid_coding v).
Qed.

Lemma accepted_fst (best : option string * Q) (o : string) :
  accepted best = Some o → best.1 = Some o.
Proof.
  unfold accepted. destruct best.1 as [[|c r]|]; [done| |done].
  by destruct (Qltb _ _); intros [= <-].
Qed.

(** The loop only ever holds an option of the list as [best_match]. *)
Lemma fuzzy_loop_member (value : JValue) (options : list string)
    (best final : option string * Q) :
  fuzzy_loop value options best = Ok final →
  final.1 = best.1 ∨ ∃ o, o ∈ options ∧ final.1 = Some o.
Proof.
  revert best. induction options as [|o rest IH]; intros best.
  { intros [= <-]. by left. }
  cbn [fuzzy_loop]. destruct (fuzzy_step value best o) as [best'|e] eqn:Hstep; [|done].
  cbn [mbind Result_bind]. intros Hrest.
  assert (best'.1 = best.1 ∨ best'.1 = Some o) as Hbest'.
  { revert Hstep. unfold fuzzy_step. destruct value; try done.
    destruct (_ || _); [|by intros [= <-]; left].
    destruct (fuzzy_score o s); [|done]. cbn [mbind Result_bind].
    destruct (Qltb _ _); intros [= <-]; auto. }
  destruct (IH _ Hrest) as [Hsame|(o' & Hin & Ho')].
  - rewrite Hsame. destruct Hbest' as [?|?]; [by left|].
    right. exists o. split; [by left|done].
  - right. exists o'. split; [by right|done].
Qed.

Lemma repaired_member (value : JValue) (valid_options : list string)
    (best : option string * Q) :
  valid_options ≠ [] →
  fuzzy_loop value valid_options (None, 0%Q) = Ok best →
  ∃ o, o ∈ valid_options ∧ repaired valid_options best = JStr o.
Proof.
  intros Hne Hloop. unfold repaired.
  destruct (accepted best) as [o|] eqn:Hacc.
  - apply accepted_fst in Hacc.
    destruct (fuzzy_loop_member _ _ _ _ Hloop) as [Hsame|(o' & Hin & Ho')].
    + rewrite Hacc in Hsame. done.
    + exists o'. split; [done|]. congruence.
  - destruct valid_options as [|o rest]; [done|].
    exists o. split; [by left|done].
Qed.

Lemma stored_for_member (fenced : bool) (options_map : gmap string (list string))
    (coding : JValue) (valid_coding d : gmap string JValue) (v : CodingVar)
    (valid_options : list string) (x : JValue) :
  is_categorical (var_type v) = true →
  options_map !! var_name v = Some valid_options →
  valid_options ≠ [] →
  valid_coding !! var_name v = None →
  stored_for fenced options_map coding valid_coding v = Ok d →
  d !! var_name v = Some x →
  ∃ o, o ∈ valid_options ∧ x = JStr o.
Proof.
  intros Hcat Hopts Hne Hfresh. unfold stored_for. rewrite Hcat, Hopts.
  destruct (py_in (var_name v) coding) as [[|]|e]; [|intros [= <-]; congruence|done].
  destruct (py_getitem coding (var_name v)) as [value|e]; [|done].
  destruct (value_in value valid_options) eqn:Hin.
  - intros [= <-]. rewrite lookup_insert_eq. intros [= <-].
    destruct value; try done. exists s. split; [|done].
    by apply bool_decide_eq_true in Hin.
  - destruct valid_options as [|o rest]; [done|].
    destruct (fuzzy_loop value (o :: rest) (None, 0%Q)) as [best|e] eqn:Hloop; [|done].
    intros [= <-]. rewrite lookup_insert_eq. intros [= <-].
    by eapply repaired_member.
Qed.

(** On option lists that are not empty the two copies of the block
    store the same. *)
Lemma stored_fenced_agrees (options_map : gmap string (list string))
    (coding : JValue) (variables : list CodingVar) (valid_coding : gmap string JValue) :
  (∀ v valid_options,
     v ∈ variables → is_categorical (var_type v) = true →
     options_map !! var_name v = Some valid_options → valid_options ≠ []) →
  stored true options_map coding variables valid_coding
  = stored false options_map coding variables valid_coding.
Proof.
  revert valid_coding. induction variables as [|v rest IH]; intros valid_coding Hne;
    [done|].
  cbn [stored].
  assert (stored_for true options_map coding valid_coding v
          = stored_for false options_map coding valid_coding v) as ->.
  { unfold stored_for.
    destruct (py_in (var_name v) coding) as [[|]|e]; try done.
    destruct (py_getitem coding (var_name v)) as [value|e]; [|done].
    destruct (is_categorical (var_type v)) eqn:Hcat; [|done].
    destruct (options_map !! var_name v) as [valid_options|] eqn:Hopts; [|done].
    destruct (value_in value valid_options); [done|].
    destruct valid_options as [|o r]; [|done].
    by destruct (Hne v [] ltac:(by left) Hcat Hopts). }
  destruct (stored_for false options_map coding valid_coding v); [|done].
  apply IH. intros v' opts Hin. apply Hne. by right.
Qed.

(** X1.  Whatever the copy of the block, every key of the validated
    mapping is the name of a variable that the candidate mapping holds:
    a variable that the candidate lacks is left out, never defaulted, and
    no key is invented. *)
Theorem validate_omits_absent (fenced : bool) (variables : list CodingVar)
    (options_map : gmap string (list string)) (coding : JValue)
    (w w' : World) (d : gmap string JValue) :
  validate fenced variables options_map coding w = (Ok d, w') →
  (∀ name, is_Some (d !! name) →
     name ∈ var_name <$> variables ∧ py_in name coding = Ok true)
  ∧ (∀ m name, coding = JObj m → m !! name = None → d !! name = None).
Proof.
  unfold validate. intros Hrun.
  destruct (validate_loop_run fenced options_map coding variables ∅ w)
    as [events Hloop].
  rewrite Hloop in Hrun. injection Hrun as Hd _.
  assert (∀ name, is_Some (d !! name) →
            name ∈ var_name <$> variables ∧ py_in name coding = Ok true) as Hkeys.
  { intros name Hsome.
    destruct (proj2 (stored_keys _ _ _ _ _ _ name Hd) Hsome) as [Hempty|?]; [|done].
    rewrite lookup_empty in Hempty. by destruct Hempty. }
  split; [exact Hkeys|].
  intros m name -> Hm. destruct (d !! name) as [x|] eqn:Hx; [|done].
  destruct (Hkeys name ltac:(eauto)) as [_ Hpy]. simpl in Hpy.
  injection Hpy as Hpy. apply bool_decide_eq_true in Hpy.
  rewrite Hm in Hpy. by destruct Hpy.
Qed.

(** X2.  With distinct variable names, a categorical variable that is
    registered with a non-empty option list only ever gets one of its
    options from the validation block, in either copy. *)
Theorem validate_option_containment (fenced : bool) (variables : list CodingVar)
    (options_map : gmap string (list string)) (coding : JValue)
    (w w' : World) (d : gmap string JValue) (v : CodingVar)
    (valid_options : list string) (x : JValue) :
  NoDup (var_name <$> variables) →
  v ∈ variables →
  is_categorical (var_type v) = true →
  options_map !! var_name v = Some valid_options →
  valid_options ≠ [] →
  validate fenced variables options_map coding w = (Ok d, w') →
  d !! var_name v = Some x →
  ∃ o, o ∈ valid_options ∧ x = JStr o.
Proof.
  intros Hnodup Hin Hcat Hopts Hne Hrun Hx. unfold validate in Hrun.
  destruct (validate_loop_run fenced options_map coding variables ∅ w)
    as [events Hloop].
  rewrite Hloop in Hrun. injection Hrun as Hd _.
  apply list_elem_of_split in Hin as (l1 & l2 & ->).
  rewrite fmap_app, fmap_cons in Hnodup.
  apply NoDup_app in Hnodup as (_ & Hdisj & Hnodup2).
  apply NoDup_cons in Hnodup2 as [Hnot2 _].
  rewrite stored_app in Hd.
  destruct (stored fenced options_map coding l1 ∅) as [d1|e] eqn:H1; [|done].
  cbn [stored] in Hd.
  destruct (stored_for fenced options_map coding d1 v) as [d2|e] eqn:H2; [|done].
  assert (d1 !! var_name v = None) as Hfresh.
  { rewrite (proj1 (stored_keys _ _ _ _ _ _ (var_name v) H1)); [by rewrite lookup_empty|].
    intros Hl1. apply (Hdisj _ Hl1). by left. }
  rewrite (proj1 (stored_keys _ _ _ _ _ _ (var_name v) Hd) Hnot2) in Hx.
  by eapply stored_for_member.
Qed.

(** X3.  When every categorical variable is registered with a non-empty
    option list, the copy of the block used for fenced replies, whose
    assignment sits inside the loop over the options, returns exactly
    what the other copies return, or raises the same exception. *)
Theorem validate_fenced_agrees (variables : list CodingVar)
    (options_map : gmap string (list string)) (coding : JValue) (w1 w2 : World) :
  (∀ v valid_options,
     v ∈ variables → is_categorical (var_type v) = true →
     options_map !! var_name v = Some valid_options → valid_options ≠ []) →
  (validate true variables options_map coding w1).1
  = (validate false variables options_map coding w2).1.
Proof.
  intros Hne. unfold validate.
  destruct (validate_loop_run true options_map coding variables ∅ w1) as [ev1 ->].
  destruct (validate_loop_run false options_map coding variables ∅ w2) as [ev2 ->].
  cbn [fst]. by apply stored_fenced_agrees.
Qed.

End ValidationMore.

(** ** The decorator in general *)

Section RetryMore.
Context {A : Type}.
Variables (initial_backoff backoff_factor : Z) (name : string) (func : M A).

Lemma slept_app (l k : list Event) : slept (l ++ k) = slept l ++ slept k.
Proof. apply omap_app. Qed.

Lemma invocations_app (l k : list Event) :
  invocations (l ++ k) = (invocations l + invocations k)%nat.
Proof. unfold invocations. by rewrite omap_app, length_app. Qed.

(** The loop on an operation that fails whenever it is run, with
    [fuel] runs left. *)
Lemma retry_loop_exhausts (max_retries : Z) (fuel r : nat) (last : option exn)
    (w : World) :
  max_retries = Z.of_nat r + Z.of_nat fuel →
  (∀ w0, ∃ e w1 events,
     func w0 = (Raise e, w1) ∧ trace w1 = trace w0 ++ events
     ∧ slept events = [] ∧ invocations events = O) →
  ∃ e w' events,
    retry_loop max_retries backoff_factor name func fuel initial_backoff
      (Z.of_nat r) last w = (Raise e, w')
    ∧ trace w' = trace w ++ events
    ∧ slept events
      = (λ k : nat, initial_backoff * backoff_factor ^ Z.of_nat k) <$> seq r (fuel - 1)
    ∧ invocations events = fuel.
Proof.
  intros Hmax Hfail. revert r last w Hmax.
  induction fuel as [|fuel IH]; intros r last w Hmax.
  { exists (default TypeError last), w, []. rewrite app_nil_r.
    repeat split. cbn [retry_loop].
    assert ((Z.of_nat r <? max_retries) = false) as -> by lia. by destruct last. }
  destruct (Hfail (push [Invoke name] w)) as (e & w1 & events & Hf & Htrace & Hs & Hi).
  destruct fuel as [|fuel].
  - exists e, (push [attempt_failed name max_retries max_retries e;
                     gave_up name max_retries] w1),
      ([Invoke name] ++ events ++ [attempt_failed name max_retries max_retries e;
                                   gave_up name max_retries]).
    split; [by apply retry_loop_last_failure; [lia|]|].
    split; [cbn [trace push]; rewrite Htrace; cbn [trace push];
            by rewrite <- !app_assoc|].
    rewrite !slept_app, !invocations_app, Hs, Hi. done.
  - destruct (IH (S r) (Some e)
                (push [attempt_failed name (Z.of_nat r + 1) max_retries e;
                       waiting (initial_backoff * backoff_factor ^ Z.of_nat r);
                       Sleep (initial_backoff * backoff_factor ^ Z.of_nat r)] w1))
      as (e' & w' & events' & Hrun & Htrace' & Hs' & Hi'); [lia|].
    exists e', w',
      ([Invoke name] ++ events
       ++ [attempt_failed name (Z.of_nat r + 1) max_retries e;
           waiting (initial_backoff * backoff_factor ^ Z.of_nat r);
           Sleep (initial_backoff * backoff_factor ^ Z.of_nat r)] ++ events').
    split.
    { rewrite (retry_loop_failure _ _ _ _ _ _ _ _ _ w1 e) by (done || lia).
      replace (Z.of_nat (S r)) with (Z.of_nat r + 1) in Hrun by lia. exact Hrun. }
    split.
    { rewrite Htrace'. cbn [trace push]. rewrite Htrace. cbn [trace push].
      by rewrite <- !app_assoc. }
    rewrite !slept_app, !invocations_app, Hs, Hi, Hs', Hi'.
    replace (S (S fuel) - 1)%nat with (S fuel) by lia.
    replace (S fuel - 1)%nat with fuel by lia.
    split; [done|]. cbn. lia.
Qed.

End RetryMore.

(** X4.  For every [max_retries = n], an operation that fails whenever
    it is run (and neither sleeps nor runs a decorated function itself)
    is run exactly [n] times; the waits are
    [initial_backoff * backoff_factor ^ k] for [k = 0 .. n - 2], in this
    order, so none follows the last run; and an exception is raised. *)
Theorem retry_with_backoff_exhausts {A : Type} (func : M A) (n : nat)
    (initial_backoff backoff_factor : Z) (name : string) (w : World) :
  (∀ w0, ∃ e w1 events,
     func w0 = (Raise e, w1) ∧ trace w1 = trace w0 ++ events
     ∧ slept events = [] ∧ invocations events = O) →
  ∃ e w' events,
    retry_with_backoff (Z.of_nat n) initial_backoff backoff_factor name func w
    = (Raise e, w')
    ∧ trace w' = trace w ++ events
    ∧ slept events
      = (λ k : nat, initial_backoff * backoff_factor ^ Z.of_nat k) <$> seq 0 (n - 1)
    ∧ invocations events = n.
Proof.
  intros Hfail. unfold retry_with_backoff. rewrite Nat2Z.id.
  apply (retry_loop_exhausts initial_backoff backoff_factor name func (Z.of_nat n) n 0 None w);
    [lia|done].
Qed.

(** X5.  With [max_retries] zero or negative the loop is not entered:
    the operation is never run, nothing is logged, and
    [raise last_exception] raises a [TypeError], [last_exception] being
    [None]. *)
Theorem retry_with_backoff_no_attempt {A : Type} (func : M A)
    (max_retries initial_backoff backoff_factor : Z) (name : string) (w : World) :
  max_retries ≤ 0 →
  retry_with_backoff max_retries initial_backoff backoff_factor name func w
  = (Raise TypeError, w).
Proof.
  intros Hle. unfold retry_with_backoff.
  destruct (Z.to_nat max_retries) eqn:Hfuel; [|lia].
  cbn [retry_loop]. by assert ((0 <? max_retries) = false) as -> by lia.
Qed.

(** ** Remote calls *)

Section CallFacts.

Lemma makes_at_most_ret {A} (a : A) : makes_at_most 0 (mret a : M A).
Proof. intros w. cbn. lia. Qed.

Lemma makes_at_most_raise {A} (e : exn) : makes_at_most 0 (raise e : M A).
Proof. intros w. cbn. lia. Qed.

Lemma makes_at_most_lift {A} (r : Result A) : makes_at_most 0 (lift r).
Proof. intros w. cbn. lia. Qed.

Lemma makes_at_most_logging (lv : Level) (message : string) (args : list LogArg) :
  makes_at_most 0 (logging lv message args).
Proof. intros w. cbn. lia. Qed.

Lemma makes_at_most_emit (ev : Event) : makes_at_most 0 (emit ev).
Proof. intros w. cbn. lia. Qed.

Lemma makes_at_most_chat (req : Request) :
  makes_at_most 1 (chat_completions_create req).
Proof.
  intros w. unfold chat_completions_create.
  destruct (service w (calls w)); cbn; lia.
Qed.

Lemma makes_at_most_weaken {A} (n k : nat) (m : M A) :
  (n ≤ k)%nat → makes_at_most n m → makes_at_most k m.
Proof. intros Hle Hm w. specialize (Hm w). lia. Qed.

Lemma makes_at_most_bind {A B} (n k : nat) (m : M A) (f : A → M B) :
  makes_at_most n m → (∀ a, makes_at_most k (f a)) →
  makes_at_most (n + k) (m ≫= f).
Proof.
  intros Hm Hf w. specialize (Hm w). unfold mbind, M_bind.
  destruct (m w) as [[a|e] w1]; cbn [snd] in *.
  - specialize (Hf a w1). lia.
  - lia.
Qed.

Lemma makes_at_most_fmap {A B} (n : nat) (g : A → B) (m : M A) :
  makes_at_most n m → makes_at_most n (g <$> m).
Proof.
  intros Hm w. specialize (Hm w). unfold fmap, M_fmap.
  by destruct (m w) as [[a|e] w1].
Qed.

Lemma makes_at_most_try {A} (n k : nat) (m : M A) (h : exn → M A) :
  makes_at_most n m → (∀ e, makes_at_most k (h e)) →
  makes_at_most (n + k) (try_except m h).
Proof.
  intros Hm Hh w. specialize (Hm w). unfold try_except.
  destruct (m w) as [[a|e] w1]; cbn [snd] in *.
  - lia.
  - specialize (Hh e w1). lia.
Qed.

Lemma makes_at_most_pushed {A} (m : M A) :
  (∀ w, ∃ r events, m w = (r, push events w)) → makes_at_most 0 m.
Proof. intros Hm w. destruct (Hm w) as (r & events & ->). cbn. lia. Qed.

(** A handler that logs and returns: the function never raises. *)
Lemma try_except_returns {A} (m : M A) (h : exn → M A) (w : World) :
  (∀ e w0, ∃ a w1, h e w0 = (Ok a, w1)) →
  ∃ a w', try_except m h w = (Ok a, w').
Proof.
  intros Hh. unfold try_except. destruct (m w) as [[a|e] w1]; [by eexists _, _|].
  apply Hh.
Qed.

(** A decorated function whose body returns is one run of the body. *)
Lemma retry_with_backoff_returns {A} (func : M A) (max_retries ib bf : Z)
    (name : string) (w : World) :
  0 < max_retries →
  (∀ w0, ∃ a w1, func w0 = (Ok a, w1)) →
  retry_with_backoff max_retries ib bf name func w = func (push [Invoke name] w).
Proof.
  intros Hpos Hret. unfold retry_with_backoff.
  destruct (Z.to_nat max_retries) as [|fuel] eqn:Hfuel; [lia|].
  destruct (Hret (push [Invoke name] w)) as (a & w1 & Hrun).
  rewrite Hrun. by apply retry_loop_success.
Qed.

Lemma get_siliconflow_client_body_run (w : World) :
  ∃ events, get_siliconflow_client_body w
            = (Ok (bool_decide (usable_key w)), push events w).
Proof.
  unfold get_siliconflow_client_body, usable_key.
  destruct (api_key w) as [|c r] eqn:Hkey.
  { eexists. unfold mbind, M_bind, logging, emit. cbn. reflexivity. }
  destruct (strip (String c r)) as [|c' r'] eqn:Hstrip.
  { eexists. unfold mbind, M_bind, logging, emit. cbn. reflexivity. }
  eexists. unfold mbind, M_bind, logging, emit. cbn. rewrite push_push. reflexivity.
Qed.

Lemma get_siliconflow_client_run (w : World) :
  ∃ events, get_siliconflow_client w
            = (Ok (bool_decide (usable_key w)), push events w).
Proof.
  unfold get_siliconflow_client.
  rewrite retry_with_backoff_returns; [|lia|].
  - destruct (get_siliconflow_client_body_run (push [Invoke "get_siliconflow_client"] w))
      as [events ->].
    exists ([Invoke "get_siliconflow_client"] ++ events). by rewrite push_push.
  - intros w0. destruct (get_siliconflow_client_body_run w0) as [events ->].
    by eexists _, _.
Qed.

End CallFacts.

Section OfflineFacts.

Lemma offline_ret {A} (a : A) : offline (mret a : M A).
Proof. intros w. exists (Ok a), []. by rewrite push_nil. Qed.

Lemma offline_raise {A} (e : exn) : offline (raise e : M A).
Proof. intros w. exists (Raise e), []. by rewrite push_nil. Qed.

Lemma offline_lift {A} (r : Result A) : offline (lift r).
Proof. intros w. exists r, []. by rewrite push_nil. Qed.

Lemma offline_logging (lv : Level) (message : string) (args : list LogArg) :
  offline (logging lv message args).
Proof. intros w. by eexists _, _. Qed.

Lemma offline_bind {A B} (m : M A) (f : A → M B) :
  offline m → (∀ a, offline (f a)) → offline (m ≫= f).
Proof.
  intros Hm Hf w. destruct (Hm w) as ([a|e] & events & Hrun).
  - destruct (Hf a (push events w)) as (r & events' & Hrun').
    exists r, (events ++ events'). erewrite bind_ok by done.
    by rewrite Hrun', push_push.
  - exists (Raise e), events. by erewrite bind_raise.
Qed.

Lemma offline_fmap {A B} (g : A → B) (m : M A) : offline m → offline (g <$> m).
Proof.
  intros Hm w. destruct (Hm w) as ([a|e] & events & Hrun).
  - exists (Ok (g a)), events. by erewrite fmap_ok.
  - exists (Raise e), events. by erewrite fmap_raise.
Qed.

Lemma offline_try {A} (m : M A) (h : exn → M A) :
  offline m → (∀ e, offline (h e)) → offline (try_except m h).
Proof.
  intros Hm Hh w. destruct (Hm w) as ([a|e] & events & Hrun).
  - exists (Ok a), events. by erewrite try_ok.
  - destruct (Hh e (push events w)) as (r & events' & Hrun').
    exists r, (events ++ events'). erewrite try_raise by done.
    by rewrite Hrun', push_push.
Qed.

Lemma offline_makes_at_most {A} (m : M A) : offline m → makes_at_most 0 m.
Proof. intros Hm w. destruct (Hm w) as (r & events & ->). cbn. lia. Qed.

Lemma offline_validate (fenced : bool) (variables : list CodingVar)
    (options_map : gmap string (list string)) (coding : JValue) :
  offline (validate fenced variables options_map coding).
Proof.
  intros w. unfold validate.
  destruct (validate_loop_run fenced options_map coding variables ∅ w) as [events ->].
  by eexists _, _.
Qed.

Lemma offline_get_siliconflow_client : offline get_siliconflow_client.
Proof.
  intros w. destruct (get_siliconflow_client_run w) as [events ->]. by eexists _, _.
Qed.

End OfflineFacts.

(** ** [auto_code_content] and [auto_code_video], further *)

Section CodingMore.
Variable json_loads : string → option JValue.

Lemma offline_loads_or_raise (s : string) : offline (loads_or_raise json_loads s).
Proof.
  unfold loads_or_raise. destruct (json_loads s); [apply offline_ret|apply offline_raise].
Qed.

Lemma offline_unvalidated_lines (reply : string) (e : exn) :
  offline (unvalidated_lines reply e).
Proof.
  unfold unvalidated_lines. apply offline_bind; [apply offline_logging|intros _].
  apply offline_bind; [apply offline_lift|intros m]. apply offline_ret.
Qed.

Lemma offline_extract (variables : list CodingVar)
    (options_map : gmap string (list string)) (reply : string) :
  offline (extract json_loads variables options_map reply).
Proof.
  unfold extract. destruct (json_loads reply).
  { apply offline_fmap, offline_validate. }
  unfold extract_fallback. apply offline_try; [|apply offline_unvalidated_lines].
  destruct (Re.search_fenced reply).
  { apply offline_bind; [apply offline_loads_or_raise|intros j].
    apply offline_fmap, offline_validate. }
  cbv zeta. destruct (braces_found _ _).
  - apply offline_bind; [apply offline_loads_or_raise|intros j].
    apply offline_fmap, offline_validate.
  - apply offline_bind; [apply offline_lift|intros m].
    apply offline_fmap, offline_validate.
Qed.

Lemma fmap_Some_returns {A} (m : M A) (w w' : World) (x : option A) :
  (Some <$> m) w = (Ok x, w') → is_Some x.
Proof.
  unfold fmap, M_fmap. destruct (m w) as [[a|e] w1]; [|done].
  intros [= <- _]. eauto.
Qed.

Lemma bind_Some_returns {A B} (m : M A) (f : A → M (option B)) (w w' : World)
    (x : option B) :
  (∀ a w0 w1 y, f a w0 = (Ok y, w1) → is_Some y) →
  (m ≫= f) w = (Ok x, w') → is_Some x.
Proof.
  intros Hf. unfold mbind, M_bind. destruct (m w) as [[a|e] w1]; [|done].
  apply Hf.
Qed.

(** Once the reply is not JSON as a whole, the extraction returns a
    dict, whatever happens in the later stages. *)
Lemma extract_fallback_returns (variables : list CodingVar)
    (options_map : gmap string (list string)) (reply : string) (w : World) :
  ∃ d events, extract_fallback json_loads variables options_map reply w
              = (Ok (Some d), push events w).
Proof.
  destruct (offline_extract variables options_map reply w) as (r & events & Hrun).
  unfold extract_fallback. unfold try_except.
  match goal with |- context [match ?body w with _ => _ end] =>
    assert (offline body ∧ ∀ w0 w1 y, body w0 = (Ok y, w1) → is_Some y)
      as [Hoff Hsome]
  end.
  { destruct (Re.search_fenced reply).
    { split.
      - apply offline_bind; [apply offline_loads_or_raise|intros j].
        apply offline_fmap, offline_validate.
      - intros w0 w1 y. apply bind_Some_returns. intros a w2 w3 y'.
        apply fmap_Some_returns. }
    cbv zeta. destruct (braces_found _ _).
    - split.
      + apply offline_bind; [apply offline_loads_or_raise|intros j].
        apply offline_fmap, offline_validate.
      + intros w0 w1 y. apply bind_Some_returns. intros a w2 w3 y'.
        apply fmap_Some_returns.
    - split.
      + apply offline_bind; [apply offline_lift|intros m].
        apply offline_fmap, offline_validate.
      + intros w0 w1 y. apply bind_Some_returns. intros a w2 w3 y'.
        apply fmap_Some_returns. }
  destruct (Hoff w) as ([y|e] & events' & Hbody); rewrite Hbody.
  - destruct (Hsome _ _ _ Hbody) as [d ->]. by eexists _, _.
  - unfold unvalidated_lines.
    destruct (parse_lines_total reply) as [m Hm].
    exists (JStr <$> m), (events' ++ [Log ERROR "解析编码结果失败: {str(e)}" [AExn e]]).
    unfold logging, emit. unfold mbind at 1, M_bind at 1. rewrite push_push.
    unfold lift. rewrite Hm. reflexivity.
Qed.

Lemma offline_response_text (response : Response) : offline (response_text response).
Proof. destruct response; [apply offline_ret|apply offline_raise|apply offline_ret]. Qed.

Lemma auto_code_content_returns (content : string) (variables : list CodingVar)
    (custom_prompt : option string) (w : World) :
  ∃ r w', auto_code_content json_loads content variables custom_prompt w = (Ok r, w').
Proof.
  unfold auto_code_content. apply try_except_returns.
  intros e w0. by eexists _, _.
Qed.

Lemma auto_code_video_returns (frames : list (Frame * Z)) (variables : list CodingVar)
    (custom_prompt : option string) (vision_model text_model : string) (w : World) :
  ∃ r w', auto_code_video json_loads frames variables custom_prompt
            vision_model text_model w = (Ok r, w').
Proof.
  unfold auto_code_video. apply try_except_returns.
  intros e w0. by eexists _, _.
Qed.

Lemma makes_at_most_auto_code_content (content : string) (variables : list CodingVar)
    (custom_prompt : option string) :
  makes_at_most 1 (auto_code_content json_loads content variables custom_prompt).
Proof.
  unfold auto_code_content. apply (makes_at_most_try 1 0).
  - apply (makes_at_most_bind 0 1).
    { apply offline_makes_at_most, offline_get_siliconflow_client. }
    intros [|]; cbn [negb].
    + apply (makes_at_most_bind 0 1); [apply makes_at_most_lift|].
      intros [variables_text options_map].
      apply (makes_at_most_bind 1 0); [apply makes_at_most_chat|]. intros response.
      apply (makes_at_most_bind 0 0).
      { apply offline_makes_at_most, offline_response_text. }
      intros coding_result. apply offline_makes_at_most, offline_extract.
    + apply (makes_at_most_weaken 0 1); [lia|].
      apply (makes_at_most_bind 0 0); [apply makes_at_most_logging|].
      intros _. apply makes_at_most_ret.
  - intros e. apply (makes_at_most_bind 0 0); [apply makes_at_most_logging|].
    intros _. apply makes_at_most_ret.
Qed.

(** One frame: the loop body returns, after exactly one call of the
    vision model, the descriptions as they were or with one more. *)
Lemma describe_frame_run (vision_model : string) (frame_descriptions : list string)
    (ft : Frame * Z) (w : World) :
  ∃ ds w', describe_frame vision_model frame_descriptions ft w = (Ok ds, w')
           ∧ calls w' = S (calls w) ∧ service w' = service w
           ∧ api_key w' = api_key w
           ∧ (ds = frame_descriptions ∨ ∃ d, ds = frame_descriptions ++ [d]).
Proof.
  destruct ft as [frame timestamp]. unfold describe_frame.
  erewrite bind_ok; [|apply convert_image_to_base64_run].
  unfold try_except, chat_completions_create.
  unfold mbind at 1, M_bind at 1.
  cbn [service calls push].
  destruct (service w (calls w)) as [[description| |repr]|e].
  - unfold lift, mbind, M_bind. destruct (timedelta_str timestamp) as [time_str|e].
    + eexists _, _. split; [reflexivity|]. repeat split. right. by eexists.
    + eexists _, _. split; [reflexivity|]. repeat split. by left.
  - eexists _, _. split; [reflexivity|]. repeat split. by left.
  - eexists _, _. split; [reflexivity|]. repeat split. by left.
  - eexists _, _. split; [reflexivity|]. repeat split. by left.
Qed.

Lemma describe_frames_run (vision_model : string) (frame_descriptions : list string)
    (selected_frames : list (Frame * Z)) (w : World) :
  ∃ ds w', describe_frames vision_model frame_descriptions selected_frames w
           = (Ok ds, w')
           ∧ calls w' = (calls w + length selected_frames)%nat
           ∧ service w' = service w ∧ api_key w' = api_key w
           ∧ frame_descriptions `prefix_of` ds
           ∧ (length ds ≤ length frame_descriptions + length selected_frames)%nat.
Proof.
  revert frame_descriptions w.
  induction selected_frames as [|ft rest IH]; intros frame_descriptions w.
  { exists frame_descriptions, w. cbn. repeat split; [lia|done|lia]. }
  destruct (describe_frame_run vision_model frame_descriptions ft w)
    as (ds1 & w1 & Hrun1 & Hcalls1 & Hservice1 & Hkey1 & Hds1).
  destruct (IH ds1 w1) as (ds & w' & Hrun & Hcalls & Hservice & Hkey & Hpre & Hlen).
  exists ds, w'. cbn [describe_frames]. erewrite bind_ok by done.
  split; [done|]. cbn [length].
  split; [lia|]. split; [congruence|]. split; [congruence|].
  destruct Hds1 as [->|[d ->]].
  - split; [done|lia].
  - split; [|rewrite length_app in Hlen; cbn in Hlen; lia].
    etrans; [|exact Hpre]. by apply prefix_app_r.
Qed.

Lemma makes_at_most_code_description (combined_description : string)
    (variables : list CodingVar) (custom_prompt : option string) (text_model : string) :
  makes_at_most 1
    (code_description json_loads combined_description variables custom_prompt text_model).
Proof.
  unfold code_description.
  apply (makes_at_most_bind 0 1); [apply makes_at_most_lift|].
  intros [variables_text options_map]. cbv zeta.
  apply (makes_at_most_try 1 0).
  - apply (makes_at_most_bind 1 0); [apply makes_at_most_chat|].
    intros [coding_result| |repr].
    + apply (makes_at_most_bind 0 0).
      * unfold extract_json. destruct (json_loads coding_result);
          [apply makes_at_most_ret|].
        apply (makes_at_most_try 0 0).
        -- destruct (Re.search_fenced coding_result).
           { apply makes_at_most_fmap, offline_makes_at_most, offline_loads_or_raise. }
           cbv zeta. destruct (braces_found _ _);
             [apply makes_at_most_fmap, offline_makes_at_most, offline_loads_or_raise
             |apply makes_at_most_raise].
        -- intros e. apply (makes_at_most_bind 0 0); [apply makes_at_most_logging|].
           intros _. apply makes_at_most_ret.
      * intros [coding_json|]; [|apply makes_at_most_ret].
        apply makes_at_most_fmap, offline_makes_at_most, offline_validate.
    + apply makes_at_most_raise.
    + apply (makes_at_most_bind 0 0); [apply makes_at_most_logging|].
      intros _. apply makes_at_most_ret.
  - intros e. apply (makes_at_most_bind 0 0); [apply makes_at_most_logging|].
    intros _. apply makes_at_most_ret.
Qed.

Lemma makes_at_most_auto_code_video (frames : list (Frame * Z))
    (variables : list CodingVar) (custom_prompt : option string)
    (vision_model text_model : string) :
  makes_at_most (Nat.min (length frames) 4 + 1)
    (auto_code_video json_loads frames variables custom_prompt vision_model text_model).
Proof.
  unfold auto_code_video.
  apply (makes_at_most_weaken (Nat.min (length frames) 4 + 1 + 0)); [lia|].
  apply makes_at_most_try.
  - apply (makes_at_most_bind 0 (Nat.min (length frames) 4 + 1)).
    { apply offline_makes_at_most, offline_get_siliconflow_client. }
    intros [|]; cbn [negb].
    + destruct frames as [|ft rest] eqn:Hframes.
      { apply (makes_at_most_weaken 0); [lia|].
        apply (makes_at_most_bind 0 0); [apply makes_at_most_logging|].
        intros _. apply makes_at_most_ret. }
      rewrite <- Hframes. clear Hframes. cbv zeta.
      apply makes_at_most_bind; [|intros ds; apply makes_at_most_code_description].
      intros w.
      destruct (describe_frames_run vision_model []
                  (take (Nat.min (length frames) 4) frames) w)
        as (ds & w' & -> & Hcalls & _). cbn [snd]. rewrite Hcalls.
      rewrite length_take. lia.
    + apply (makes_at_most_weaken 0); [lia|].
      apply (makes_at_most_bind 0 0); [apply makes_at_most_logging|].
      intros _. apply makes_at_most_ret.
  - intros e. apply (makes_at_most_bind 0 0); [apply makes_at_most_logging|].
    intros _. apply makes_at_most_ret.
Qed.

(** X6.  A reply that is not JSON as a whole never makes
    [auto_code_content] fail: with a key, a coding scheme that can be
    described and a reply with content that [json.loads] rejects, the
    function returns a dict (possibly an empty one), never [None], after
    its one call of [client.chat.completions.create]. *)
Theorem auto_code_content_non_json_coded (content : string)
    (variables : list CodingVar) (custom_prompt : option string) (w : World)
    (variables_text : string) (options_map : gmap string (list string))
    (reply : string) :
  usable_key w →
  describe_variables (EmptyString, ∅) variables = Ok (variables_text, options_map) →
  service w (calls w) = Returns (RespContent reply) →
  json_loads reply = None →
  ∃ d w', auto_code_content json_loads content variables custom_prompt w
          = (Ok (Some d), w')
          ∧ calls w' = S (calls w).
Proof.
  intros Hkey Hvars Hreply Hnone.
  rewrite (auto_code_content_run json_loads content variables custom_prompt w
             variables_text options_map reply Hkey Hvars Hreply).
  unfold extract. rewrite Hnone.
  destruct (extract_fallback_returns variables options_map reply
              (called (content_request content custom_prompt variables_text)
                 (push client_events w))) as (d & events & Hrun).
  exists d, (push events (called (content_request content custom_prompt variables_text)
                            (push client_events w))).
  split; [by erewrite try_ok|done].
Qed.

(** X7.  The bodies of [auto_code_content] and [auto_code_video] catch
    every exception and return, so their decorator never retries: the
    decorated function is exactly one run of the body, it returns, and
    no wait is ever made on its behalf. *)
Theorem decorated_coders_run_once (content : string) (frames : list (Frame * Z))
    (variables : list CodingVar) (custom_prompt : option string)
    (vision_model text_model : string) (w : World) :
  (∃ r w',
     auto_code_content_decorated json_loads content variables custom_prompt w
     = (Ok r, w')
     ∧ auto_code_content json_loads content variables custom_prompt
         (push [Invoke "auto_code_content"] w) = (Ok r, w'))
  ∧ (∃ r w',
       auto_code_video_decorated json_loads frames variables custom_prompt
         vision_model text_model w = (Ok r, w')
       ∧ auto_code_video json_loads frames variables custom_prompt
           vision_model text_model (push [Invoke "auto_code_video"] w) = (Ok r, w')).
Proof.
  split.
  - destruct (auto_code_content_returns content variables custom_prompt
                (push [Invoke "auto_code_content"] w)) as (r & w' & Hrun).
    exists r, w'. split; [|done]. unfold auto_code_content_decorated.
    rewrite retry_with_backoff_returns; [done|lia|].
    intros w0. apply auto_code_content_returns.
  - destruct (auto_code_video_returns frames variables custom_prompt
                vision_model text_model
                (push [Invoke "auto_code_video"] w)) as (r & w' & Hrun).
    exists r, w'. split; [|done]. unfold auto_code_video_decorated.
    rewrite retry_with_backoff_returns; [done|lia|].
    intros w0. apply auto_code_video_returns.
Qed.

(** X8.  Without a usable API key (none, or blanks only) both coders
    return [None] and [client.chat.completions.create] is not called;
    so does [auto_code_video] on an empty list of frames, with or
    without a key. *)
Theorem coders_without_key_or_frames (content : string) (frames : list (Frame * Z))
    (variables : list CodingVar) (custom_prompt : option string)
    (vision_model text_model : string) (w : World) :
  (¬ usable_key w →
   ∃ events,
     auto_code_content json_loads content variables custom_prompt w
     = (Ok None, push events w)
     ∧ auto_code_video json_loads frames variables custom_prompt
         vision_model text_model w = (Ok None, push events w))
  ∧ (∃ events,
       auto_code_video json_loads [] variables custom_prompt
         vision_model text_model w = (Ok None, push events w)).
Proof.
  destruct (get_siliconflow_client_run w) as [events Hclient].
  split.
  - intros Hkey. rewrite bool_decide_eq_false_2 in Hclient by done.
    exists (events ++ [Log ERROR "未设置硅基流动API密钥，无法进行自动编码" []]).
    unfold auto_code_content, auto_code_video, try_except.
    erewrite !bind_ok by exact Hclient. cbn [negb].
    unfold logging, emit, mbind, M_bind, mret, M_ret. by rewrite push_push.
  - unfold auto_code_video, try_except.
    erewrite bind_ok by exact Hclient.
    destruct (bool_decide (usable_key w)); cbn [negb];
      unfold logging, emit, mbind, M_bind, mret, M_ret; rewrite push_push;
      by eexists.
Qed.

(** X9.  Whatever the service answers, one run of the decorated
    [auto_code_content] calls [client.chat.completions.create] at most
    once, and one run of the decorated [auto_code_video] at most once
    per selected frame, of which there are at most four, and once more:
    never more than five times. *)
Theorem coders_call_bound (content : string) (frames : list (Frame * Z))
    (variables : list CodingVar) (custom_prompt : option string)
    (vision_model text_model : string) (w : World) :
  (calls (auto_code_content_decorated json_loads content variables custom_prompt w).2
   ≤ calls w + 1)%nat
  ∧ (calls (auto_code_video_decorated json_loads frames variables custom_prompt
              vision_model text_model w).2
     ≤ calls w + Nat.min (length frames) 4 + 1)%nat
  ∧ (calls (auto_code_video_decorated json_loads frames variables custom_prompt
              vision_model text_model w).2
     ≤ calls w + 5)%nat.
Proof.
  assert (calls (auto_code_video_decorated json_loads frames variables custom_prompt
                   vision_model text_model w).2
          ≤ calls w + Nat.min (length frames) 4 + 1)%nat as Hvideo.
  { unfold auto_code_video_decorated.
    rewrite retry_with_backoff_returns;
      [|lia|intros w0; apply auto_code_video_returns].
    pose proof (makes_at_most_auto_code_video frames variables custom_prompt
                  vision_model text_model (push [Invoke "auto_code_video"] w)) as Hb.
    cbn [calls push] in Hb. lia. }
  split; [|split; [exact Hvideo|lia]].
  unfold auto_code_content_decorated.
  rewrite retry_with_backoff_returns;
    [|lia|intros w0; apply auto_code_content_returns].
  pose proof (makes_at_most_auto_code_content content variables custom_prompt
                (push [Invoke "auto_code_content"] w)) as Hb.
  cbn [calls push] in Hb. lia.
Qed.

(** X10.  The loop of [auto_code_video] over the selected frames never
    raises and calls the vision model exactly once per frame, whether
    the frame could be encoded or not and whatever the calls answer; the
    descriptions it was given stay in front, in order, and at most one
    is added per frame. *)
Theorem describe_frames_one_call_each (vision_model : string)
    (frame_descriptions : list string) (selected_frames : list (Frame * Z))
    (w : World) :
  ∃ ds w', describe_frames vision_model frame_descriptions selected_frames w
           = (Ok ds, w')
           ∧ calls w' = (calls w + length selected_frames)%nat
           ∧ frame_descriptions `prefix_of` ds
           ∧ (length ds ≤ length frame_descriptions + length selected_frames)%nat.
Proof.
  destruct (describe_frames_run vision_model frame_descriptions selected_frames w)
    as (ds & w' & Hrun & Hcalls & _ & _ & Hpre & Hlen).
  by exists ds, w'.
Qed.

End CodingMore.

(** ** The agreement statistics, further *)

Section AgreementMore.
Context `{Countable V}.
Implicit Types (observations : list (gmap string V))
  (categories : gmap string (list V)) (values : list V).

Lemma sum_list_perm (l k : list nat) : l ≡ₚ k → sum_list l = sum_list k.
Proof.
  induction 1 as [|x l k _ IH|x y l|l k m _ IH1 _ IH2]; cbn [sum_list_with];
    unfold id in *; lia.
Qed.

(** A count over the unordered pairs that does not depend on the order
    within a pair does not depend on the order of the list. *)
Lemma sum_pairs_perm {X} (g : X * X → nat) (l k : list X) :
  (∀ a b, g (a, b) = g (b, a)) → l ≡ₚ k →
  sum_list (g <$> unordered_pairs l) = sum_list (g <$> unordered_pairs k).
Proof.
  intros Hsym.
  induction 1 as [|x l k Hperm IH|x y l|l k m _ IH1 _ IH2].
  - done.
  - change (unordered_pairs (x :: l)) with ((pair x <$> l) ++ unordered_pairs l).
    change (unordered_pairs (x :: k)) with ((pair x <$> k) ++ unordered_pairs k).
    rewrite !fmap_app, !sum_list_with_app, IH.
    f_equal. apply sum_list_perm. by rewrite Hperm.
  - change (unordered_pairs (y :: x :: l))
      with ((pair y <$> x :: l) ++ (pair x <$> l) ++ unordered_pairs l).
    change (unordered_pairs (x :: y :: l))
      with ((pair x <$> y :: l) ++ (pair y <$> l) ++ unordered_pairs l).
    rewrite !(fmap_cons (pair _)), <- !app_comm_cons, !(fmap_cons g).
    rewrite !fmap_app. cbn [sum_list_with].
    rewrite !sum_list_with_app. unfold id. rewrite (Hsym y x).
    generalize (sum_list (g <$> (pair y <$> l))) (sum_list (g <$> (pair x <$> l)))
      (sum_list (g <$> unordered_pairs l)) (g (x, y)).
    intros. lia.
  - by rewrite IH1.
Qed.

Lemma shared_vars_sym (oi oj : gmap string V) :
  size (shared_vars oi oj) = size (shared_vars oj oi).
Proof. unfold shared_vars. f_equal. apply (comm_L _). Qed.

Lemma agreeing_vars_sym (oi oj : gmap string V) :
  size (agreeing_vars oi oj) = size (agreeing_vars oj oi).
Proof.
  f_equal. apply set_eq. intros var. unfold agreeing_vars, shared_vars.
  rewrite !elem_of_filter, !elem_of_intersection. split; intros [-> [? ?]]; done.
Qed.

(** X11.  The percentage agreement does not depend on the order in
    which the coders' observations are listed. *)
Theorem percentage_agreement_order_independent observations observations' :
  observations ≡ₚ observations' →
  calculate_percentage_agreement observations
  = calculate_percentage_agreement observations'.
Proof.
  intros Hperm. rewrite !calculate_percentage_agreement_value.
  unfold comparisons_of, agreements_of.
  rewrite (sum_pairs_perm (λ p, size (shared_vars p.1 p.2)) _ _
             (λ a b, shared_vars_sym a b) Hperm).
  by rewrite (sum_pairs_perm (λ p, size (agreeing_vars p.1 p.2)) _ _
                (λ a b, agreeing_vars_sym a b) Hperm).
Qed.

(** *** The counts of the alpha coefficient *)

Lemma differ_later_spec (x : V) (later : list V) (a c : nat) :
  differ_later x later (a, c)
  = (a + sum_list (differing <$> (pair x <$> later)), c + length later)%nat.
Proof.
  unfold differ_later. revert a c.
  induction later as [|y later IH]; intros a c; cbn [foldl].
  { cbn. f_equal; lia. }
  rewrite IH, !fmap_cons. cbn [sum_list_with length]. unfold differing at 2, id.
  cbn [fst snd]. destruct (decide (x = y)); f_equal; lia.
Qed.

Lemma differ_all_spec values (a c : nat) :
  differ_all values (a, c)
  = (a + sum_list (differing <$> unordered_pairs values),
     c + length (unordered_pairs values))%nat.
Proof.
  revert a c. induction values as [|x later IH]; intros a c; cbn [differ_all].
  { cbn. f_equal; lia. }
  rewrite differ_later_spec, IH. cbn [unordered_pairs].
  rewrite fmap_app, sum_list_with_app, length_app, !length_fmap.
  f_equal; lia.
Qed.










(** X20.  The first loop of [calculate_krippendorff_alpha] counts, for
    every variable, the unordered pairs of the values observed for it
    and those of them whose two values differ; the test for fewer than
    two values only skips variables that have no pair.  So the observed
    disagreements never exceed the pairs. *)
Theorem observed_counts_spec (variables : list string) observations :
  observed_counts variables observations
  = (sum_list ((λ var, sum_list (differing
                                   <$> unordered_pairs (values_of var observations)))
               <$> variables),
     sum_list ((λ var, length (unordered_pairs (values_of var observations)))
               <$> variables))
  ∧ ((observed_counts variables observations).1
     ≤ (observed_counts variables observations).2)%nat.
Proof.
  assert (∀ a c,
            foldl (λ counters var,
                     let values := values_of var observations in
                     if (length values <? 2)%nat then counters
                     else differ_all values counters)
                  (a, c) variables
            = (a + sum_list ((λ var, sum_list (differing
                                       <$> unordered_pairs (values_of var observations)))
                             <$> variables),
               c + sum_list ((λ var, length (unordered_pairs (values_of var observations)))
                             <$> variables))%nat) as Hloop.
  { induction variables as [|var rest IH]; intros a c.
    { cbn. f_equal; lia. }
    cbn [foldl]. cbv zeta. rewrite !fmap_cons. cbn [sum_list_with].
    destruct (length (values_of var observations) <? 2)%nat eqn:Hlen.
    - apply Nat.ltb_lt in Hlen. rewrite (unordered_pairs_short _ Hlen).
      rewrite IH. reflexivity.
    - rewrite differ_all_spec, IH. f_equal; symmetry; apply Nat.add_assoc. }
  unfold observed_counts. rewrite Hloop. cbn [fst snd Nat.add]. split; [done|].
  clear Hloop. induction variables as [|var rest IH]; [done|].
  rewrite !fmap_cons. cbn [sum_list_with].
  apply Nat.add_le_mono; [|apply IH].
  generalize (unordered_pairs (values_of var observations)) as pairs.
  induction pairs as [|p pairs IHp]; [done|].
  rewrite fmap_cons. cbn [sum_list_with length]. unfold id in *. unfold differing at 1.
  destruct (decide (p.1 = p.2)); lia.
Qed.

(** *** A bound *)

Lemma Qnat_nonneg (n : nat) : (0 <= Qnat n)%Q.
Proof. unfold Qnat. change 0%Q with (inject_Z 0). rewrite <- Zle_Qle. lia. Qed.

Lemma Qdiv_nonneg (a b : Q) : (0 <= a)%Q → (0 <= b)%Q → (0 <= a / b)%Q.
Proof.
  intros Ha Hb. unfold Qdiv. apply Qmult_le_0_compat; [done|].
  by apply Qinv_le_0_compat.
Qed.

Lemma Qsum_nonneg {X} (f : X → Q) (l : list X) :
  (∀ x, x ∈ l → (0 <= f x)%Q) → (0 <= Qsum (f <$> l))%Q.
Proof.
  unfold Qsum. induction l as [|x l IH]; intros Hf; [done|].
  rewrite fmap_cons. cbn [foldr].
  assert (0 <= f x)%Q as Hx by (apply Hf; by left).
  assert (0 <= foldr Qplus 0 (f <$> l))%Q as Hl.
  { apply IH. intros y Hy. apply Hf. by right. }
  lra.
Qed.

Lemma marginal_disagreement_nonneg values : (0 <= marginal_disagreement values)%Q.
Proof.
  unfold marginal_disagreement.
  apply Qsum_nonneg. intros v1 _. apply Qsum_nonneg. intros v2 _.
  destruct (decide (v1 = v2)); [done|].
  apply Qmult_le_0_compat; apply Qdiv_nonneg; apply Qnat_nonneg.
Qed.

Lemma expected_disagreement_nonneg categories observations :
  (0 <= expected_disagreement categories observations)%Q.
Proof.
  unfold expected_disagreement. apply Qdiv_nonneg; [|apply Qnat_nonneg].
  rewrite expected_sum_contributions. apply Qsum_nonneg.
  intros [var cat_values] _. unfold contribution. cbn [fst snd].
  destruct cat_values; [done|]. case_decide; [|done].
  apply marginal_disagreement_nonneg.
Qed.

(** X13.  The alpha coefficient never exceeds 1, whatever the
    observations and the categories. *)
Theorem krippendorff_alpha_at_most_one observations categories :
  (calculate_krippendorff_alpha observations categories <= 1)%Q.
Proof.
  unfold calculate_krippendorff_alpha.
  destruct (length observations <? 2)%nat; [done|].
  destruct (observed_counts _ observations) as [observed total_pairs].
  destruct (total_pairs =? 0)%nat; [done|].
  destruct (Qeq_bool _ 0); [apply Qle_refl|].
  pose proof (expected_disagreement_nonneg categories observations) as Hexp.
  assert (0 <= Qnat observed / Qnat total_pairs
               / expected_disagreement categories observations)%Q as Hratio.
  { apply Qdiv_nonneg; [|done]. apply Qdiv_nonneg; apply Qnat_nonneg. }
  lra.
Qed.

End AgreementMore.

(** ** Option strings and prompts *)

Section StringMore.

Lemma split_no_sep (sep : ascii) (s piece : string) :
  piece ∈ split sep s → has_char sep piece = false.
Proof.
  revert piece. induction s as [|c r IH]; intros piece; cbn [split].
  { by intros ->%list_elem_of_singleton. }
  destruct (bool_decide (c = sep)) eqn:Hc.
  - intros [->|Hin]%elem_of_cons; [done|by apply IH].
  - destruct (split sep r) as [|h t].
    + intros ->%list_elem_of_singleton. cbn. by rewrite Hc.
    + intros [->|Hin]%elem_of_cons.
      * cbn. rewrite Hc. apply IH. by left.
      * apply IH. by right.
Qed.

Lemma has_char_rstrip (c : ascii) (s : string) :
  has_char c (rstrip s) = true → has_char c s = true.
Proof.
  induction s as [|d r IH]; [done|]. cbn [rstrip has_char].
  destruct (rstrip r) as [|d' r'].
  - destruct (isspace d); [done|]. cbn. rewrite orb_false_r. by intros ->.
  - cbn [has_char]. intros [->|Hr]%orb_true_iff; [done|].
    rewrite (IH Hr). apply orb_true_r.
Qed.

Lemma has_char_strip (c : ascii) (s : string) :
  has_char c s = false → has_char c (strip s) = false.
Proof.
  intros Hs. unfold strip. destruct (has_char c (rstrip (lstrip s))) eqn:Hc; [|done].
  apply has_char_rstrip, has_char_lstrip in Hc. congruence.
Qed.

Lemma rstrip_idem (s : string) : rstrip (rstrip s) = rstrip s.
Proof.
  induction s as [|c r IH]; [done|]. cbn [rstrip].
  destruct (rstrip r) as [|c' r'] eqn:Hr.
  - destruct (isspace c) eqn:Hc; [done|]. cbn. by rewrite Hc.
  - cbn [rstrip]. cbn [rstrip] in IH. by rewrite IH.
Qed.

Lemma lstrip_rstrip_lstrip (s : string) : lstrip (rstrip (lstrip s)) = rstrip (lstrip s).
Proof.
  induction s as [|c r IH]; [done|]. cbn [lstrip].
  destruct (isspace c) eqn:Hc; [done|]. cbn [rstrip].
  destruct (rstrip r) as [|c' r'].
  - rewrite Hc. cbn. by rewrite Hc.
  - cbn. by rewrite Hc.
Qed.

Lemma strip_idem (s : string) : strip (strip s) = strip s.
Proof. unfold strip. by rewrite lstrip_rstrip_lstrip, rstrip_idem. Qed.

Lemma split_options_elem (s o : string) :
  o ∈ split_options s ↔ o ≠ EmptyString ∧ ∃ piece, piece ∈ split "," s ∧ o = strip piece.
Proof.
  unfold split_options. rewrite list_elem_of_omap. split.
  - intros (piece & Hin & Ho). cbv zeta in Ho.
    destruct (bool_decide (strip piece = EmptyString)) eqn:He; [done|].
    injection Ho as <-. apply bool_decide_eq_false in He. eauto.
  - intros (Hne & piece & Hin & ->). exists piece. split; [done|]. cbv zeta.
    by rewrite bool_decide_eq_false_2.
Qed.

Lemma split_options_all_clean (s o : string) : o ∈ split_options s → clean_option o.
Proof.
  rewrite split_options_elem. intros (Hne & piece & Hin & ->).
  split; [done|]. split; [|apply strip_idem].
  apply has_char_strip. by eapply split_no_sep.
Qed.

Lemma split_single (sep : ascii) (s : string) :
  has_char sep s = false → split sep s = [s].
Proof.
  induction s as [|c r IH]; [done|]. cbn [has_char split].
  destruct (bool_decide (c = sep)); [done|]. cbn. intros Hr. by rewrite (IH Hr).
Qed.

Lemma string_app_cons (c : ascii) (a b : string) :
  String c a +:+ b = String c (a +:+ b).
Proof. reflexivity. Qed.

Lemma split_app_sep (sep : ascii) (a b : string) :
  has_char sep a = false → split sep (a +:+ String sep b) = a :: split sep b.
Proof.
  induction a as [|c a IH].
  - intros _. change (EmptyString +:+ String sep b) with (String sep b).
    cbn [split]. by rewrite bool_decide_eq_true_2.
  - rewrite string_app_cons. cbn [has_char split].
    destruct (bool_decide (c = sep)); [done|]. intros Ha. by rewrite (IH Ha).
Qed.

Lemma string_app_assoc (a b c : string) : (a +:+ b) +:+ c = a +:+ (b +:+ c).
Proof. induction a as [|x a IH]; [done|]. rewrite !string_app_cons. by rewrite IH. Qed.

(** The options that a joined list is cut into again, with or without
    the blank that follows a comma. *)
Lemma split_options_join_from (blank : bool) (l : list string) :
  (∀ o, o ∈ l → clean_option o) →
  split_options ((if blank then " " else EmptyString) +:+ join ", " l) = l.
Proof.
  revert blank. induction l as [|o rest IH]; intros blank Hclean.
  { by destruct blank. }
  destruct (Hclean o ltac:(by left)) as (Hne & Hcomma & Hstrip).
  assert (strip ((if blank then " " else EmptyString) +:+ o) = o) as Hpre.
  { by destruct blank. }
  assert (has_char "," ((if blank then " " else EmptyString) +:+ o) = false) as Hpre'.
  { by destruct blank. }
  destruct rest as [|o' rest].
  - cbn [join]. unfold split_options. rewrite split_single by done.
    cbn [omap list_omap]. cbv zeta. rewrite Hpre. by rewrite bool_decide_eq_false_2.
  - change (join ", " (o :: o' :: rest))
      with (o +:+ String "," (" " +:+ join ", " (o' :: rest))).
    rewrite <- string_app_assoc. unfold split_options.
    rewrite split_app_sep by done. cbn [omap list_omap]. cbv zeta.
    rewrite Hpre, bool_decide_eq_false_2 by done. f_equal.
    apply (IH true). intros x Hx. apply Hclean. by right.
Qed.

(** X14.  Every option that [split_options] takes from a
    comma-separated string is clean: it is not empty, holds no comma and
    has no blank at either end. *)
Theorem split_options_clean (s o : string) :
  o ∈ split_options s →
  o ≠ EmptyString ∧ has_char "," o = false ∧ strip o = o.
Proof. apply split_options_all_clean. Qed.

(** X15.  Round trip: the option text that the prompt shows, the
    options joined by a comma and a blank, is cut into the same options
    again. *)
Theorem split_options_join_round_trip (s : string) :
  split_options (join ", " (split_options s)) = split_options s.
Proof.
  apply (split_options_join_from false). intros o. apply split_options_all_clean.
Qed.

Lemma replace_from_absent (old new s : string) :
  contains old s = false → replace_from old new 0 s = s.
Proof.
  induction s as [|c r IH]; [done|]. cbn [contains replace_from].
  intros [Hp Hr]%orb_false_iff. cbn [String.prefix] in Hp |- *.
  rewrite Hp. by rewrite (IH Hr).
Qed.

Lemma string_app_nil_r (s : string) : s +:+ EmptyString = s.
Proof. induction s as [|c r IH]; [done|]. rewrite string_app_cons. by rewrite IH. Qed.

(** X16.  A custom prompt that holds neither placeholder is sent as it
    is: neither the content nor the variables reach the model.  And the
    two substitutions are made one after the other: with the custom
    prompt [{content}], a [{variables}] inside the content is
    substituted as well. *)
Theorem user_prompt_placeholders (default : string → string → string)
    (p content variables_text : string) :
  (p ≠ EmptyString →
   contains "{content}" p = false → contains "{variables}" p = false →
   user_prompt default (Some p) content variables_text = p)
  ∧ user_prompt default (Some "{content}") content variables_text
    = replace "{variables}" variables_text content.
Proof.
  split.
  - intros Hne Hc Hv. unfold user_prompt. destruct p as [|c r]; [done|].
    unfold replace. by rewrite (replace_from_absent _ _ _ Hc), (replace_from_absent _ _ _ Hv).
  - unfold user_prompt, replace. cbn [replace_from String.prefix String.length].
    cbn. by rewrite string_app_nil_r.
Qed.

End StringMore.

(** ** The requests of [create] *)

Section CreateFacts.
Variable decode : string → Result Response.

Ltac settle_requests net k :=
  exists k; eexists; cbn [Nat.sub];
  split; [lia|];
  split;
  [ intros i Hi;
    (destruct i as [|[|i]]; [| |lia]);
    rewrite ?Nat.add_0_r, ?Nat.add_1_r;
    try lia;
    repeat match goal with
           | Hout : urlopen _ _ = _ |- _ => rewrite Hout
           end;
    cbn [answer];
    repeat match goal with
           | Hdec : decode _ = _ |- _ => rewrite Hdec
           end;
    by eexists
  | split;
    [ intros Hk; try lia;
      rewrite ?Nat.add_0_r, ?Nat.add_1_r;
      repeat match goal with
             | Hout : urlopen _ _ = _ |- _ => rewrite Hout
             end;
      cbn [answer];
      repeat match goal with
             | Hdec : decode _ = _ |- _ => rewrite Hdec
             end;
      by eexists
    | rewrite ?Nat.add_0_r, ?Nat.add_1_r;
      try replace (opened net + 2)%nat with (S (S (opened net))) by lia;
      repeat match goal with
             | Hout : urlopen _ _ = _ |- _ => rewrite Hout
             end;
      cbn [answer];
      repeat match goal with
             | Hdec : decode _ = _ |- _ => rewrite Hdec
             end;
      cbn [fst snd sent noted opened net_trace mbind Result_bind];
      split; [reflexivity|];
      split; [lia|];
      split; [rewrite <- ?app_assoc; first [reflexivity | symmetry; apply app_nil_r]|];
      reflexivity ] ].

(** X17.  The request loop of [create] sends at least one and at most
    three requests.  It stops at the first request whose body decodes
    to a response object and returns that object; a body that does not
    decode is retried like a request that fails.  The waits are 1 second
    after the first failure and 2 seconds after the second, and none
    follows the third: when the third request fails too, its exception
    is raised (for an [HTTPError], a new exception made of code, reason
    and body).  The loop never ends without a result. *)
Theorem create_requests_spec (net : Net) :
  ∃ (k : nat) (events : list Event),
    (1 ≤ k ≤ 3)%nat
    ∧ (∀ i, (i < k - 1)%nat →
         ∃ e, answer decode (urlopen net (opened net + i)) = Raise e)
    ∧ ((k < 3)%nat →
       ∃ response, answer decode (urlopen net (opened net + (k - 1))) = Ok response)
    ∧ (create_requests decode net).1
      = (response ← answer decode (urlopen net (opened net + (k - 1)));
         Ok (Some response))
    ∧ opened (create_requests decode net).2 = (opened net + k)%nat
    ∧ net_trace (create_requests decode net).2 = net_trace net ++ events
    ∧ slept events = take (k - 1) [1; 2].
Proof.
  unfold create_requests. change (range 3) with [0; 1; 2]. cbv zeta.
  cbn [request_loop sent noted urlopen opened net_trace].
  change (0 <? 3 - 1) with true. change (1 <? 3 - 1) with true.
  change (2 <? 3 - 1) with false. cbv iota.
  destruct (urlopen net (opened net)) as [b0|c0 r0 rb0|e0] eqn:H0;
    [destruct (decode b0) as [resp0|d0] eqn:D0; [settle_requests net 1%nat|]| |].
  all: destruct (urlopen net (S (opened net))) as [b1|c1 r1 rb1|e1] eqn:H1;
    [destruct (decode b1) as [resp1|d1] eqn:D1; [settle_requests net 2%nat|]| |].
  all: destruct (urlopen net (S (S (opened net)))) as [b2|c2 r2 rb2|e2] eqn:H2;
    [destruct (decode b2) as [resp2|d2] eqn:D2| |].
  all: settle_requests net 3%nat.
Qed.
End CreateFacts.

(** ** [extract_video_frames] *)

Section FramesFacts.

Lemma grab_frames_run (clip : Clip) (acc : list (Frame * Z)) (timestamps : list Z)
    (w : World) :
  ∃ frames events,
    grab_frames clip acc timestamps w = (Ok (acc ++ frames), push events w)
    ∧ frames.*2 `sublist_of` timestamps
    ∧ (∀ frame t, (frame, t) ∈ frames → get_frame clip t = Ok frame)
    ∧ ((∀ t, t ∈ timestamps → ∃ frame, get_frame clip t = Ok frame) →
       frames.*2 = timestamps).
Proof.
  revert acc w. induction timestamps as [|t later IH]; intros acc w.
  { exists [], []. rewrite app_nil_r, push_nil.
    split; [done|]. split; [done|]. split; [|done].
    by intros frame t ?%not_elem_of_nil. }
  cbn [grab_frames]. unfold try_except, lift.
  unfold mbind at 1, M_bind at 1. unfold mbind at 1, M_bind at 1.
  destruct (get_frame clip t) as [frame|e] eqn:Hframe.
  - destruct (IH (acc ++ [(frame, t)]) w)
      as (frames & events & Hrun & Hsub & Hread & Hall).
    exists ((frame, t) :: frames), events. cbn [mret M_ret].
    rewrite Hrun, <- app_assoc. split; [done|]. rewrite fmap_cons. cbn [snd].
    split; [by apply sublist_skip|]. split.
    + intros frame' t' [[= -> ->]|Hin]%elem_of_cons; [done|by apply Hread].
    + intros Hok. f_equal. apply Hall. intros t' Ht'. apply Hok. by right.
  - unfold logging, emit. unfold mbind at 1, M_bind at 1. cbn [mret M_ret].
    destruct (IH acc (push [Log ERROR "无法提取时间点 {t}秒 的帧: {str(e)}"
                              [AInt t; AExn e]] w))
      as (frames & events & Hrun & Hsub & Hread & Hall).
    exists frames, ([Log ERROR "无法提取时间点 {t}秒 的帧: {str(e)}"
                       [AInt t; AExn e]] ++ events).
    rewrite Hrun, push_push. split; [done|].
    split; [by apply sublist_cons|]. split; [done|].
    intros Hok. destruct (Hok t ltac:(by left)) as [frame' Hframe']. congruence.
Qed.

Lemma py_range_sample (seconds interval : Z) :
  0 < interval →
  ∃ timestamps,
    py_range 0 seconds interval = Ok timestamps
    ∧ match timestamps with [] => [0] | _ => timestamps end
      = sample_times seconds interval.
Proof.
  intros Hpos. unfold py_range, sample_times.
  assert ((interval =? 0) = false) as -> by lia.
  assert ((0 <? interval) = true) as -> by lia.
  eexists. split; [reflexivity|]. cbn [andb].
  replace (seconds - 0 + interval - 1) with (seconds + interval - 1) by lia.
  destruct (0 <? seconds) eqn:Hsec.
  - assert (1 ≤ (seconds + interval - 1) / interval).
    { apply Z.div_le_lower_bound; lia. }
    destruct (Z.to_nat ((seconds + interval - 1) / interval)) as [|n] eqn:Hn; [lia|].
    done.
  - assert ((seconds + interval - 1) / interval ≤ 0).
    { assert ((seconds + interval - 1) / interval < 1); [|lia].
      apply Z.div_lt_upper_bound; lia. }
    by replace (Z.to_nat ((seconds + interval - 1) / interval)) with O by lia.
Qed.

Lemma sample_times_elem (seconds interval t : Z) :
  0 < interval → t ∈ sample_times seconds interval →
  (∃ k : nat, t = Z.of_nat k * interval) ∧ 0 ≤ t ∧ (t = 0 ∨ t < seconds).
Proof.
  intros Hpos. unfold sample_times.
  assert ((0 <? interval) = true) as -> by lia. cbn [andb].
  destruct (0 <? seconds) eqn:Hsec.
  - intros (k & -> & Hk)%list_elem_of_fmap. apply elem_of_seq in Hk.
    split; [by exists k|]. split; [lia|]. right.
    assert (Z.of_nat k < (seconds + interval - 1) / interval) as Hlt by lia.
    assert (Z.of_nat k + 1 ≤ (seconds + interval - 1) / interval) as Hle by lia.
    assert (interval * (Z.of_nat k + 1) ≤ seconds + interval - 1).
    { etrans; [apply Z.mul_le_mono_nonneg_l; [lia|exact Hle]|].
      apply Z.mul_div_le. lia. }
    lia.
  - intros ->%list_elem_of_singleton. split; [by exists O|]. lia.
Qed.

Lemma extract_video_frames_run (clip : Clip) (interval : Z) (w : World) :
  0 < interval →
  ∃ frames events,
    extract_video_frames true (Ok clip) interval w
    = (Ok (match close clip with Ok _ => frames | Raise _ => [] end), push events w)
    ∧ frames.*2 `sublist_of` sample_times (py_int (duration clip)) interval
    ∧ (∀ frame t, (frame, t) ∈ frames → get_frame clip t = Ok frame)
    ∧ ((∀ t, t ∈ sample_times (py_int (duration clip)) interval →
          ∃ frame, get_frame clip t = Ok frame) →
       frames.*2 = sample_times (py_int (duration clip)) interval).
Proof.
  intros Hpos. unfold extract_video_frames. cbn [negb].
  destruct (py_range_sample (py_int (duration clip)) interval Hpos)
    as (timestamps & Hrange & Hsample).
  unfold try_except, lift. unfold mbind at 1, M_bind at 1.
  unfold mbind at 1, M_bind at 1. rewrite Hrange. cbv zeta. rewrite Hsample.
  destruct (grab_frames_run clip [] (sample_times (py_int (duration clip)) interval) w)
    as (frames & events & Hrun & Hsub & Hread & Hall).
  cbn [app] in Hrun. unfold mbind at 1, M_bind at 1. rewrite Hrun.
  unfold mbind, M_bind. destruct (close clip) as [[]|e].
  - exists frames, events. by cbn.
  - exists frames, (events ++ [Log ERROR "视频帧提取失败: {str(e)}" [AExn e]]).
    unfold logging, emit. cbn. by rewrite push_push.
Qed.

(** X18.  With a positive interval and a clip that opens and closes,
    [extract_video_frames] returns frames whose time stamps are, in
    ascending order, among the sampled time points [0], [interval],
    [2 * interval], ... below the whole seconds of the duration ([0]
    alone when the clip is shorter than a second); each frame is the one
    that the clip gives at its time stamp; a time point whose frame
    cannot be read is left out, and when every frame can be read the
    time stamps are exactly the sampled time points. *)
Theorem extract_video_frames_samples (clip : Clip) (interval : Z) (w : World) :
  0 < interval →
  close clip = Ok () →
  ∃ frames events,
    extract_video_frames true (Ok clip) interval w = (Ok frames, push events w)
    ∧ frames.*2 `sublist_of` sample_times (py_int (duration clip)) interval
    ∧ (∀ frame t, (frame, t) ∈ frames →
         get_frame clip t = Ok frame
         ∧ (∃ k : nat, t = Z.of_nat k * interval)
         ∧ 0 ≤ t ∧ (t = 0 ∨ t < py_int (duration clip)))
    ∧ ((∀ t, t ∈ sample_times (py_int (duration clip)) interval →
          ∃ frame, get_frame clip t = Ok frame) →
       frames.*2 = sample_times (py_int (duration clip)) interval).
Proof.
  intros Hpos Hclose.
  destruct (extract_video_frames_run clip interval w Hpos)
    as (frames & events & Hrun & Hsub & Hread & Hall).
  rewrite Hclose in Hrun. exists frames, events.
  split; [done|]. split; [done|]. split; [|done].
  intros frame t Hin. split; [by apply Hread|].
  apply (sample_times_elem (py_int (duration clip)) interval t Hpos).
  eapply elem_of_sublist; [|exact Hsub].
  apply list_elem_of_fmap. by exists (frame, t).
Qed.

(** X19.  [extract_video_frames] never raises, and it returns no frame
    at all when MoviePy is missing, when the video cannot be opened,
    when the interval is 0 and when closing the clip raises, whatever
    frames were read before. *)
Theorem extract_video_frames_fails_closed (moviepy_available : bool)
    (video : Result Clip) (interval : Z) (w : World) :
  (∃ frames events,
     extract_video_frames moviepy_available video interval w
     = (Ok frames, push events w))
  ∧ ((moviepy_available = false
      ∨ (∃ e, video = Raise e)
      ∨ interval = 0
      ∨ (∃ clip e, video = Ok clip ∧ close clip = Raise e)) →
     (extract_video_frames moviepy_available video interval w).1 = Ok []).
Proof.
  assert (∃ frames events,
            extract_video_frames moviepy_available video interval w
            = (Ok frames, push events w)
            ∧ ((moviepy_available = false
                ∨ (∃ e, video = Raise e)
                ∨ interval = 0
                ∨ (∃ clip e, video = Ok clip ∧ close clip = Raise e)) →
               frames = [])) as (frames & events & Hrun & Hempty).
  { unfold extract_video_frames.
    destruct moviepy_available; cbn [negb]; [|by eexists _, _].
    unfold try_except, lift. unfold mbind at 1, M_bind at 1.
    destruct video as [clip|e]; [|by eexists _, _].
    unfold mbind at 1, M_bind at 1.
    destruct (py_range 0 (py_int (duration clip)) interval) as [timestamps|e] eqn:Hrange;
      [|by eexists _, _].
    cbv zeta.
    destruct (grab_frames_run clip []
                (match timestamps with [] => [0] | _ => timestamps end) w)
      as (frames & events & Hrun & _).
    cbn [app] in Hrun. unfold mbind at 1, M_bind at 1. rewrite Hrun.
    unfold mbind, M_bind. destruct (close clip) as [[]|e] eqn:Hclose.
    - exists frames, events. split; [done|].
      intros [?|[[? ?]|[->|(? & ? & [= <-] & ?)]]]; [done|done| |congruence].
      unfold py_range in Hrange. by rewrite Z.eqb_refl in Hrange.
    - eexists _, _. split; [|done]. unfold logging, emit. cbn.
      by rewrite push_push. }
  split; [by eexists _, _|]. intros Hcase. rewrite Hrun. cbn. f_equal. by apply Hempty.
Qed.

End FramesFacts.

(** ** The coding scheme that cannot be described *)

Section SchemeFacts.
Variable json_loads : string → option JValue.





End SchemeFacts.

(** X22.  [get_siliconflow_client] returns a client exactly when the
    key of the session, stripped, is not empty.  It never raises, so its
    decorator runs it once and never waits, and it calls nothing. *)
Theorem get_siliconflow_client_usable_key (w : World) :
  ∃ events,
    get_siliconflow_client w = (Ok (bool_decide (usable_key w)), push events w)
    ∧ slept events = []
    ∧ invocations events = 1%nat.
Proof.
  unfold get_siliconflow_client.
  rewrite retry_with_backoff_returns; [|lia|].
  2:{ intros w0. destruct (get_siliconflow_client_body_run w0) as [events ->].
      by eexists _, _. }
  unfold get_siliconflow_client_body, usable_key. cbn [api_key push].
  destruct (api_key w) as [|c r] eqn:Hkey.
  { eexists. unfold mbind, M_bind, logging, emit. cbn [mret M_ret].
    rewrite push_push. split; [reflexivity|]. by split. }
  destruct (strip (String c r)) as [|c' r'] eqn:Hstrip.
  { eexists. unfold mbind, M_bind, logging, emit. cbn [mret M_ret].
    rewrite push_push. split; [reflexivity|]. by split. }
  eexists. unfold mbind, M_bind, logging, emit. cbn [mret M_ret].
  rewrite !push_push. split; [reflexivity|]. by split.
Qed.

Section GiniFacts.
Context `{Countable V}.
Implicit Types (observations : list (gmap string V)) (values : list V).









End GiniFacts.

(** ** The further properties at concrete inputs *)

Section MoreInstances.

(** A reply that codes [sentiment] and not [topic]: the result has no
    entry for [topic]. *)
Lemma validate_omits_absent_witness :
  (∀ name, is_Some (coded_positive !! name) →
     name ∈ var_name <$> [sentiment; topic] ∧ py_in name capital_positive = Ok true)
  ∧ (∀ m name, capital_positive = JObj m → m !! name = None →
       coded_positive !! name = None).
Proof.
  exact (validate_omits_absent false [sentiment; topic] sentiment_options
           capital_positive unreachable unreachable coded_positive
           ltac:(vm_compute; reflexivity)).
Defined.

(** The value Positive is repaired to the option positive. *)
Lemma validate_option_containment_witness :
  ∃ o, o ∈ ["positive"; "neutral"; "negative"] ∧ JStr "positive" = JStr o.
Proof.
  exact (validate_option_containment false [sentiment; topic] sentiment_options
           capital_positive unreachable unreachable coded_positive sentiment
           ["positive"; "neutral"; "negative"] (JStr "positive")
           ltac:(apply (bool_decide_eq_true_1 _); vm_compute; reflexivity)
           ltac:(by left)
           ltac:(reflexivity)
           ltac:(vm_compute; reflexivity)
           ltac:(discriminate)
           ltac:(vm_compute; reflexivity)
           ltac:(vm_compute; reflexivity)).
Defined.

Lemma validate_fenced_agrees_witness :
  (validate true [sentiment] sentiment_options capital_positive unreachable).1
  = (validate false [sentiment] sentiment_options capital_positive unreachable).1.
Proof.
  apply (validate_fenced_agrees [sentiment] sentiment_options capital_positive
           unreachable unreachable).
  intros v valid_options Hin Hcat Hlookup.
  apply list_elem_of_singleton in Hin as ->.
  vm_compute in Hlookup. injection Hlookup as <-. discriminate.
Defined.

(** Three runs, waits of 2 and 4 seconds. *)
Lemma retry_with_backoff_exhausts_witness :
  ∃ e w' events,
    retry_with_backoff (Z.of_nat 3) 2 2 "op" (raise (ServiceError "down") : M unit)
      unreachable = (Raise e, w')
    ∧ trace w' = trace unreachable ++ events
    ∧ slept events = (λ k : nat, 2 * 2 ^ Z.of_nat k) <$> seq 0 (3 - 1)
    ∧ invocations events = 3%nat.
Proof.
  apply (retry_with_backoff_exhausts (raise (ServiceError "down") : M unit) 3 2 2 "op"
           unreachable).
  intros w0. exists (ServiceError "down"), w0, [].
  split; [reflexivity|]. split; [symmetry; apply app_nil_r|]. split; reflexivity.
Defined.

Lemma retry_with_backoff_no_attempt_witness :
  retry_with_backoff 0 1 2 "ask" ask (replying "ok") = (Raise TypeError, replying "ok").
Proof.
  apply (retry_with_backoff_no_attempt ask 0 1 2 "ask" (replying "ok")). lia.
Defined.

Lemma percentage_agreement_order_independent_witness :
  calculate_percentage_agreement three_coders
  = calculate_percentage_agreement three_coders_swapped.
Proof.
  apply (percentage_agreement_order_independent three_coders three_coders_swapped).
  apply perm_swap.
Defined.


Lemma split_options_clean_witness :
  ("b" : string) ≠ EmptyString ∧ has_char "," "b" = false ∧ strip "b" = "b".
Proof.
  apply (split_options_clean " a, b ,,c " "b").
  apply (bool_decide_eq_true_1 _). vm_compute. reflexivity.
Defined.

Lemma user_prompt_placeholders_witness :
  user_prompt content_prompt (Some "Summarise the text.") scenario_A_content "topic"
  = "Summarise the text.".
Proof.
  apply (proj1 (user_prompt_placeholders content_prompt "Summarise the text."
                  scenario_A_content "topic")).
  - discriminate.
  - reflexivity.
  - reflexivity.
Defined.

(** One request that is refused and one that is answered. *)
Lemma create_requests_spec_witness :
  ∃ (k : nat) (events : list Event),
    (1 ≤ k ≤ 3)%nat
    ∧ (∀ i, (i < k - 1)%nat →
         ∃ e, answer plain_decode (urlopen recovering (opened recovering + i)) = Raise e)
    ∧ ((k < 3)%nat →
       ∃ response,
         answer plain_decode (urlopen recovering (opened recovering + (k - 1)))
         = Ok response)
    ∧ (create_requests plain_decode recovering).1
      = (response ← answer plain_decode
                       (urlopen recovering (opened recovering + (k - 1)));
         Ok (Some response))
    ∧ opened (create_requests plain_decode recovering).2 = (opened recovering + k)%nat
    ∧ net_trace (create_requests plain_decode recovering).2
      = net_trace recovering ++ events
    ∧ slept events = take (k - 1) [1; 2].
Proof. exact (create_requests_spec plain_decode recovering). Defined.

(** Sampling every 30 seconds: the frame at second 30 is left out. *)
Lemma extract_video_frames_samples_witness :
  ∃ frames events,
    extract_video_frames true (Ok short_clip) 30 unreachable
    = (Ok frames, push events unreachable)
    ∧ frames.*2 `sublist_of` sample_times (py_int (duration short_clip)) 30
    ∧ (∀ frame t, (frame, t) ∈ frames →
         get_frame short_clip t = Ok frame
         ∧ (∃ k : nat, t = Z.of_nat k * 30)
         ∧ 0 ≤ t ∧ (t = 0 ∨ t < py_int (duration short_clip)))
    ∧ ((∀ t, t ∈ sample_times (py_int (duration short_clip)) 30 →
          ∃ frame, get_frame short_clip t = Ok frame) →
       frames.*2 = sample_times (py_int (duration short_clip)) 30).
Proof.
  apply (extract_video_frames_samples short_clip 30 unreachable).
  - lia.
  - reflexivity.
Defined.

Lemma extract_video_frames_fails_closed_witness :
  (extract_video_frames true (Ok short_clip) 0 unreachable).1 = Ok [].
Proof.
  apply (proj2 (extract_video_frames_fails_closed true (Ok short_clip) 0 unreachable)).
  right. right. by left.
Defined.


End MoreInstances.

Section MoreCodingInstances.

(** The reply of the unvalidated path: it is not JSON, and a dict comes
    back. *)
Lemma auto_code_content_non_json_coded_witness :
  ∃ d w', auto_code_content Json.loads scenario_A_content [sentiment] None
            (replying braces_then_line) = (Ok (Some d), w')
          ∧ calls w' = S (calls (replying braces_then_line)).
Proof.
  exact (auto_code_content_non_json_coded Json.loads scenario_A_content [sentiment]
           None (replying braces_then_line)
           ("sentiment (select) [选项: positive, neutral, negative]" +:+ nl +:+ nl)
           sentiment_options braces_then_line
           ltac:(vm_compute; discriminate)
           ltac:(vm_compute; reflexivity)
           ltac:(reflexivity)
           ltac:(vm_compute; reflexivity)).
Defined.

(** Without a key, whatever the frames. *)
Lemma coders_without_key_or_frames_witness :
  ∃ events,
    auto_code_content Json.loads scenario_A_content [sentiment] None keyless
    = (Ok None, push events keyless)
    ∧ auto_code_video Json.loads [(Image "QUJD", 0)] [sentiment] None
        "Qwen/Qwen2-VL-72B-Instruct" "deepseek-ai/DeepSeek-V2.5" keyless
      = (Ok None, push events keyless).
Proof.
  apply (proj1 (coders_without_key_or_frames Json.loads scenario_A_content
                  [(Image "QUJD", 0)] [sentiment] None
                  "Qwen/Qwen2-VL-72B-Instruct" "deepseek-ai/DeepSeek-V2.5" keyless)).
  intros Hkey. by apply Hkey.
Defined.


End MoreCodingInstances.
